(** * pmi_cluster: hierarchical word clusters from document-level PMI

    A shallow embedding of [src/pmi_cluster.py] (class
    [DocumentLevelClusters]) and the properties of its specification.

    Modelling choices, all taken from the source:
    - a Python [dict] is an insertion-ordered association list with unique
      keys ([dict_set] keeps the position of an existing key and appends a
      new one), because [create_vocab] sorts [word_counts.keys()] stably
      and [find_best] breaks ties along the iteration order of the score
      table;
    - [self.index] holds references to dict objects: [merge] binds the new
      cluster id to the very object of [c1], so the index maps a cluster id
      to a location of a heap of document-count dicts;
    - a method is a function in a state-and-exception monad over the
      object's fields; [random.randint(0, 1)] reads the next bit of the
      module-wide random source, a stream with a cursor;
    - integers are unbounded ([Z]); a float score is kept as the expression
      the code evaluates, [log p - log f1 - log f2], or negative infinity.
      [find_best] compares the doubles of these expressions: [math.log] is
      a parameter of the model (the function of the platform's C library),
      the subtraction and the comparisons are those of IEEE 754 binary64.
      The statement about the formula reads a score as an extended real. *)

From Stdlib Require Import ZArith List String Bool Arith Lia Permutation FinFun.
From Stdlib Require Import RelationClasses DecimalString Reals SpecFloat.
Import ListNotations.

Open Scope Z_scope.

(** ** Python values *)

(** A cluster id: a vocabulary word (a [str] token) or the integer id of a
    merged cluster.  A [str] never equals an [int] in Python. *)
Inductive cid : Type :=
| Word (w : string)
| Merged (n : nat).

Definition cid_eqb (a b : cid) : bool :=
  match a, b with
  | Word x, Word y => String.eqb x y
  | Merged x, Merged y => Nat.eqb x y
  | _, _ => false
  end.

(** Keys of dictionaries: types with an equality test. *)
Class PyKey (K : Type) : Type := { key_eqb : K -> K -> bool }.

#[export] Instance cid_key : PyKey cid := {| key_eqb := cid_eqb |}.

#[export] Instance nat_key : PyKey nat := {| key_eqb := Nat.eqb |}.

(** ** Insertion-ordered dictionaries *)

Module Dict.
Section Ops.
Context {K V : Type} {H : PyKey K}.

Definition t : Type := list (K * V).

Fixpoint get (d : t) (k : K) : option V :=
  match d with
  | [] => None
  | (k', v) :: d' => if key_eqb k' k then Some v else get d' k
  end.

Definition mem (d : t) (k : K) : bool :=
  match get d k with Some _ => true | None => false end.

(** [d[k] = v]: an existing key keeps its place, a new key goes last. *)
Fixpoint set (d : t) (k : K) (v : V) : t :=
  match d with
  | [] => [(k, v)]
  | (k', v') :: d' =>
      if key_eqb k' k then (k', v) :: d' else (k', v') :: set d' k v
  end.

(** [del d[k]] on a dict that has the key (the caller raises KeyError
    otherwise). *)
Definition del (d : t) (k : K) : t :=
  filter (fun kv => negb (key_eqb (fst kv) k)) d.

Definition keys (d : t) : list K := map fst d.

End Ops.
Arguments t : clear implicits.
End Dict.

(** ** Exceptions and results *)

Inductive exn : Type :=
| UnboundLocalError
| IndexError
| KeyError
| ValueError.

Inductive result (A : Type) : Type :=
| Ok (a : A)
| Err (e : exn).
Arguments Ok {A} a.
Arguments Err {A} e.

(** ** Scores

    [make_pair_scores] stores either [float('-inf')] or the float
    [log(paircount) - log(f1) - log(f2)].  [math.log] raises ValueError
    outside the positive numbers, so the three arguments of a stored
    logarithmic score are positive. *)
Inductive score : Type :=
| NegInf
| LogRatio (paircount f1 f2 : positive).

(** Extended reals, the reading of a score. *)
Inductive ext_real : Type :=
| MinusInfinity
| Finite (r : R).

Definition score_value (s : score) : ext_real :=
  match s with
  | NegInf => MinusInfinity
  | LogRatio p f1 f2 =>
      Finite (ln (IZR (Zpos p)) - ln (IZR (Zpos f1)) - ln (IZR (Zpos f2)))%R
  end.

(** [math.log] on a positive integer: the double that the C library of the
    platform returns, a parameter of the model.  Python's [float] is the
    IEEE 754 binary64 format, here Stdlib's [spec_float]. *)
Class MathLog : Type := { math_log : positive -> spec_float }.

(** [x - y] on Python floats, IEEE 754 binary64 rounded to nearest even. *)
Definition float_sub (x y : spec_float) : spec_float := SFsub 53 1024 x y.

(** The double of a score: [float('-inf')], or
    [log(paircount) - log(f1) - log(f2)] evaluated from the left. *)
Definition score_float {ML : MathLog} (s : score) : spec_float :=
  match s with
  | NegInf => S754_infinity true
  | LogRatio p f1 f2 =>
      float_sub (float_sub (math_log p) (math_log f1)) (math_log f2)
  end.

(** [s1 > s2] and [s1 == s2] on the doubles; both are false on a NaN. *)
Definition score_gtb {ML : MathLog} (s1 s2 : score) : bool :=
  SFltb (score_float s2) (score_float s1).

Definition score_eqb {ML : MathLog} (s1 s2 : score) : bool :=
  SFeqb (score_float s1) (score_float s2).

(** [str(n)] for an integer. *)
Definition py_str (z : Z) : string := NilZero.string_of_int (Z.to_int z).

(** ** The object state *)

(** A document-occurrence map: document id -> count. *)
Definition docmap : Type := Dict.t nat Z.

Record state : Type := mkState {
  batch_size : Z;
  num_docs : Z;
  max_vocab_size : option Z;
  cluster_parents : Dict.t cid cid;
  cluster_counter : nat;
  (** the dict objects referenced from [index], by location *)
  heap : list docmap;
  (** [self.index]: cluster id -> reference to its document-count dict *)
  index : Dict.t cid nat;
  words : list cid;
  word_counts : Dict.t cid Z;
  cluster_bits : Dict.t cid string;
  current_batch : list cid;
  current_batch_scores : Dict.t cid (Dict.t cid score);
  (** [word_queue], the local list of [__init__] that [update_batch]
      receives by reference and pops from *)
  word_queue : list cid;
  (** the state of the [random] module: the bits it will deliver and the
      number of bits delivered so far *)
  rng : nat -> bool;
  rng_pos : nat
}.

Definition set_num_docs (v : Z) (s : state) : state :=
  mkState (batch_size s) v (max_vocab_size s) (cluster_parents s)
    (cluster_counter s) (heap s) (index s) (words s) (word_counts s)
    (cluster_bits s) (current_batch s) (current_batch_scores s)
    (word_queue s) (rng s) (rng_pos s).

Definition set_cluster_parents (v : Dict.t cid cid) (s : state) : state :=
  mkState (batch_size s) (num_docs s) (max_vocab_size s) v
    (cluster_counter s) (heap s) (index s) (words s) (word_counts s)
    (cluster_bits s) (current_batch s) (current_batch_scores s)
    (word_queue s) (rng s) (rng_pos s).

Definition set_cluster_counter (v : nat) (s : state) : state :=
  mkState (batch_size s) (num_docs s) (max_vocab_size s) (cluster_parents s)
    v (heap s) (index s) (words s) (word_counts s)
    (cluster_bits s) (current_batch s) (current_batch_scores s)
    (word_queue s) (rng s) (rng_pos s).

Definition set_heap (v : list docmap) (s : state) : state :=
  mkState (batch_size s) (num_docs s) (max_vocab_size s) (cluster_parents s)
    (cluster_counter s) v (index s) (words s) (word_counts s)
    (cluster_bits s) (current_batch s) (current_batch_scores s)
    (word_queue s) (rng s) (rng_pos s).

Definition set_index (v : Dict.t cid nat) (s : state) : state :=
  mkState (batch_size s) (num_docs s) (max_vocab_size s) (cluster_parents s)
    (cluster_counter s) (heap s) v (words s) (word_counts s)
    (cluster_bits s) (current_batch s) (current_batch_scores s)
    (word_queue s) (rng s) (rng_pos s).

Definition set_words (v : list cid) (s : state) : state :=
  mkState (batch_size s) (num_docs s) (max_vocab_size s) (cluster_parents s)
    (cluster_counter s) (heap s) (index s) v (word_counts s)
    (cluster_bits s) (current_batch s) (current_batch_scores s)
    (word_queue s) (rng s) (rng_pos s).

Definition set_word_counts (v : Dict.t cid Z) (s : state) : state :=
  mkState (batch_size s) (num_docs s) (max_vocab_size s) (cluster_parents s)
    (cluster_counter s) (heap s) (index s) (words s) v
    (cluster_bits s) (current_batch s) (current_batch_scores s)
    (word_queue s) (rng s) (rng_pos s).

Definition set_cluster_bits (v : Dict.t cid string) (s : state) : state :=
  mkState (batch_size s) (num_docs s) (max_vocab_size s) (cluster_parents s)
    (cluster_counter s) (heap s) (index s) (words s) (word_counts s)
    v (current_batch s) (current_batch_scores s)
    (word_queue s) (rng s) (rng_pos s).

Definition set_current_batch (v : list cid) (s : state) : state :=
  mkState (batch_size s) (num_docs s) (max_vocab_size s) (cluster_parents s)
    (cluster_counter s) (heap s) (index s) (words s) (word_counts s)
    (cluster_bits s) v (current_batch_scores s)
    (word_queue s) (rng s) (rng_pos s).

Definition set_current_batch_scores (v : Dict.t cid (Dict.t cid score))
    (s : state) : state :=
  mkState (batch_size s) (num_docs s) (max_vocab_size s) (cluster_parents s)
    (cluster_counter s) (heap s) (index s) (words s) (word_counts s)
    (cluster_bits s) (current_batch s) v
    (word_queue s) (rng s) (rng_pos s).

Definition set_word_queue (v : list cid) (s : state) : state :=
  mkState (batch_size s) (num_docs s) (max_vocab_size s) (cluster_parents s)
    (cluster_counter s) (heap s) (index s) (words s) (word_counts s)
    (cluster_bits s) (current_batch s) (current_batch_scores s)
    v (rng s) (rng_pos s).

Definition set_rng_pos (v : nat) (s : state) : state :=
  mkState (batch_size s) (num_docs s) (max_vocab_size s) (cluster_parents s)
    (cluster_counter s) (heap s) (index s) (words s) (word_counts s)
    (cluster_bits s) (current_batch s) (current_batch_scores s)
    (word_queue s) (rng s) v.

(** ** The monad of methods *)

Definition M (A : Type) : Type := state -> result (A * state).

Definition ret {A} (a : A) : M A := fun s => Ok (a, s).

Definition bind {A B} (m : M A) (f : A -> M B) : M B :=
  fun s => match m s with
           | Ok (a, s') => f a s'
           | Err e => Err e
           end.

Definition raise {A} (e : exn) : M A := fun _ => Err e.

Definition gets {A} (f : state -> A) : M A := fun s => Ok (f s, s).

Definition modify (f : state -> state) : M unit := fun s => Ok (tt, f s).

Notation "x <- m ;; k" := (bind m (fun x => k))
  (at level 61, m at next level, right associativity).
Notation "m ;; k" := (bind m (fun _ => k))
  (at level 61, right associativity).

(** [for x in l: body x] *)
Fixpoint for_each {A} (l : list A) (body : A -> M unit) : M unit :=
  match l with
  | [] => ret tt
  | x :: l' => body x ;; for_each l' body
  end.

(** [acc = a0; for x in l: acc = body acc x] *)
Fixpoint fold_m {A B} (body : B -> A -> M B) (l : list A) (acc : B) : M B :=
  match l with
  | [] => ret acc
  | x :: l' => acc' <- body acc x ;; fold_m body l' acc'
  end.

(** [d[k]] on a plain dict. *)
Definition getitem {K V} `{PyKey K} (d : Dict.t K V) (k : K) : M V :=
  match Dict.get d k with
  | Some v => ret v
  | None => raise KeyError
  end.

(** [l[i]] on a list, with Python's negative indices. *)
Definition list_getitem {A} (l : list A) (i : Z) : M A :=
  let n := Z.of_nat (List.length l) in
  let j := if i <? 0 then i + n else i in
  if (j <? 0) || (n <=? j) then raise IndexError
  else match nth_error l (Z.to_nat j) with
       | Some x => ret x
       | None => raise IndexError
       end.

(** [l[:k]] and [l[k:]] with Python's negative bounds. *)
Definition slice_bound {A} (l : list A) (k : Z) : nat :=
  let n := Z.of_nat (List.length l) in
  Z.to_nat (Z.min n (if k <? 0 then Z.max 0 (k + n) else k)).

Definition slice_to {A} (l : list A) (k : Z) : list A :=
  firstn (slice_bound l k) l.

Definition slice_from {A} (l : list A) (k : Z) : list A :=
  skipn (slice_bound l k) l.

(** [math.log(n)] of an integer, kept symbolic: its argument. *)
Definition py_log (n : Z) : M positive :=
  match n with
  | Zpos p => ret p
  | _ => raise ValueError
  end.

(** [random.randint(0, 1)]. *)
Definition randint01 : M Z :=
  fun s => Ok (Z.b2z (rng s (rng_pos s)), set_rng_pos (S (rng_pos s)) s).

(** [c in l] for a list of cluster ids. *)
Definition cid_in (c : cid) (l : list cid) : bool := existsb (cid_eqb c) l.

(** ** Accessors with the defaults of [defaultdict] *)

(** The dict object at a location. *)
Definition heap_load (l : nat) : M docmap :=
  gets (fun s => nth l (heap s) []).

Fixpoint list_update {A} (l : list A) (i : nat) (x : A) : list A :=
  match l, i with
  | [], _ => []
  | _ :: l', O => x :: l'
  | y :: l', S i' => y :: list_update l' i' x
  end.

(** [obj[doc_id] = v] on the dict object at location [l]. *)
Definition heap_setitem (l : nat) (doc_id : nat) (v : Z) : M unit :=
  modify (fun s =>
    set_heap (list_update (heap s) l (Dict.set (nth l (heap s) []) doc_id v)) s).

(** [self.index[c]]: [index] is a [defaultdict(dict)], a missing key is
    bound to a fresh empty dict. *)
Definition index_getitem (c : cid) : M nat :=
  fun s =>
    match Dict.get (index s) c with
    | Some l => Ok (l, s)
    | None =>
        let l := List.length (heap s) in
        Ok (l, set_index (Dict.set (index s) c l) (set_heap (heap s ++ [[]]) s))
    end.

(** [self.index[c][doc_id]] as an expression. *)
Definition index_count (c : cid) (doc_id : nat) : M Z :=
  l <- index_getitem c ;;
  m <- heap_load l ;;
  getitem m doc_id.

(** [del self.index[c]]. *)
Definition index_delitem (c : cid) : M unit :=
  fun s =>
    if Dict.mem (index s) c
    then Ok (tt, set_index (Dict.del (index s) c) s)
    else Err KeyError.

(** [self.word_counts[c]]: [word_counts] is a [defaultdict(int)], reading
    a missing key stores 0 for it. *)
Definition word_counts_getitem (c : cid) : M Z :=
  fun s =>
    match Dict.get (word_counts s) c with
    | Some f => Ok (f, s)
    | None => Ok (0, set_word_counts (Dict.set (word_counts s) c 0) s)
    end.

Definition word_counts_setitem (c : cid) (f : Z) : M unit :=
  modify (fun s => set_word_counts (Dict.set (word_counts s) c f) s).

(** [del self.word_counts[c]]. *)
Definition word_counts_delitem (c : cid) : M unit :=
  fun s =>
    if Dict.mem (word_counts s) c
    then Ok (tt, set_word_counts (Dict.del (word_counts s) c) s)
    else Err KeyError.

(** [self.current_batch_scores[c1][c2] = v]: a [defaultdict] of
    [defaultdict(float)], the row of a new [c1] is created empty. *)
Definition scores_setitem (c1 c2 : cid) (v : score) : M unit :=
  modify (fun s =>
    let row := match Dict.get (current_batch_scores s) c1 with
               | Some d => d
               | None => []
               end in
    set_current_batch_scores
      (Dict.set (current_batch_scores s) c1 (Dict.set row c2 v)) s).

(** ** [create_index] *)

(** [if doc_id not in self.index[c]: self.index[c][doc_id] = 0] *)
Definition ensure_doc (c : cid) (doc_id : nat) : M unit :=
  l <- index_getitem c ;;
  m <- heap_load l ;;
  if Dict.mem m doc_id then ret tt
  else (l0 <- index_getitem c ;; heap_setitem l0 doc_id 0).

(** [self.index[c][doc_id] += rhs]: the dict object is looked up once, its
    entry is read, the right-hand side is evaluated, the sum is stored in
    the same object. *)
Definition index_iadd (c : cid) (doc_id : nat) (rhs : M Z) : M unit :=
  l <- index_getitem c ;;
  m <- heap_load l ;;
  n <- getitem m doc_id ;;
  v <- rhs ;;
  heap_setitem l doc_id (n + v).

(** [self.word_counts[c] += 1] *)
Definition word_counts_incr (c : cid) : M unit :=
  f <- word_counts_getitem c ;;
  word_counts_setitem c (f + 1).

(** The body of the inner loop, for one token [w] of document [doc_id]. *)
Definition index_token (doc_id : nat) (w : string) : M unit :=
  ensure_doc (Word w) doc_id ;;
  index_iadd (Word w) doc_id (ret 1) ;;
  word_counts_incr (Word w).

Definition enumerate {A} (l : list A) : list (nat * A) :=
  combine (seq 0 (List.length l)) l.

(** [doc_id] after the loop: the last value bound, none for an empty
    corpus. *)
Definition last_doc_id {A} (docs : list A) : option nat :=
  match docs with
  | [] => None
  | _ :: _ => Some (Nat.pred (List.length docs))
  end.

Definition create_index (docs : list (list string)) : M unit :=
  for_each (enumerate docs)
    (fun '(doc_id, doc) => for_each doc (index_token doc_id)) ;;
  match last_doc_id docs with
  | None => raise UnboundLocalError
  | Some doc_id => modify (set_num_docs (Z.of_nat doc_id + 1))
  end.

(** ** [create_vocab] *)

(** The frequency of a key of [word_counts]. *)
Definition count_of (wc : Dict.t cid Z) (w : cid) : Z :=
  match Dict.get wc w with Some f => f | None => 0 end.

(** [sorted(l, key=key, reverse=True)]: a stable sort, elements of equal
    key keep their order. *)
Fixpoint insert_desc (key : cid -> Z) (x : cid) (l : list cid) : list cid :=
  match l with
  | [] => [x]
  | y :: l' => if key y <=? key x then x :: y :: l'
               else y :: insert_desc key x l'
  end.

Definition sorted_desc (key : cid -> Z) (l : list cid) : list cid :=
  fold_right (insert_desc key) [] l.

(** The loop over [index_keys] that drops the words left out. *)
Definition prune_key (kept : list cid) (key : cid) : M unit :=
  if cid_in key kept then ret tt
  else (index_delitem key ;; word_counts_delitem key).

Definition create_vocab : M unit :=
  wc <- gets word_counts ;;
  let ws := sorted_desc (count_of wc) (Dict.keys wc) in
  modify (set_words ws) ;;
  cap <- gets max_vocab_size ;;
  match cap with
  | None => ret tt
  | Some n =>
      if n <? Z.of_nat (List.length ws) then
        w <- list_getitem ws (n + 1) ;;
        too_rare <- word_counts_getitem w ;;
        w0 <- list_getitem ws 0 ;;
        f0 <- word_counts_getitem w0 ;;
        let too_rare := if too_rare =? f0 then too_rare + 1 else too_rare in
        wc' <- gets word_counts ;;
        let kept := filter (fun w => too_rare <? count_of wc' w) ws in
        modify (set_words kept) ;;
        index_keys <- gets (fun s => Dict.keys (index s)) ;;
        for_each index_keys (prune_key kept)
      else ret tt
  end.

(** ** [make_pair_scores] *)

(** The body of the loop for one pair, in two parts: the float that the
    body computes and the assignment [scores[c1][c2] = ...] that both of
    its branches end with.  The documents of
    [set(index[c1].keys()) & set(index[c2].keys())] are visited in the
    order of the first dict; the sum does not depend on the order. *)
Definition pair_count (c1 c2 : cid) : M Z :=
  l1 <- index_getitem c1 ;;
  m1 <- heap_load l1 ;;
  l2 <- index_getitem c2 ;;
  m2 <- heap_load l2 ;;
  let common := filter (Dict.mem m2) (Dict.keys m1) in
  fold_m (fun paircount doc_id =>
            n1 <- index_count c1 doc_id ;;
            n2 <- index_count c2 doc_id ;;
            ret (paircount + n1 * n2)) common 0.

Definition pair_value (c1 c2 : cid) : M score :=
  paircount <- pair_count c1 c2 ;;
  if paircount =? 0 then ret NegInf
  else
    lp <- py_log paircount ;;
    f1 <- word_counts_getitem c1 ;;
    lf1 <- py_log f1 ;;
    f2 <- word_counts_getitem c2 ;;
    lf2 <- py_log f2 ;;
    ret (LogRatio lp lf1 lf2).

Definition score_pair (c1 c2 : cid) : M unit :=
  v <- pair_value c1 c2 ;;
  scores_setitem c1 c2 v.

Definition make_pair_scores (pair_iter : list (cid * cid)) : M unit :=
  for_each pair_iter (fun '(c1, c2) => score_pair c1 c2).

(** [itertools.combinations(l, 2)] and [itertools.product(a, b)]. *)
Fixpoint combinations2 {A} (l : list A) : list (A * A) :=
  match l with
  | [] => []
  | x :: l' => map (pair x) l' ++ combinations2 l'
  end.

Definition product {A B} (a : list A) (b : list B) : list (A * B) :=
  flat_map (fun x => map (pair x) b) a.

(** ** [find_best] *)

(** The entries of the score table in the order of the two nested loops. *)
Definition score_entries (t : Dict.t cid (Dict.t cid score))
  : list (cid * cid * score) :=
  flat_map (fun '(tmp1, d) => map (fun '(tmp2, s) => (tmp1, tmp2, s)) d) t.

(** One iteration; [best] is [(c1, c2, best_score)], [None] before the
    first entry.  The random bit is drawn only on a tie ([and] is lazy). *)
Definition find_best_step {ML : MathLog} (best : option (cid * cid * score))
    (e : cid * cid * score) : M (option (cid * cid * score)) :=
  match best with
  | None => ret (Some e)
  | Some (_, _, best_score) =>
      if score_gtb (snd e) best_score then ret (Some e)
      else if score_eqb (snd e) best_score then
        r <- randint01 ;;
        if r =? 1 then ret (Some e) else ret best
      else ret best
  end.

(** The result is [None] for the pair [(None, None)] of an empty table. *)
Definition find_best {ML : MathLog} : M (option (cid * cid)) :=
  t <- gets current_batch_scores ;;
  best <- fold_m find_best_step (score_entries t) None ;;
  ret (match best with
       | Some (c1, c2, _) => Some (c1, c2)
       | None => None
       end).

(** ** [merge] *)

(** The body of [for doc_id in self.index[c2]]. *)
Definition merge_doc (c_new c2 : cid) (doc_id : nat) : M unit :=
  ensure_doc c_new doc_id ;;
  index_iadd c_new doc_id (index_count c2 doc_id).

(** [merge] in the four blocks of the source: the hierarchy, the
    document counts, the frequencies, the release of the children. *)
Definition merge_hierarchy (c1 c2 c_new : cid) : M unit :=
  modify (fun s => set_cluster_parents (Dict.set (cluster_parents s) c1 c_new) s) ;;
  modify (fun s => set_cluster_parents (Dict.set (cluster_parents s) c2 c_new) s) ;;
  r <- randint01 ;;
  modify (fun s => set_cluster_bits (Dict.set (cluster_bits s) c1 (py_str r)) s) ;;
  modify (fun s => set_cluster_bits (Dict.set (cluster_bits s) c2 (py_str (1 - r))) s).

Definition merge_index (c1 c2 c_new : cid) : M unit :=
  (* self.index[c_new] = self.index[c1]: the same object *)
  l1 <- index_getitem c1 ;;
  modify (fun s => set_index (Dict.set (index s) c_new l1) s) ;;
  l2 <- index_getitem c2 ;;
  m2 <- heap_load l2 ;;
  for_each (Dict.keys m2) (merge_doc c_new c2).

Definition merge_counts (c1 c2 c_new : cid) : M unit :=
  f1 <- word_counts_getitem c1 ;;
  f2 <- word_counts_getitem c2 ;;
  word_counts_setitem c_new (f1 + f2).

Definition merge_release (c1 c2 : cid) : M unit :=
  index_delitem c1 ;;
  index_delitem c2 ;;
  ws <- gets words ;;
  (if cid_in c1 ws then ret tt else word_counts_delitem c1) ;;
  ws' <- gets words ;;
  (if cid_in c2 ws' then ret tt else word_counts_delitem c2).

Definition merge (c1 c2 : cid) : M unit :=
  c_new <- gets (fun s => Merged (cluster_counter s)) ;;
  merge_hierarchy c1 c2 c_new ;;
  merge_index c1 c2 c_new ;;
  merge_counts c1 c2 c_new ;;
  merge_release c1 c2.

(** ** [update_batch] *)

(** [del scores[c]] if present, then [del d[c]] in every row. *)
Definition purge_scores (c : cid) : M unit :=
  modify (fun s =>
    let t := current_batch_scores s in
    let t1 := if Dict.mem t c then Dict.del t c else t in
    set_current_batch_scores (map (fun '(k, d) => (k, Dict.del d c)) t1) s).

Definition update_batch (c1 c2 : cid) : M unit :=
  modify (fun s =>
    set_current_batch
      (filter (fun x => negb (cid_eqb x c1 || cid_eqb x c2)) (current_batch s)) s) ;;
  for_each [c1; c2] purge_scores ;;
  counter <- gets cluster_counter ;;
  freq_words <- gets word_queue ;;
  new_items <- match freq_words with
               | [] => ret [Merged counter]
               | new_word :: rest =>
                   modify (set_word_queue rest) ;;
                   ret [Merged counter; new_word]
               end ;;
  batch <- gets current_batch ;;
  make_pair_scores (product new_items batch) ;;
  make_pair_scores (combinations2 new_items) ;;
  modify (fun s => set_current_batch (current_batch s ++ new_items) s).

(** ** [get_bitstring] and [save_clusters] *)

(** The [while] loop, bounded by [fuel]; [None] when the fuel is used up. *)
Fixpoint get_bitstring_loop (fuel : nat) (cur_cluster : cid)
    (bitstring : string) (s : state) : option (result (string * state)) :=
  match fuel with
  | O => None
  | S fuel' =>
      if Dict.mem (cluster_parents s) cur_cluster then
        match Dict.get (cluster_bits s) cur_cluster with
        | None => Some (Err KeyError)
        | Some b =>
            match Dict.get (cluster_parents s) cur_cluster with
            | None => Some (Err KeyError)
            | Some p => get_bitstring_loop fuel' p (b ++ bitstring) s
            end
        end
      else Some (Ok (bitstring, s))
  end.

Definition get_bitstring (fuel : nat) (w : cid) (s : state)
  : option (result (string * state)) :=
  get_bitstring_loop fuel w EmptyString s.

(** A record of the output, written as [word TAB bitstring TAB count]. *)
Definition line : Type := (cid * string * Z)%type.

Fixpoint save_clusters_loop (fuel : nat) (ws : list cid) (s : state)
  : option (result (list line * state)) :=
  match ws with
  | [] => Some (Ok ([], s))
  | w :: ws' =>
      match get_bitstring fuel w s with
      | None => None
      | Some (Err e) => Some (Err e)
      | Some (Ok (bits, s1)) =>
          match word_counts_getitem w s1 with
          | Err e => Some (Err e)
          | Ok (f, s2) =>
              match save_clusters_loop fuel ws' s2 with
              | None => None
              | Some (Err e) => Some (Err e)
              | Some (Ok (ls, s3)) => Some (Ok ((w, bits, f) :: ls, s3))
              end
          end
      end
  end.

Definition save_clusters (fuel : nat) (s : state)
  : option (result (list line * state)) :=
  save_clusters_loop fuel (words s) s.

(** ** [__init__] *)

Definition new_state (batch_size : Z) (max_vocab_size : option Z)
    (rng : nat -> bool) : state :=
  mkState batch_size 0 max_vocab_size [] 0 [] [] [] [] [] [] [] [] rng 0.

(** The constructor up to the [while] loop. *)
Definition setup (docs : list (list string)) : M unit :=
  create_index docs ;;
  create_vocab ;;
  modify (fun s => set_word_queue (words s) s) ;;
  modify (fun s =>
    set_current_batch (slice_to (word_queue s) (batch_size s + 1)) s) ;;
  batch <- gets current_batch ;;
  make_pair_scores (combinations2 batch) ;;
  modify (fun s =>
    set_word_queue (slice_from (word_queue s) (batch_size s + 1)) s).

(** The body of the [while] loop.  On an empty score table [find_best]
    returns [(None, None)] and [merge(None, None)] ends in the KeyError of
    its second [del self.index[None]]. *)
Definition merge_round {ML : MathLog} : M unit :=
  best <- find_best ;;
  match best with
  | None => raise KeyError
  | Some (c1, c2) =>
      merge c1 c2 ;;
      update_batch c1 c2 ;;
      modify (fun s => set_cluster_counter (S (cluster_counter s)) s)
  end.

Fixpoint merge_loop {ML : MathLog} (fuel : nat) (s : state)
  : option (result state) :=
  if (1 <? List.length (current_batch s))%nat then
    match fuel with
    | O => None
    | S fuel' =>
        match merge_round s with
        | Err e => Some (Err e)
        | Ok (_, s') => merge_loop fuel' s'
        end
    end
  else Some (Ok s).

Definition init {ML : MathLog} (fuel : nat) (docs : list (list string))
    (batch_size : Z) (max_vocab_size : option Z) (rng : nat -> bool)
  : option (result state) :=
  match setup docs (new_state batch_size max_vocab_size rng) with
  | Err e => Some (Err e)
  | Ok (_, s) => merge_loop fuel s
  end.

(** * Vocabulary of the properties *)

(** Every reference of the index points into the heap. *)
Definition index_valid (s : state) : Prop :=
  forall c l, Dict.get (index s) c = Some l -> (l < List.length (heap s))%nat.

(** The state after the defaulting lookup [self.index[c]]. *)
Definition touch (c : cid) (s : state) : state :=
  match Dict.get (index s) c with
  | Some _ => s
  | None => set_index (Dict.set (index s) c (List.length (heap s)))
              (set_heap (heap s ++ [[]]) s)
  end.

Definition loc_of (c : cid) (s : state) : nat :=
  match Dict.get (index s) c with
  | Some l => l
  | None => List.length (heap s)
  end.

(** The document-count dict with an entry for [doc_id]. *)
Definition ensure (m : docmap) (doc_id : nat) : docmap :=
  if Dict.mem m doc_id then m else Dict.set m doc_id 0.

(** [self.word_counts[c] += 1]. *)
Definition bump (wc : Dict.t cid Z) (c : cid) : Dict.t cid Z :=
  Dict.set wc c (count_of wc c + 1).

(** The frequency table after indexing the tokens [ws]. *)
Definition counted (wc : Dict.t cid Z) (ws : list string) : Dict.t cid Z :=
  fold_left bump (map Word ws) wc.

(** The state of the index after a run of tokens: only the index, its
    heap and the frequency table change, the index and the table have the
    same keys in the same order. *)
Definition indexed (s0 : state) (ws : list string) (s : state) : Prop :=
  exists h i,
    s = set_word_counts (counted (word_counts s0) ws) (set_index i (set_heap h s0))
    /\ index_valid s
    /\ Dict.keys i = Dict.keys (counted (word_counts s0) ws).

Definition occurrences (w : string) (ws : list string) : Z :=
  Z.of_nat (count_occ string_dec ws w).

(** The invariant of the loop that prunes the index: only the index and
    the frequency table change, and the words kept keep their entries. *)
Definition prune_inv (kept : list cid) (s0 s : state) : Prop :=
  (exists i wc, s = set_word_counts wc (set_index i s0))
  /\ forall c, In c kept ->
       Dict.get (word_counts s) c = Dict.get (word_counts s0) c
       /\ Dict.get (index s) c = Dict.get (index s0) c.

(** The number of distinct words of a corpus. *)
Definition distinct_words (docs : list (list string)) : nat :=
  List.length (nodup string_dec (List.concat docs)).

(** The frequencies of the scenario: a and b five times, c three times. *)
Definition tie_frequencies (w : string) : Z :=
  if String.eqb w "a" then 5
  else if String.eqb w "b" then 5
  else if String.eqb w "c" then 3
  else 0.

(** A corpus with these frequencies. *)
Definition tie_corpus : list (list string) :=
  [["a"; "b"; "a"; "c"]; ["b"; "a"; "b"; "c"; "a"]; ["c"; "b"; "a"; "b"]]%string.

(** [m] relates the state it starts in to the state it ends in. *)
Definition preserves {A} (R : state -> state -> Prop) (m : M A) : Prop :=
  forall s a s', m s = Ok (a, s') -> R s s'.

(** The states agree on a view [f] (a field, or a function of fields). *)
Definition same_on {X} (f : state -> X) (s s' : state) : Prop := f s' = f s.

(** The frequencies are the same for every id (a key that only the default
    of [word_counts] has added counts 0 before and after). *)
Definition same_counts (s s' : state) : Prop :=
  forall c, count_of (word_counts s') c = count_of (word_counts s) c.

(** The fields that scoring never writes. *)
Definition outside_scoring (s : state) :=
  (batch_size s, num_docs s, max_vocab_size s, cluster_parents s,
   cluster_counter s, words s, cluster_bits s, current_batch s,
   word_queue s, rng s, rng_pos s).

(** [find_best] only advances the random source. *)
Definition outside_rng_pos (s : state) :=
  (batch_size s, num_docs s, max_vocab_size s, cluster_parents s,
   cluster_counter s, heap s, index s, words s, word_counts s,
   cluster_bits s, current_batch s, current_batch_scores s, word_queue s,
   rng s).

(** [merge] leaves the batch, the queue, the scores, the counter and the
    word list alone. *)
Definition outside_merge (s : state) :=
  (batch_size s, num_docs s, max_vocab_size s, cluster_counter s, words s,
   current_batch s, current_batch_scores s, word_queue s, rng s).

(** [update_batch] leaves the hierarchy, the counter and the word list
    alone. *)
Definition outside_batch (s : state) :=
  (batch_size s, num_docs s, max_vocab_size s, cluster_parents s,
   cluster_counter s, words s, cluster_bits s, rng s, rng_pos s).

(** The count of a document in a map, 0 when absent. *)
Definition doc_count (m : docmap) (doc_id : nat) : Z :=
  match Dict.get m doc_id with Some n => n | None => 0 end.

(** One iteration of the loop of [merge] on the map of the new cluster. *)
Definition add_doc (m2 : docmap) (acc : docmap) (doc_id : nat) : docmap :=
  Dict.set (ensure acc doc_id) doc_id
    (doc_count (ensure acc doc_id) doc_id + doc_count m2 doc_id).

(** The frequency table after the defaulting read of [c]. *)
Definition wc_touch (wc : Dict.t cid Z) (c : cid) : Dict.t cid Z :=
  match Dict.get wc c with Some _ => wc | None => Dict.set wc c 0 end.

(** The bits given to the two children. *)
Definition child_bit (s : state) : Z := Z.b2z (rng s (rng_pos s)).

Definition after_hierarchy (c1 c2 c_new : cid) (s : state) : state :=
  set_cluster_bits
    (Dict.set (Dict.set (cluster_bits s) c1 (py_str (child_bit s)))
       c2 (py_str (1 - child_bit s)))
    (set_rng_pos (S (rng_pos s))
       (set_cluster_parents
          (Dict.set (Dict.set (cluster_parents s) c1 c_new) c2 c_new) s)).

(** The counts of two children, summed where a document is in both. *)
Definition sum_counts (o1 o2 : option Z) : option Z :=
  match o1, o2 with
  | Some a, Some b => Some (a + b)
  | Some a, None => Some a
  | None, Some b => Some b
  | None, None => None
  end.

(** The frequency table after [merge_release]: the entry of a child is
    deleted unless the child is a word. *)
Definition release (ws : list cid) (wc : Dict.t cid Z) (c : cid) : Dict.t cid Z :=
  if cid_in c ws then wc else Dict.del wc c.

(** A live cluster: the index binds [c] to the dict object at [l], whose
    content is [m]. *)
Definition live (s : state) (c : cid) (l : nat) (m : docmap) : Prop :=
  Dict.get (index s) c = Some l
  /\ nth_error (heap s) l = Some m
  /\ NoDup (Dict.keys m).

(** The two bits are [0] and [1] in some order. *)
Definition complementary (b1 b2 : string) : Prop :=
  (b1 = "0" /\ b2 = "1")%string \/ (b1 = "1" /\ b2 = "0")%string.

(** The document-occurrence map of a cluster id. *)
Definition docs_of (s : state) (c : cid) : docmap :=
  match Dict.get (index s) c with
  | Some l => nth l (heap s) []
  | None => []
  end.

(** The documents present in both maps, and the co-occurrence count: the
    sum over these documents of the product of the two counts. *)
Definition shared_docs (m1 m2 : docmap) : list nat :=
  filter (Dict.mem m2) (Dict.keys m1).

Definition cooccurrence (m1 m2 : docmap) : Z :=
  fold_right Z.add 0
    (map (fun d => doc_count m1 d * doc_count m2 d) (shared_docs m1 m2)).

(** The score of the specification, as an extended real:
    [ln p - ln f1 - ln f2], minus infinity for [p = 0]. *)
Definition pmi (p f1 f2 : Z) : ext_real :=
  if p =? 0 then MinusInfinity
  else Finite (ln (IZR p) - ln (IZR f1) - ln (IZR f2))%R.

(** The float that [pair_value] returns on positive frequencies. *)
Definition score_of (p f1 f2 : Z) : score :=
  match p, f1, f2 with
  | Zpos a, Zpos b, Zpos c => LogRatio a b c
  | _, _, _ => NegInf
  end.

(** [scores[c1][c2]]. *)
Definition stored (t : Dict.t cid (Dict.t cid score)) (c1 c2 : cid)
  : option score :=
  match Dict.get t c1 with
  | Some row => Dict.get row c2
  | None => None
  end.

(** [scores[c1][c2] = v]. *)
Definition store (t : Dict.t cid (Dict.t cid score)) (c1 c2 : cid) (v : score)
  : Dict.t cid (Dict.t cid score) :=
  Dict.set t c1
    (Dict.set (match Dict.get t c1 with Some d => d | None => [] end) c2 v).

(** The claim that a pair with a missing id is refused. *)
Definition missing_cluster_detected : Prop :=
  forall s c1 c2,
    Dict.mem (index s) c1 = false \/ Dict.mem (index s) c2 = false ->
    exists e, make_pair_scores [(c1, c2)] s = Err e.

Definition ghost_state : state :=
  mkState 1000 1 None [] 0 [[(0%nat, 2)]] [(Word "cat", 0%nat)] [Word "cat"]
    [(Word "cat", 2)] [] [Word "cat"] [] [] (fun _ => false) 0.

(** A cluster id present in the index and in the frequency table, with the
    positive counts of the data model. *)
Definition scorable (s : state) (c : cid) : Prop :=
  Dict.mem (index s) c = true
  /\ (forall d n, Dict.get (docs_of s c) d = Some n -> 0 < n)
  /\ 0 < count_of (word_counts s) c.

(** The score table after [make_pair_scores] on scorable pairs. *)
Definition scored (s : state) (t : Dict.t cid (Dict.t cid score))
    (pairs : list (cid * cid)) : Dict.t cid (Dict.t cid score) :=
  fold_left (fun t '(c1, c2) =>
               store t c1 c2
                 (score_of (cooccurrence (docs_of s c1) (docs_of s c2))
                    (count_of (word_counts s) c1) (count_of (word_counts s) c2)))
    pairs t.

(** The table after [purge_scores c]. *)
Definition purged (t : Dict.t cid (Dict.t cid score)) (c : cid)
  : Dict.t cid (Dict.t cid score) :=
  map (fun '(k, d) => (k, Dict.del d c)) (if Dict.mem t c then Dict.del t c else t).

(** The ids that a merge round adds to the batch and the batch it adds
    them to. *)
Definition new_items (s : state) : list cid :=
  Merged (cluster_counter s) :: firstn 1 (word_queue s).

Definition kept_batch (c1 c2 : cid) (s : state) : list cid :=
  filter (fun x => negb (cid_eqb x c1 || cid_eqb x c2)) (current_batch s).

(** The states that [__init__] goes through: the state before the [while]
    loop, and the state after each iteration. *)
Inductive reachable {ML : MathLog} (docs : list (list string)) (bs : Z)
    (cap : option Z) (r : nat -> bool) : state -> Prop :=
| reach_setup s :
    setup docs (new_state bs cap r) = Ok (tt, s) ->
    reachable docs bs cap r s
| reach_round s s' :
    reachable docs bs cap r s ->
    (1 < List.length (current_batch s))%nat ->
    merge_round s = Ok (tt, s') ->
    reachable docs bs cap r s'.

(** The batch and the backlog hold distinct ids older than the counter;
    the score table holds pairs of distinct ids of the batch. *)
Record batch_wf (s : state) : Prop := {
  bw_nodup : NoDup (current_batch s ++ word_queue s);
  bw_fresh : forall k, In (Merged k) (current_batch s ++ word_queue s) ->
                       (k < cluster_counter s)%nat;
  bw_scores : forall a b v,
      In (a, b, v) (score_entries (current_batch_scores s)) ->
      In a (current_batch s) /\ In b (current_batch s) /\ a <> b
}.

(** A parent is a merged id below the counter and above its child, and a
    child has a bit of one character. *)
Definition hier_wf (s : state) : Prop :=
  forall c p, Dict.get (cluster_parents s) c = Some p ->
    exists k, p = Merged k /\ (k < cluster_counter s)%nat
              /\ (forall j, c = Merged j -> (j < k)%nat)
              /\ exists b, Dict.get (cluster_bits s) c = Some b
                           /\ String.length b = 1%nat.

(** The words are tokens with their number of occurrences in the corpus. *)
Definition counts_wf (docs : list (list string)) (s : state) : Prop :=
  forall c, In c (words s) ->
    exists w, c = Word w
              /\ count_of (word_counts s) c = occurrences w (List.concat docs).

(** [hops s c n]: the path from [c] to its root has [n] merges. *)
Inductive hops (s : state) : cid -> nat -> Prop :=
| hops_root c :
    Dict.get (cluster_parents s) c = None -> hops s c 0
| hops_step c p n :
    Dict.get (cluster_parents s) c = Some p -> hops s p n -> hops s c (S n).

(** The rank of an id in the order of creation: words first. *)
Definition rank (c : cid) : nat :=
  match c with Word _ => 0 | Merged j => S j end.

(** The frequency of a word in the corpus. *)
Definition frequency (docs : list (list string)) (c : cid) : Z :=
  match c with
  | Word w => occurrences w (List.concat docs)
  | Merged _ => 0
  end.

Definition pair_eqb (p q : cid * cid) : bool :=
  cid_eqb (fst p) (fst q) && cid_eqb (snd p) (snd q).

(** The state with the random source set to deliver [bits] (and then
    zeros) from its first bit on. *)
Definition seeded (bits : list bool) (s : state) : state :=
  mkState (batch_size s) (num_docs s) (max_vocab_size s) (cluster_parents s)
    (cluster_counter s) (heap s) (index s) (words s) (word_counts s)
    (cluster_bits s) (current_batch s) (current_batch_scores s)
    (word_queue s) (fun i => nth i bits false) 0.

(** All sequences of [n] bits; each is as likely as any other for a fair
    random source. *)
Fixpoint all_bits (n : nat) : list (list bool) :=
  match n with
  | O => [[]]
  | S n' => map (cons true) (all_bits n') ++ map (cons false) (all_bits n')
  end.

(** Whether [find_best] returns the pair [p]. *)
Definition finds {ML : MathLog} (p : cid * cid) (s : state) : bool :=
  match find_best s with
  | Ok (Some q, _) => pair_eqb q p
  | _ => false
  end.

(** The number of sequences of [n] bits on which [find_best] returns [p]. *)
Definition chosen {ML : MathLog} (n : nat) (s : state) (p : cid * cid) : nat :=
  List.length (filter (fun bits => finds p (seeded bits s)) (all_bits n)).

(** An entry whose score no entry exceeds. *)
Definition is_max {ML : MathLog} (es : list (cid * cid * score))
    (e : cid * cid * score) : bool :=
  forallb (fun e' => negb (score_gtb (snd e') (snd e))) es.

(** The maximal entries in the order of iteration. *)
Definition maxima {ML : MathLog} (es : list (cid * cid * score))
  : list (cid * cid * score) := filter (is_max es) es.

Definition key_of (e : cid * cid * score) : cid * cid := fst e.

(** The claim of a uniform choice: for the [math.log] of the program,
    whichever function it is, and with enough random bits for every entry,
    any two maximal pairs are returned equally often. *)
Definition uniform_tie_break : Prop :=
  exists ML : MathLog, forall s n e1 e2,
    (List.length (score_entries (current_batch_scores s)) <= n)%nat ->
    In e1 (maxima (score_entries (current_batch_scores s))) ->
    In e2 (maxima (score_entries (current_batch_scores s))) ->
    chosen n s (key_of e1) = chosen n s (key_of e2).

(** [find_best]'s loop, reading its random bits from a list. *)
Fixpoint pick {ML : MathLog} (best : option (cid * cid * score))
    (es : list (cid * cid * score)) (bits : list bool)
  : option (cid * cid * score) :=
  match es with
  | [] => best
  | e :: es' =>
      match best with
      | None => pick (Some e) es' bits
      | Some b =>
          if score_gtb (snd e) (snd b) then pick (Some e) es' bits
          else if score_eqb (snd e) (snd b) then
            pick (if hd false bits then Some e else best) es' (tl bits)
          else pick best es' bits
      end
  end.

(** Whether the result of the loop is the pair [p]. *)
Definition hit (p : cid * cid) (o : option (cid * cid * score)) : bool :=
  match o with
  | Some e => pair_eqb (key_of e) p
  | None => false
  end.

Definition cnt {ML : MathLog} (best : option (cid * cid * score))
    (es : list (cid * cid * score)) (n : nat) (p : cid * cid) : nat :=
  List.length (filter (fun bits => hit p (pick best es bits)) (all_bits n)).

(** A zero or a finite number. *)
Definition finite_float (x : spec_float) : Prop :=
  match x with
  | S754_zero _ | S754_finite _ _ _ => True
  | _ => False
  end.

(** An entry whose score is not a NaN. *)
Definition sound_entry {ML : MathLog} (e : cid * cid * score) : Prop :=
  score_float (snd e) <> S754_nan.

(** No score of the table is a NaN ([math.log] of a positive integer is a
    finite double, and a double minus a finite double is a NaN only if the
    double is). *)
Definition no_nan {ML : MathLog} (t : Dict.t cid (Dict.t cid score)) : Prop :=
  forall e, In e (score_entries t) -> sound_entry e.

(** The order of the doubles other than NaN, as SFcompare decides it:
    the negative infinity, the negative numbers, the zeros, the positive
    numbers, the positive infinity. *)
Definition float_key (x : spec_float) : Z * Z * Z :=
  match x with
  | S754_nan => (0, 0, 0)
  | S754_zero _ => (0, 0, 0)
  | S754_infinity true => (-2, 0, 0)
  | S754_infinity false => (2, 0, 0)
  | S754_finite true m e => (-1, - e, Zneg m)
  | S754_finite false m e => (1, e, Zpos m)
  end.

Definition key_lt (a b : Z * Z * Z) : Prop :=
  fst (fst a) < fst (fst b)
  \/ (fst (fst a) = fst (fst b)
      /\ (snd (fst a) < snd (fst b)
          \/ (snd (fst a) = snd (fst b) /\ snd a < snd b))).

(** The key of the score of an entry. *)
Definition entry_key {ML : MathLog} (e : cid * cid * score) : Z * Z * Z :=
  float_key (score_float (snd e)).

(** The number of halvings of the probability of the pair [p]: among [k]
    maximal entries in the order of iteration the first has [k - 1], the
    [j]-th (from the second on) has [k - j + 1]; a pair that is not
    maximal has none, it is never returned. *)
Fixpoint halvings_tail (ms : list (cid * cid * score)) (p : cid * cid) : option nat :=
  match ms with
  | [] => None
  | m :: ms' =>
      if pair_eqb (key_of m) p then Some (S (List.length ms'))
      else halvings_tail ms' p
  end.

Definition halvings (ms : list (cid * cid * score)) (p : cid * cid) : option nat :=
  match ms with
  | [] => None
  | m :: ms' =>
      if pair_eqb (key_of m) p then Some (List.length ms')
      else halvings_tail ms' p
  end.

(** The keys of a score table are unique, as those of any dict. *)
Definition table_wf (t : Dict.t cid (Dict.t cid score)) : Prop :=
  NoDup (Dict.keys t) /\ forall k row, In (k, row) t -> NoDup (Dict.keys row).

(** The keys of the score table stay unique. *)
Definition keeps_table_wf (s s' : state) : Prop :=
  table_wf (current_batch_scores s) -> table_wf (current_batch_scores s').

(** ** The invariants of a run *)

(** The counts of a document map are positive. *)
Definition positive_counts (m : docmap) : Prop :=
  forall d n, Dict.get m d = Some n -> 0 < n.

(** The index is well formed: its references are valid, two ids never
    share a dict object, and every object has unique keys and positive
    counts. *)
Record index_wf (s : state) : Prop := {
  iw_valid : index_valid s;
  iw_inj : forall c c' l,
      Dict.get (index s) c = Some l -> Dict.get (index s) c' = Some l -> c = c';
  iw_maps : forall c l,
      Dict.get (index s) c = Some l ->
      NoDup (Dict.keys (nth l (heap s) []))
      /\ positive_counts (nth l (heap s) [])
}.

(** The index only loses bindings and the heap stays as it is. *)
Definition sub_index (s s' : state) : Prop :=
  heap s' = heap s
  /\ forall c l, Dict.get (index s') c = Some l -> Dict.get (index s) c = Some l.

(** The state after [merge c1 c2], the children being bound to the
    objects [l1] and [l2]. *)
Definition merged (c1 c2 : cid) (l1 l2 : nat) (s : state) : state :=
  let c_new := Merged (cluster_counter s) in
  set_word_counts
    (release (words s)
       (release (words s)
          (Dict.set (wc_touch (wc_touch (word_counts s) c1) c2) c_new
             (count_of (word_counts s) c1 + count_of (word_counts s) c2)) c1) c2)
    (set_index (Dict.del (Dict.del (Dict.set (index s) c_new l1) c1) c2)
       (set_heap
          (list_update (heap s) l1
             (fold_left (add_doc (nth l2 (heap s) []))
                (Dict.keys (nth l2 (heap s) [])) (nth l1 (heap s) [])))
          (after_hierarchy c1 c2 c_new s))).

(** The members of the batch and of the backlog are in the index and have
    a positive frequency. *)
Definition members_live (s : state) : Prop :=
  forall c, In c (current_batch s ++ word_queue s) ->
    Dict.mem (index s) c = true /\ 0 < count_of (word_counts s) c.

(** Every two members of the batch have a score, in one order or the
    other. *)
Definition scores_complete (s : state) : Prop :=
  forall a b, In a (current_batch s) -> In b (current_batch s) -> a <> b ->
    stored (current_batch_scores s) a b <> None
    \/ stored (current_batch_scores s) b a <> None.

(** ** The scenario of the specification

    The corpus "dog cat", "cat bird", "dog bird" with batch size 10, no cap
    and a random source of zeros: the state before the loop, after the
    first round and at the end. *)

(** The doubles of [math.log] on the integers that the scenarios take the
    logarithm of: [log(1) = 0.0], [log(2) = 0x1.62e42fefa39efp-1],
    [log(3) = 0x1.193ea7aad030bp+0], [log(4) = 0x1.62e42fefa39efp+0] and
    [log(6) = 0x1.cab0bfa2a2002p+0]. *)
Definition scenario_log : MathLog :=
  {| math_log p :=
       match p with
       | 2%positive => S754_finite false 6243314768165359 (-53)
       | 3%positive => S754_finite false 4947709893870347 (-52)
       | 4%positive => S754_finite false 6243314768165359 (-52)
       | 6%positive => S754_finite false 8069367277953026 (-52)
       | _ => S754_zero false
       end |}.

Definition scenario_docs : list (list string) :=
  [["dog"; "cat"]; ["cat"; "bird"]; ["dog"; "bird"]]%string.

Definition scenario_start : state :=
  Eval vm_compute in
    match setup scenario_docs (new_state 10 None (fun _ => false)) with
    | Ok (_, s) => s
    | Err _ => new_state 10 None (fun _ => false)
    end.
Definition scenario_round : state :=
  Eval vm_compute in
    match merge_round (ML := scenario_log) scenario_start with
    | Ok (_, s) => s
    | Err _ => scenario_start
    end.
Definition scenario_final : state :=
  Eval vm_compute in
    match init (ML := scenario_log) 5 scenario_docs 10 None (fun _ => false) with
    | Some (Ok s) => s
    | _ => scenario_start
    end.

(** A corpus with two scores that are equal as real numbers and differ as
    doubles: for "c" and "d", [log(6) - log(3) - log(2)] is [-0x1p-53];
    for "a" and "b", [log(1) - log(1) - log(1)] is [0.0]. *)
Definition rounding_docs : list (list string) :=
  [["a"; "b"]; ["c"; "c"; "d"; "d"; "d"]]%string.

Definition rounding_start : state :=
  Eval vm_compute in
    match setup rounding_docs (new_state 10 None (fun _ => false)) with
    | Ok (_, s) => s
    | Err _ => new_state 10 None (fun _ => false)
    end.

(** A boolean test of [scorable]. *)
Definition scorableb (s : state) (c : cid) : bool :=
  Dict.mem (index s) c
  && forallb (fun kv => 0 <? snd kv) (docs_of s c)
  && (0 <? count_of (word_counts s) c).

(** * Properties *)

(** ** Keys and dictionaries *)

Lemma cid_eqb_spec (a b : cid) : reflect (a = b) (cid_eqb a b).
Proof.
  destruct a as [x|x], b as [y|y]; simpl; try (constructor; discriminate).
  - destruct (String.eqb_spec x y); constructor; congruence.
  - destruct (Nat.eqb_spec x y); constructor; congruence.
Qed.


(** The equality test of a key type decides equality. *)
Class PyKeyLaws (K : Type) {H : PyKey K} : Prop := {
  key_eqb_eq : forall x y : K, key_eqb x y = true <-> x = y
}.

#[export] Instance cid_key_laws : PyKeyLaws cid.
Proof.
  constructor. intros x y. simpl.
  destruct (cid_eqb_spec x y); split; congruence.
Qed.

#[export] Instance nat_key_laws : PyKeyLaws nat.
Proof. constructor. intros x y. apply Nat.eqb_eq. Qed.

Lemma key_eqb_spec {K} {H : PyKey K} {HL : PyKeyLaws K} (x y : K) :
  reflect (x = y) (key_eqb x y).
Proof. apply iff_reflect. symmetry. apply key_eqb_eq. Qed.

Lemma key_eqb_refl {K} {H : PyKey K} {HL : PyKeyLaws K} (k : K) :
  key_eqb k k = true.
Proof. destruct (key_eqb_spec k k); congruence. Qed.

Lemma key_eqb_neq {K} {H : PyKey K} {HL : PyKeyLaws K} (k k' : K) :
  k <> k' -> key_eqb k k' = false.
Proof. destruct (key_eqb_spec k k'); congruence. Qed.

Module DictFacts.
Import Dict.
Section Facts.
Context {K V : Type} {H : PyKey K} {HL : PyKeyLaws K}.
Implicit Types (d : Dict.t K V) (k : K) (v : V).

Lemma get_set_eq d k v : get (set d k v) k = Some v.
Proof.
  induction d as [|[k' v'] d IH]; simpl.
  - now rewrite key_eqb_refl.
  - destruct (key_eqb k' k) eqn:E; simpl; rewrite E; auto.
Qed.

Lemma get_set_ne d k v k' : k <> k' -> get (set d k v) k' = get d k'.
Proof.
  intros Hne. induction d as [|[k0 v0] d IH]; simpl.
  - now rewrite key_eqb_neq.
  - destruct (key_eqb_spec k0 k) as [->|Hk]; simpl.
    + now rewrite key_eqb_neq.
    + destruct (key_eqb k0 k'); auto.
Qed.

Lemma get_del_eq d k : get (del d k) k = None.
Proof.
  induction d as [|[k0 v0] d IH]; simpl; auto.
  destruct (key_eqb k0 k) eqn:E; simpl; auto. now rewrite E.
Qed.

Lemma get_del_ne d k k' : k <> k' -> get (del d k) k' = get d k'.
Proof.
  intros Hne. induction d as [|[k0 v0] d IH]; simpl; auto.
  destruct (key_eqb_spec k0 k) as [->|Hk]; simpl.
  - now rewrite key_eqb_neq.
  - destruct (key_eqb k0 k'); auto.
Qed.

Lemma get_some_in d k v : get d k = Some v -> In (k, v) d.
Proof.
  induction d as [|[k0 v0] d IH]; simpl; [discriminate|].
  destruct (key_eqb_spec k0 k) as [->|Hk]; intros E.
  - injection E as ->. now left.
  - right; auto.
Qed.

Lemma in_keys_get d k : In k (keys d) <-> get d k <> None.
Proof.
  induction d as [|[k0 v0] d IH]; simpl.
  - split; [tauto | congruence].
  - destruct (key_eqb_spec k0 k) as [->|Hk].
    + split; [discriminate | auto].
    + rewrite <- IH. split; [intros [?|?]; congruence || auto | auto].
Qed.

Lemma mem_in_keys d k : mem d k = true <-> In k (keys d).
Proof.
  unfold mem. rewrite in_keys_get.
  destruct (get d k); split; congruence.
Qed.

Lemma mem_false_not_in d k : mem d k = false <-> ~ In k (keys d).
Proof.
  rewrite <- mem_in_keys. destruct (mem d k); split; congruence.
Qed.

Lemma keys_set d k v :
  keys (set d k v) = if mem d k then keys d else keys d ++ [k].
Proof.
  unfold mem. induction d as [|[k0 v0] d IH]; simpl; auto.
  destruct (key_eqb k0 k) eqn:E; simpl; auto.
  rewrite IH. destruct (get d k); auto.
Qed.

Lemma keys_del d k : keys (del d k) = filter (fun x => negb (key_eqb x k)) (keys d).
Proof.
  induction d as [|[k0 v0] d IH]; simpl; auto.
  destruct (key_eqb k0 k); simpl; now rewrite IH.
Qed.

Lemma in_keys_set d k v k' : In k' (keys (set d k v)) <-> k' = k \/ In k' (keys d).
Proof.
  rewrite keys_set. destruct (mem d k) eqn:E.
  - apply mem_in_keys in E. split; [auto | intros [->|?]; auto].
  - rewrite in_app_iff. simpl. split; [intros [?|[?|[]]]; auto | intros [?|?]; auto].
Qed.

Lemma in_keys_del d k k' : In k' (keys (del d k)) <-> k' <> k /\ In k' (keys d).
Proof.
  rewrite keys_del, filter_In.
  destruct (key_eqb_spec k' k); simpl; intuition congruence.
Qed.

Lemma nodup_keys_set d k v : NoDup (keys d) -> NoDup (keys (set d k v)).
Proof.
  intros Hnd. rewrite keys_set. destruct (mem d k) eqn:E; auto.
  apply mem_false_not_in in E.
  apply NoDup_app; auto.
  - constructor; [tauto | constructor].
  - intros x Hx [<-|[]]. contradiction.
Qed.

Lemma nodup_keys_del d k : NoDup (keys d) -> NoDup (keys (del d k)).
Proof. intros Hnd. rewrite keys_del. now apply NoDup_filter. Qed.
End Facts.
End DictFacts.

(** ** Lists, dictionaries and the state *)

Lemma length_list_update {A} (l : list A) i x :
  List.length (list_update l i x) = List.length l.
Proof. revert i; induction l; intros [|i]; simpl; auto. Qed.

Lemma nth_list_update_eq {A} (l : list A) i x d :
  (i < List.length l)%nat -> nth i (list_update l i x) d = x.
Proof.
  revert i; induction l; intros [|i]; simpl; intros; auto; try lia.
  apply IHl; lia.
Qed.

Lemma nth_list_update_ne {A} (l : list A) i j x d :
  i <> j -> nth j (list_update l i x) d = nth j l d.
Proof.
  revert i j; induction l; intros [|i] [|j]; simpl; intros; auto; try lia.
Qed.

Lemma list_update_same {A} (l : list A) i d :
  list_update l i (nth i l d) = l.
Proof.
  revert i; induction l; intros [|i]; simpl; auto. now rewrite IHl.
Qed.

Lemma list_update_update {A} (l : list A) i x y :
  list_update (list_update l i x) i y = list_update l i y.
Proof.
  revert i; induction l; intros [|i]; simpl; auto. now rewrite IHl.
Qed.

Lemma mem_get_some {K V} {H : PyKey K} {HL : PyKeyLaws K} (d : Dict.t K V) k :
  Dict.mem d k = true -> exists v, Dict.get d k = Some v.
Proof. unfold Dict.mem. destruct (Dict.get d k); [eauto | discriminate]. Qed.

Lemma get_some_mem {K V} {H : PyKey K} {HL : PyKeyLaws K} (d : Dict.t K V) k v :
  Dict.get d k = Some v -> Dict.mem d k = true.
Proof. unfold Dict.mem. now intros ->. Qed.

Lemma get_none_mem {K V} {H : PyKey K} {HL : PyKeyLaws K} (d : Dict.t K V) k :
  Dict.get d k = None -> Dict.mem d k = false.
Proof. unfold Dict.mem. now intros ->. Qed.

Lemma dict_set_set {K V} {H : PyKey K} {HL : PyKeyLaws K} (d : Dict.t K V) k v v' :
  Dict.set (Dict.set d k v) k v' = Dict.set d k v'.
Proof.
  induction d as [|[k0 v0] d IH]; simpl.
  - now rewrite key_eqb_refl.
  - destruct (key_eqb k0 k) eqn:E; simpl; rewrite E; auto. now rewrite IH.
Qed.

Lemma cid_in_iff c l : cid_in c l = true <-> In c l.
Proof.
  unfold cid_in. rewrite existsb_exists. split.
  - intros [x [Hx E]]. destruct (cid_eqb_spec c x); congruence.
  - intros Hc. exists c. split; auto. destruct (cid_eqb_spec c c); congruence.
Qed.

Lemma cid_in_false c l : cid_in c l = false <-> ~ In c l.
Proof. rewrite <- cid_in_iff. destruct (cid_in c l); split; congruence. Qed.

(** The setters that leave a state as it is. *)
Lemma set_heap_same s : set_heap (heap s) s = s.
Proof. now destruct s. Qed.

Lemma set_index_same s : set_index (index s) s = s.
Proof. now destruct s. Qed.

Lemma set_word_counts_same s : set_word_counts (word_counts s) s = s.
Proof. now destruct s. Qed.

(** Reduction of the projections of an updated state. *)
Ltac proj :=
  cbn [batch_size num_docs max_vocab_size cluster_parents cluster_counter heap
       index words word_counts cluster_bits current_batch current_batch_scores
       word_queue rng rng_pos set_num_docs set_cluster_parents
       set_cluster_counter set_heap set_index set_words set_word_counts
       set_cluster_bits set_current_batch set_current_batch_scores
       set_word_queue set_rng_pos] in *.

(** ** The monad *)

Lemma bind_ok {A B} (m : M A) (f : A -> M B) s a s1 :
  m s = Ok (a, s1) -> bind m f s = f a s1.
Proof. unfold bind. now intros ->. Qed.

Lemma bind_err {A B} (m : M A) (f : A -> M B) s e :
  m s = Err e -> bind m f s = Err e.
Proof. unfold bind. now intros ->. Qed.

Lemma bind_inv {A B} (m : M A) (f : A -> M B) s b s' :
  bind m f s = Ok (b, s') ->
  exists a s1, m s = Ok (a, s1) /\ f a s1 = Ok (b, s').
Proof.
  unfold bind. destruct (m s) as [[a s1]|e]; [eauto | discriminate].
Qed.

Lemma for_each_app {A} (l1 l2 : list A) (body : A -> M unit) s :
  for_each (l1 ++ l2) body s = (for_each l1 body ;; for_each l2 body) s.
Proof.
  revert s; induction l1 as [|x l1 IH]; intros s; simpl.
  - reflexivity.
  - unfold bind in *. destruct (body x s) as [[[] s1]|e]; auto.
Qed.

(** A loop whose body keeps an invariant and never fails, keeps it and
    does not fail. *)
Lemma for_each_inv {A} (I : state -> Prop) (l : list A) (body : A -> M unit) :
  (forall x s, In x l -> I s -> exists s', body x s = Ok (tt, s') /\ I s') ->
  forall s, I s -> exists s', for_each l body s = Ok (tt, s') /\ I s'.
Proof.
  induction l as [|x l IH]; intros Hb s Hs; simpl.
  - exists s. split; auto.
  - destruct (Hb x s (or_introl eq_refl) Hs) as [s1 [E1 H1]].
    rewrite (bind_ok _ _ _ _ _ E1).
    apply IH; auto. intros y s0 Hy. apply Hb. now right.
Qed.

(** The same for a loop that may fail: the invariant holds when it ends. *)
Lemma for_each_preserves {A} (I : state -> Prop) (l : list A)
    (body : A -> M unit) :
  (forall x s s', In x l -> I s -> body x s = Ok (tt, s') -> I s') ->
  forall s s', I s -> for_each l body s = Ok (tt, s') -> I s'.
Proof.
  induction l as [|x l IH]; intros Hb s s' Hs; simpl.
  - unfold ret. intros E; injection E as <-. auto.
  - intros E. apply bind_inv in E as [[] [s1 [E1 E2]]].
    eapply IH; [| |exact E2].
    + intros y s0 s0' Hy. apply Hb. now right.
    + eapply Hb; eauto. now left.
Qed.

(** ** The index and its heap *)

Lemma index_getitem_eq c s : index_getitem c s = Ok (loc_of c s, touch c s).
Proof.
  unfold index_getitem, loc_of, touch. now destruct (Dict.get (index s) c).
Qed.

Lemma index_getitem_present c s l :
  Dict.get (index s) c = Some l -> index_getitem c s = Ok (l, s).
Proof. unfold index_getitem. now intros ->. Qed.

Lemma touch_present c s :
  Dict.get (index (touch c s)) c = Some (loc_of c s).
Proof.
  unfold touch, loc_of. destruct (Dict.get (index s) c) eqn:E; proj; auto.
  apply DictFacts.get_set_eq.
Qed.

Lemma touch_valid c s : index_valid s -> index_valid (touch c s).
Proof.
  intros Hv. unfold touch. destruct (Dict.get (index s) c) eqn:E; auto.
  intros c' l. proj. rewrite length_app. simpl.
  destruct (cid_eqb_spec c c') as [->|Hne].
  - rewrite DictFacts.get_set_eq. intros [= <-]. lia.
  - rewrite DictFacts.get_set_ne by auto. intros H. apply Hv in H. lia.
Qed.

Lemma touch_keys c s :
  Dict.keys (index (touch c s)) =
  if Dict.mem (index s) c then Dict.keys (index s)
  else Dict.keys (index s) ++ [c].
Proof.
  unfold touch, Dict.mem. destruct (Dict.get (index s) c) eqn:E; proj; auto.
  rewrite DictFacts.keys_set. now rewrite (get_none_mem _ _ E).
Qed.

Lemma ensure_doc_present c doc_id s l :
  Dict.get (index s) c = Some l ->
  ensure_doc c doc_id s =
  Ok (tt, set_heap (list_update (heap s) l (ensure (nth l (heap s) []) doc_id)) s).
Proof.
  intros E. unfold ensure_doc.
  rewrite (bind_ok _ _ _ _ _ (index_getitem_present _ _ _ E)).
  unfold heap_load, gets, bind, ensure.
  destruct (Dict.mem (nth l (heap s) []) doc_id).
  - unfold ret. now rewrite list_update_same, set_heap_same.
  - rewrite (index_getitem_present _ _ _ E). reflexivity.
Qed.

Lemma index_iadd_present c doc_id rhs s l n v :
  Dict.get (index s) c = Some l ->
  Dict.get (nth l (heap s) []) doc_id = Some n ->
  rhs s = Ok (v, s) ->
  index_iadd c doc_id rhs s =
  Ok (tt, set_heap (list_update (heap s) l
                      (Dict.set (nth l (heap s) []) doc_id (n + v))) s).
Proof.
  intros E En Er. unfold index_iadd.
  rewrite (bind_ok _ _ _ _ _ (index_getitem_present _ _ _ E)).
  unfold heap_load, gets, bind, getitem. rewrite En. unfold ret.
  rewrite Er. reflexivity.
Qed.

Lemma ensure_has m doc_id : Dict.mem (ensure m doc_id) doc_id = true.
Proof.
  unfold ensure. destruct (Dict.mem m doc_id) eqn:E; auto.
  unfold Dict.mem. now rewrite DictFacts.get_set_eq.
Qed.

Lemma word_counts_incr_eq c s :
  word_counts_incr c s = Ok (tt, set_word_counts (bump (word_counts s) c) s).
Proof.
  unfold word_counts_incr, bind, word_counts_getitem, word_counts_setitem,
    modify, bump, count_of.
  destruct (Dict.get (word_counts s) c); proj; auto.
  now rewrite dict_set_set.
Qed.

Lemma touch_idem c s : touch c (touch c s) = touch c s.
Proof. unfold touch at 1. now rewrite touch_present. Qed.

Lemma loc_of_touch c s : loc_of c (touch c s) = loc_of c s.
Proof. unfold loc_of at 1. now rewrite touch_present. Qed.

Lemma index_token_touch doc_id w s :
  index_token doc_id w s = index_token doc_id w (touch (Word w) s).
Proof.
  unfold index_token, ensure_doc, bind.
  rewrite !index_getitem_eq, touch_idem, loc_of_touch. reflexivity.
Qed.

Lemma index_token_present doc_id w s l :
  Dict.get (index s) (Word w) = Some l ->
  (l < List.length (heap s))%nat ->
  exists h,
    index_token doc_id w s =
    Ok (tt, set_word_counts (bump (word_counts s) (Word w)) (set_heap h s))
    /\ List.length h = List.length (heap s).
Proof.
  intros E Hl. unfold index_token.
  rewrite (bind_ok _ _ _ _ _ (ensure_doc_present _ doc_id _ _ E)).
  set (s1 := set_heap _ s).
  assert (E1 : Dict.get (index s1) (Word w) = Some l) by exact E.
  destruct (mem_get_some (nth l (heap s1) []) doc_id) as [n Hn].
  { subst s1. proj. rewrite nth_list_update_eq by auto. apply ensure_has. }
  rewrite (bind_ok _ _ _ _ _
             (index_iadd_present _ doc_id (ret 1) _ _ n 1 E1 Hn eq_refl)).
  rewrite word_counts_incr_eq. subst s1. proj.
  eexists. split; [reflexivity|]. now rewrite !length_list_update.
Qed.

(** One token: the index gets the word if it is new; nothing but the index,
    its heap and the frequency table changes. *)
Lemma index_token_spec doc_id w s :
  index_valid s ->
  exists h,
    index_token doc_id w s =
    Ok (tt, set_word_counts (bump (word_counts s) (Word w))
              (set_heap h (touch (Word w) s)))
    /\ List.length h = List.length (heap (touch (Word w) s)).
Proof.
  intros Hv. rewrite index_token_touch.
  pose proof (touch_present (Word w) s) as E.
  destruct (index_token_present doc_id w _ _ E) as [h [Eh Hlen]].
  { eapply touch_valid; eauto. }
  exists h. split; auto. rewrite Eh. f_equal. f_equal. f_equal.
  unfold touch. destruct (Dict.get (index s) (Word w)); reflexivity.
Qed.

(** ** [create_index] *)

Lemma mem_keys_eq {K V W} {H : PyKey K} {HL : PyKeyLaws K} (d : Dict.t K V) (d' : Dict.t K W) k :
  Dict.keys d = Dict.keys d' -> Dict.mem d k = Dict.mem d' k.
Proof.
  intros E. destruct (Dict.mem d' k) eqn:M.
  - apply DictFacts.mem_in_keys. rewrite E. now apply DictFacts.mem_in_keys.
  - apply DictFacts.mem_false_not_in. rewrite E. now apply DictFacts.mem_false_not_in.
Qed.

Lemma counted_app wc ws1 ws2 :
  counted wc (ws1 ++ ws2) = counted (counted wc ws1) ws2.
Proof. unfold counted. now rewrite map_app, fold_left_app. Qed.

Lemma indexed_start s0 :
  index_valid s0 -> Dict.keys (index s0) = Dict.keys (word_counts s0) ->
  indexed s0 [] s0.
Proof.
  intros Hv Hk. exists (heap s0), (index s0). split; [|split]; auto.
  now destruct s0.
Qed.

Lemma index_token_indexed s0 ws s doc_id w :
  indexed s0 ws s ->
  exists s', index_token doc_id w s = Ok (tt, s') /\ indexed s0 (ws ++ [w]) s'.
Proof.
  intros (h & i & -> & Hv & Hk).
  destruct (index_token_spec doc_id w _ Hv) as (h' & E & Hlen).
  eexists. split; [exact E|].
  set (s := set_word_counts _ _) in *.
  exists h', (index (touch (Word w) s)). split; [|split].
  - rewrite counted_app. unfold touch.
    destruct (Dict.get (index s) (Word w)); reflexivity.
  - intros c l. proj. intros Hc. rewrite Hlen.
    apply (touch_valid (Word w) s Hv c l Hc).
  - rewrite touch_keys, counted_app. cbn [counted map fold_left].
    unfold bump at 1. rewrite DictFacts.keys_set.
    rewrite (mem_keys_eq (index s) (counted (word_counts s0) ws)) by exact Hk.
    subst s; proj. now rewrite Hk.
Qed.

Lemma index_doc_indexed s0 ws s doc_id doc :
  indexed s0 ws s ->
  exists s', for_each doc (index_token doc_id) s = Ok (tt, s')
             /\ indexed s0 (ws ++ doc) s'.
Proof.
  revert ws s. induction doc as [|w doc IH]; intros ws s Hs; simpl.
  - exists s. rewrite app_nil_r. split; auto.
  - destruct (index_token_indexed _ _ _ doc_id w Hs) as (s1 & E1 & H1).
    rewrite (bind_ok _ _ _ _ _ E1).
    destruct (IH _ _ H1) as (s2 & E2 & H2).
    exists s2. split; auto. now rewrite <- app_assoc in H2.
Qed.

Lemma index_docs_indexed s0 ws s (edocs : list (nat * list string)) :
  indexed s0 ws s ->
  exists s',
    for_each edocs (fun '(doc_id, doc) => for_each doc (index_token doc_id)) s
    = Ok (tt, s')
    /\ indexed s0 (ws ++ List.concat (map snd edocs)) s'.
Proof.
  revert ws s. induction edocs as [|[d doc] edocs IH]; intros ws s Hs; simpl.
  - exists s. rewrite app_nil_r. split; auto.
  - destruct (index_doc_indexed _ _ _ d doc Hs) as (s1 & E1 & H1).
    rewrite (bind_ok _ _ _ _ _ E1).
    destruct (IH _ _ H1) as (s2 & E2 & H2).
    exists s2. split; auto. now rewrite <- app_assoc in H2.
Qed.

Lemma map_snd_enumerate {A} (l : list A) : map snd (enumerate l) = l.
Proof.
  unfold enumerate. generalize 0%nat.
  induction l as [|x l IH]; intros n; simpl; auto. now rewrite IH.
Qed.

(** [create_index] on a corpus with at least one document. *)
Lemma create_index_ok s0 docs :
  docs <> [] ->
  index_valid s0 -> Dict.keys (index s0) = Dict.keys (word_counts s0) ->
  exists s,
    create_index docs s0 =
    Ok (tt, set_num_docs (Z.of_nat (Nat.pred (List.length docs)) + 1) s)
    /\ indexed s0 (List.concat docs) s.
Proof.
  intros Hne Hv Hk. unfold create_index.
  destruct (index_docs_indexed s0 [] s0 (enumerate docs)
              (indexed_start _ Hv Hk)) as (s & E & Hs).
  rewrite (bind_ok _ _ _ _ _ E).
  rewrite map_snd_enumerate in Hs. simpl in Hs.
  exists s. split; auto.
  destruct docs; [congruence | reflexivity].
Qed.

(** The empty corpus: [doc_id] is never bound. *)
Lemma create_index_empty s0 : create_index [] s0 = Err UnboundLocalError.
Proof. reflexivity. Qed.

(** The table counts the occurrences of every token. *)
Lemma count_of_bump wc c c' :
  count_of (bump wc c) c' = (if cid_eqb c c' then count_of wc c' + 1 else count_of wc c').
Proof.
  unfold bump, count_of at 1.
  destruct (cid_eqb_spec c c') as [->|Hne].
  - now rewrite DictFacts.get_set_eq.
  - rewrite (DictFacts.get_set_ne (H := cid_key)) by auto. reflexivity.
Qed.

Lemma count_of_counted wc ws w :
  count_of (counted wc ws) (Word w) = count_of wc (Word w) + occurrences w ws.
Proof.
  unfold counted, occurrences. revert wc.
  induction ws as [|x ws IH]; intros wc; simpl; [lia|].
  rewrite IH, count_of_bump. simpl.
  destruct (string_dec x w) as [->|Hne].
  - rewrite String.eqb_refl. lia.
  - destruct (String.eqb_spec x w); [congruence | lia].
Qed.

Lemma count_of_counted_merged wc ws n :
  count_of (counted wc ws) (Merged n) = count_of wc (Merged n).
Proof.
  unfold counted. revert wc.
  induction ws as [|x ws IH]; intros wc; simpl; auto.
  now rewrite IH, count_of_bump.
Qed.

Lemma in_keys_bump wc c c' :
  In c' (Dict.keys (bump wc c)) <-> c' = c \/ In c' (Dict.keys wc).
Proof. unfold bump. apply DictFacts.in_keys_set. Qed.

Lemma in_keys_counted wc ws c :
  In c (Dict.keys (counted wc ws)) <->
  In c (Dict.keys wc) \/ exists w, c = Word w /\ In w ws.
Proof.
  unfold counted. revert wc.
  induction ws as [|x ws IH]; intros wc; simpl.
  - split; [auto | intros [?|(w & _ & [])]; auto].
  - rewrite IH, in_keys_bump. split.
    + intros [[->|?]|(w & -> & Hw)]; eauto.
    + intros [?|(w & -> & [->|Hw])]; eauto.
Qed.

Lemma nodup_keys_counted wc ws :
  NoDup (Dict.keys wc) -> NoDup (Dict.keys (counted wc ws)).
Proof.
  unfold counted. revert wc.
  induction ws as [|x ws IH]; intros wc Hnd; simpl; auto.
  apply IH. now apply DictFacts.nodup_keys_set.
Qed.

(** ** [create_vocab] *)

Lemma insert_desc_perm key x l : Permutation (insert_desc key x l) (x :: l).
Proof.
  induction l as [|y l IH]; simpl; auto.
  destruct (key y <=? key x); auto.
  rewrite IH. apply perm_swap.
Qed.

Lemma sorted_desc_perm key l : Permutation (sorted_desc key l) l.
Proof.
  induction l as [|x l IH]; simpl; auto.
  rewrite insert_desc_perm. now constructor.
Qed.

Lemma sorted_desc_length key l :
  List.length (sorted_desc key l) = List.length l.
Proof. apply Permutation_length, sorted_desc_perm. Qed.

Lemma word_counts_getitem_present c s :
  In c (Dict.keys (word_counts s)) ->
  word_counts_getitem c s = Ok (count_of (word_counts s) c, s).
Proof.
  intros Hc. apply DictFacts.in_keys_get in Hc.
  unfold word_counts_getitem, count_of.
  destruct (Dict.get (word_counts s) c); [reflexivity | congruence].
Qed.

Lemma list_getitem_in {A} (l : list A) i x s s' :
  list_getitem l i s = Ok (x, s') -> In x l /\ s' = s.
Proof.
  unfold list_getitem.
  destruct (_ || _); [discriminate|].
  destruct (nth_error l _) eqn:E; [|discriminate].
  unfold ret. intros [= -> ->]. split; auto. eapply nth_error_In; eauto.
Qed.

Lemma prune_key_inv kept s0 key s s' :
  prune_inv kept s0 s -> prune_key kept key s = Ok (tt, s') ->
  prune_inv kept s0 s'.
Proof.
  intros [(i & wc & ->) Hk]. unfold prune_key.
  destruct (cid_in key kept) eqn:E.
  - unfold ret. intros [= <-]. split; eauto.
  - apply cid_in_false in E. proj.
    unfold bind, index_delitem, word_counts_delitem. proj.
    destruct (Dict.mem i key); [|discriminate].
    proj. destruct (Dict.mem wc key); [|discriminate].
    intros [= <-]. split.
    + eexists _, _. reflexivity.
    + intros c Hc. proj.
      rewrite !(DictFacts.get_del_ne (H := cid_key))
        by (intros ->; contradiction).
      now apply Hk.
Qed.

(** What [create_vocab] leaves when it does not fail: the words are keys
    of the frequency table in some order, the kept words keep their
    frequency, and only [words], the index and the table change. *)
Lemma create_vocab_inv s s' :
  create_vocab s = Ok (tt, s') ->
  (exists i wc, s' = set_word_counts wc (set_index i (set_words (words s') s)))
  /\ (exists rare,
        words s' = filter rare (sorted_desc (count_of (word_counts s))
                                  (Dict.keys (word_counts s))))
  /\ forall c, In c (words s') ->
       Dict.get (word_counts s') c = Dict.get (word_counts s) c
       /\ Dict.get (index s') c = Dict.get (index s) c.
Proof.
  unfold create_vocab. unfold bind at 1, gets at 1.
  set (ws := sorted_desc _ _).
  unfold bind at 1, modify at 1. unfold bind at 1, gets at 1. proj.
  destruct (max_vocab_size s) as [n|].
  2:{ unfold ret. intros [= <-]. proj. split; [|split]; auto.
      - exists (index s), (word_counts s). now destruct s.
      - exists (fun _ => true). clear. induction ws; simpl; congruence. }
  destruct (n <? _).
  2:{ unfold ret. intros [= <-]. proj. split; [|split]; auto.
      - exists (index s), (word_counts s). now destruct s.
      - exists (fun _ => true). clear. induction ws; simpl; congruence. }
  intros E.
  apply bind_inv in E as (w & s1 & E1 & E).
  apply list_getitem_in in E1 as [Hw ->].
  assert (Hin : forall x, In x ws -> In x (Dict.keys (word_counts s))).
  { intros x Hx. eapply Permutation_in; [apply sorted_desc_perm | exact Hx]. }
  rewrite (bind_ok _ _ _ _ _ (word_counts_getitem_present w (set_words ws s) (Hin _ Hw))) in E.
  apply bind_inv in E as (w0 & s1 & E1 & E).
  apply list_getitem_in in E1 as [Hw0 ->].
  rewrite (bind_ok _ _ _ _ _ (word_counts_getitem_present w0 (set_words ws s) (Hin _ Hw0))) in E.
  proj. unfold bind at 1, gets at 1 in E. proj.
  set (too_rare := if _ =? _ then _ else _) in E.
  set (kept := filter _ ws) in E.
  unfold bind at 1, modify at 1 in E. unfold bind at 1, gets at 1 in E. proj.
  assert (P : prune_inv kept (set_words kept s) s').
  { eapply for_each_preserves; [| |exact E].
    - intros x t t' _. apply prune_key_inv.
    - split; [|auto]. exists (index s), (word_counts s). now destruct s. }
  destruct P as [(i & wc & ->) Hk]. proj.
  split; [|split]; eauto. eexists; reflexivity.
Qed.

Lemma new_state_indexable bs cap r :
  index_valid (new_state bs cap r)
  /\ Dict.keys (index (new_state bs cap r))
     = Dict.keys (word_counts (new_state bs cap r)).
Proof. split; [intros c l; discriminate | reflexivity]. Qed.

Lemma keys_counted_length ws :
  List.length (Dict.keys (counted [] ws)) = List.length (nodup string_dec ws).
Proof.
  rewrite <- (length_map Word (nodup string_dec ws)).
  apply Permutation_length, NoDup_Permutation.
  - apply nodup_keys_counted. constructor.
  - apply Finite.Injective_map_NoDup; [|apply NoDup_nodup].
    intros x y; congruence.
  - intros c. rewrite in_keys_counted, in_map_iff. simpl. split.
    + intros [[]|(w & -> & Hw)]. exists w. split; auto. now apply nodup_In.
    + intros (w & <- & Hw). right. exists w. split; auto.
      now apply nodup_In in Hw.
Qed.

Lemma create_vocab_index_error s n :
  max_vocab_size s = Some n ->
  Z.of_nat (List.length (Dict.keys (word_counts s))) = n + 1 ->
  create_vocab s = Err IndexError.
Proof.
  intros Hcap Hlen. unfold create_vocab.
  unfold bind at 1, gets at 1. unfold bind at 1, modify at 1.
  unfold bind at 1, gets at 1. proj. rewrite Hcap.
  rewrite sorted_desc_length.
  assert (L1 : (n <? Z.of_nat (List.length (Dict.keys (word_counts s)))) = true)
    by (apply Z.ltb_lt; lia).
  rewrite L1.
  apply bind_err. unfold list_getitem. rewrite sorted_desc_length, Hlen.
  assert (L2 : (n + 1 <? 0) = false) by (apply Z.ltb_ge; lia).
  rewrite L2, Z.leb_refl, orb_true_r. reflexivity.
Qed.

(** C10.  A corpus with at least one document whose number of distinct
    words is exactly [max_vocab_size + 1]: [create_vocab] enters the cap
    branch, since the word list is longer than the cap, and indexes
    [words[max_vocab_size + 1]], one position past the end of the list.
    The constructor ends in an IndexError and no vocabulary is selected.
    (A corpus with a word has a document; for the cap [-1] the statement
    also covers the corpora whose documents are all empty.) *)
Theorem vocab_cap_off_by_one {ML : MathLog} fuel docs bs n r :
  docs <> [] ->
  Z.of_nat (distinct_words docs) = n + 1 ->
  init fuel docs bs (Some n) r = Some (Err IndexError).
Proof.
  intros Hne Hd. unfold init, setup.
  destruct (new_state_indexable bs (Some n) r) as [Hv Hk].
  destruct (create_index_ok _ docs Hne Hv Hk) as (s & E & (h & i & -> & _ & Hki)).
  rewrite (bind_ok _ _ _ _ _ E).
  rewrite (bind_err _ _ _ IndexError); [reflexivity|].
  apply create_vocab_index_error with (n := n); [reflexivity|].
  proj. cbn [new_state word_counts]. now rewrite keys_counted_length.
Qed.

Lemma vocab_cap_off_by_one_witness :
  init (ML := scenario_log) 5 [["a"; "b"]; ["b"; "c"]]%string 1000 (Some 2) (fun _ => false)
  = Some (Err IndexError).
Proof.
  apply vocab_cap_off_by_one; [discriminate | reflexivity].
Defined.

(** C7, on the code.  For the empty corpus the loop of [create_index] never
    binds [doc_id], so [self.num_docs = doc_id + 1] raises
    UnboundLocalError: the constructor fails for every batch size, cap and
    random source, and nothing is written. *)
Theorem empty_corpus_unbound_doc_id {ML : MathLog} fuel bs cap r :
  init fuel [] bs cap r = Some (Err UnboundLocalError).
Proof. reflexivity. Qed.

Lemma occurrences_pos_in w ws : 0 < occurrences w ws <-> In w ws.
Proof.
  unfold occurrences. rewrite (count_occ_In string_dec). lia.
Qed.

(** A frequency table is its keys with their frequencies. *)
Lemma dict_of_keys (d : Dict.t cid Z) :
  NoDup (Dict.keys d) ->
  d = map (fun k => (k, count_of d k)) (Dict.keys d).
Proof.
  induction d as [|[k v] d IH]; simpl; auto. intros Hnd.
  inversion Hnd as [|? ? Hk Hnd']; subst.
  unfold count_of at 1. simpl.
  change (cid_eqb k k) with (key_eqb k k). rewrite key_eqb_refl. f_equal.
  rewrite IH at 1 by auto. apply map_ext_in. intros c Hc.
  unfold count_of. simpl.
  destruct (cid_eqb_spec k c) as [->|Hne]; [contradiction | reflexivity].
Qed.

Lemma three_keys (l : list cid) a b c :
  NoDup l -> (forall x, In x l <-> x = a \/ x = b \/ x = c) ->
  a <> b -> a <> c -> b <> c ->
  l = [a; b; c] \/ l = [a; c; b] \/ l = [b; a; c] \/ l = [b; c; a]
  \/ l = [c; a; b] \/ l = [c; b; a].
Proof.
  intros Hnd Hin Hab Hac Hbc.
  assert (Hlen : List.length l = 3%nat).
  { apply (Permutation_length (l' := [a; b; c])), NoDup_Permutation; auto.
    - repeat constructor; simpl; intuition congruence.
    - intros x. rewrite Hin. simpl. intuition congruence. }
  destruct l as [|x [|y [|z [|]]]]; try discriminate.
  assert (Hx := proj1 (Hin x) (or_introl eq_refl)).
  assert (Hy := proj1 (Hin y) (or_intror (or_introl eq_refl))).
  assert (Hz := proj1 (Hin z) (or_intror (or_intror (or_introl eq_refl)))).
  inversion Hnd as [|? ? N1 Hnd1]; subst.
  inversion Hnd1 as [|? ? N2 Hnd2]; subst.
  simpl in N1, N2.
  destruct Hx as [Hx|[Hx|Hx]], Hy as [Hy|[Hy|Hy]], Hz as [Hz|[Hz|Hz]];
    subst; tauto.
Qed.

(** C9.  For every corpus in which a and b occur five times, c three
    times and no other word occurs, with [max_vocab_size = 1]: indexing and
    vocabulary selection succeed and retain exactly the two words a and b
    (a vocabulary of size 2, not 1). *)
Theorem vocab_cap_relaxed_at_tie docs bs r :
  (forall w, occurrences w (List.concat docs) = tie_frequencies w) ->
  exists s,
    (create_index docs ;; create_vocab) (new_state bs (Some 1) r) = Ok (tt, s)
    /\ List.length (words s) = 2%nat
    /\ forall c, In c (words s) <-> c = Word "a" \/ c = Word "b".
Proof.
  intros Hf.
  assert (Hne : docs <> []).
  { intros ->. specialize (Hf "a"%string). discriminate. }
  destruct (new_state_indexable bs (Some 1) r) as [Hv Hk].
  destruct (create_index_ok _ docs Hne Hv Hk) as (s & E & (h & i & -> & _ & Hki)).
  rewrite (bind_ok _ _ _ _ _ E). clear E.
  cbn [new_state word_counts] in *.
  set (wc := counted [] (List.concat docs)) in *.
  assert (Hnd : NoDup (Dict.keys wc)) by (apply nodup_keys_counted; constructor).
  assert (Hc : forall w, count_of wc (Word w) = tie_frequencies w).
  { intros w. unfold wc. rewrite count_of_counted, Hf. reflexivity. }
  assert (Hin : forall x, In x (Dict.keys wc) <->
                          x = Word "a" \/ x = Word "b" \/ x = Word "c").
  { intros x. unfold wc. rewrite in_keys_counted. simpl. split.
    - intros [[]|(w & -> & Hw)]. apply occurrences_pos_in in Hw.
      rewrite Hf in Hw. unfold tie_frequencies in Hw.
      destruct (String.eqb_spec w "a"); [subst; auto|].
      destruct (String.eqb_spec w "b"); [subst; auto|].
      destruct (String.eqb_spec w "c"); [subst; auto|]. lia.
    - intros H; right.
      destruct H as [->|[->| ->]]; eexists; (split; [reflexivity|]);
        apply occurrences_pos_in; rewrite Hf; reflexivity. }
  pose proof (dict_of_keys wc Hnd) as Hwc.
  assert (Hi : exists l1 l2 l3 k1 k2 k3,
             Dict.keys wc = [k1; k2; k3] /\ i = [(k1, l1); (k2, l2); (k3, l3)]).
  { destruct (three_keys _ (Word "a") (Word "b") (Word "c") Hnd Hin)
      as [K|[K|[K|[K|[K|K]]]]]; try discriminate;
      rewrite K in Hki;
      destruct i as [|[k1 l1] [|[k2 l2] [|[k3 l3] [|]]]]; try discriminate;
      injection Hki as -> -> ->; eauto 10. }
  destruct Hi as (l1 & l2 & l3 & k1 & k2 & k3 & K & ->).
  rewrite K in Hwc. simpl in Hwc.
  destruct (three_keys _ (Word "a") (Word "b") (Word "c") Hnd Hin)
    as [K'|[K'|[K'|[K'|[K'|K']]]]]; try discriminate;
    rewrite K' in K; injection K as <- <- <-;
    rewrite !Hc in Hwc; rewrite Hwc;
    (eexists; split; [vm_compute; reflexivity|]);
    (split; [reflexivity|]); intros c; simpl; intuition congruence.
Qed.

Lemma tie_corpus_frequencies w :
  occurrences w (List.concat tie_corpus) = tie_frequencies w.
Proof.
  unfold tie_frequencies.
  destruct (String.eqb_spec w "a") as [->|Ha]; [reflexivity|].
  destruct (String.eqb_spec w "b") as [->|Hb]; [reflexivity|].
  destruct (String.eqb_spec w "c") as [->|Hc]; [reflexivity|].
  unfold occurrences.
  rewrite (proj1 (count_occ_not_In string_dec _ w)); [reflexivity|].
  simpl. intuition congruence.
Qed.

Lemma vocab_cap_relaxed_at_tie_witness :
  exists s,
    (create_index tie_corpus ;; create_vocab)
      (new_state 1000 (Some 1) (fun _ => false)) = Ok (tt, s)
    /\ List.length (words s) = 2%nat
    /\ forall c, In c (words s) <-> c = Word "a" \/ c = Word "b".
Proof.
  exact (vocab_cap_relaxed_at_tie tie_corpus 1000 (fun _ => false)
           tie_corpus_frequencies).
Defined.

(** ** Frames: what a method leaves alone *)

#[export] Instance same_on_refl {X} (f : state -> X) : Reflexive (same_on f).
Proof. intros s. reflexivity. Qed.

#[export] Instance same_on_trans {X} (f : state -> X) : Transitive (same_on f).
Proof. intros s1 s2 s3 H1 H2. unfold same_on in *. congruence. Qed.

Section Frames.
Context (R : state -> state -> Prop) `{!Reflexive R} `{!Transitive R}.

Lemma preserves_ret {A} (a : A) : preserves R (ret a).
Proof. intros s a' s' [= _ <-]. reflexivity. Qed.

Lemma preserves_raise {A} e : preserves R (@raise A e).
Proof. intros s a s'. discriminate. Qed.

Lemma preserves_gets {A} (f : state -> A) : preserves R (gets f).
Proof. intros s a s' [= _ <-]. reflexivity. Qed.

Lemma preserves_modify (f : state -> state) :
  (forall s, R s (f s)) -> preserves R (modify f).
Proof. intros Hf s [] s' E. injection E as <-. apply Hf. Qed.

Lemma preserves_bind {A B} (m : M A) (k : A -> M B) :
  preserves R m -> (forall a, preserves R (k a)) -> preserves R (bind m k).
Proof.
  intros Hm Hk s b s' E. apply bind_inv in E as (a & s1 & E1 & E2).
  etransitivity; [eapply Hm | eapply Hk]; eauto.
Qed.

Lemma preserves_for_each {A} (l : list A) (body : A -> M unit) :
  (forall x, preserves R (body x)) -> preserves R (for_each l body).
Proof.
  intros Hb. induction l as [|x l IH]; simpl.
  - apply preserves_ret.
  - apply preserves_bind; auto.
Qed.

Lemma preserves_fold_m {A B} (body : B -> A -> M B) (l : list A) (acc : B) :
  (forall b x, preserves R (body b x)) -> preserves R (fold_m body l acc).
Proof.
  intros Hb. revert acc. induction l as [|x l IH]; intros acc; simpl.
  - apply preserves_ret.
  - apply preserves_bind; auto.
Qed.

Lemma preserves_getitem {K V} {H : PyKey K} (d : Dict.t K V) k :
  preserves R (getitem d k).
Proof.
  unfold getitem. destruct (Dict.get d k);
    [apply preserves_ret | apply preserves_raise].
Qed.

Lemma preserves_list_getitem {A} (l : list A) i : preserves R (list_getitem l i).
Proof.
  unfold list_getitem. destruct (_ || _); [apply preserves_raise|].
  destruct (nth_error _ _); [apply preserves_ret | apply preserves_raise].
Qed.

Lemma preserves_py_log n : preserves R (py_log n).
Proof.
  unfold py_log. destruct n; try apply preserves_raise. apply preserves_ret.
Qed.

Lemma preserves_heap_load l : preserves R (heap_load l).
Proof. apply preserves_gets. Qed.
End Frames.

(** A primitive that writes fields outside the view. *)
Ltac frame_prim :=
  let s := fresh "s" in let a := fresh "a" in
  let s' := fresh "s'" in let E := fresh "E" in
  intros s a s' E;
  unfold index_getitem, index_delitem, heap_setitem, word_counts_getitem,
    word_counts_setitem, word_counts_delitem, scores_setitem, randint01,
    modify in E;
  repeat match type of E with
         | context [match ?x with _ => _ end] => destruct x
         | context [if ?x then _ else _] => destruct x
         end;
  try discriminate; injection E as <- <-;
  try reflexivity; try (intro; reflexivity);
  try (let H := fresh in intro H; exact H).

(** Decomposition of a method along its statements. *)
Ltac frame :=
  repeat first
    [ apply preserves_ret; [typeclasses eauto]
    | apply preserves_raise
    | apply preserves_gets; [typeclasses eauto]
    | apply preserves_heap_load; [typeclasses eauto]
    | apply preserves_getitem; [typeclasses eauto]
    | apply preserves_list_getitem; [typeclasses eauto]
    | apply preserves_py_log; [typeclasses eauto]
    | apply preserves_bind; [typeclasses eauto | | intros ?]
    | apply preserves_for_each; [typeclasses eauto | typeclasses eauto | intros ?]
    | apply preserves_fold_m; [typeclasses eauto | typeclasses eauto | intros ? ?]
    | solve [auto with frames]
    | match goal with
      | |- preserves _ (if ?b then _ else _) => destruct b
      | |- preserves _ (match ?x with _ => _ end) => destruct x
      | |- preserves _ (let '(_, _) := ?x in _) => destruct x
      | |- preserves _ (index_count _ _) => unfold index_count
      | |- preserves _ (ensure_doc _ _) => unfold ensure_doc
      | |- preserves _ (index_iadd _ _ _) => unfold index_iadd
      | |- preserves _ (word_counts_incr _) => unfold word_counts_incr
      | |- preserves _ (pair_count _ _) => unfold pair_count
      | |- preserves _ (pair_value _ _) => unfold pair_value
      | |- preserves _ (score_pair _ _) => unfold score_pair
      | |- preserves _ (update_batch _ _) => unfold update_batch
      | |- preserves _ (merge_hierarchy _ _ _) => unfold merge_hierarchy
      | |- preserves _ (merge_index _ _ _) => unfold merge_index
      | |- preserves _ (merge_counts _ _ _) => unfold merge_counts
      | |- preserves _ (merge_release _ _) => unfold merge_release
      | |- preserves _ (merge _ _) => unfold merge
      | |- preserves _ find_best => unfold find_best
      | |- preserves _ (make_pair_scores _) => unfold make_pair_scores
      | |- preserves _ (merge_doc _ _ _) => unfold merge_doc
      | |- preserves _ (prune_key _ _) => unfold prune_key
      | |- preserves _ (purge_scores _) => unfold purge_scores
      | |- preserves _ (find_best_step _ _) => unfold find_best_step
      end
    | solve [frame_prim] ].

#[export] Instance same_counts_refl : Reflexive same_counts.
Proof. intros s c. reflexivity. Qed.

#[export] Instance same_counts_trans : Transitive same_counts.
Proof. intros s1 s2 s3 H1 H2 c. now rewrite H2, H1. Qed.

Lemma word_counts_getitem_counts c : preserves same_counts (word_counts_getitem c).
Proof.
  intros s f s' E c'. unfold word_counts_getitem in E.
  destruct (Dict.get (word_counts s) c) eqn:G; injection E as <- <-; auto.
  proj. unfold count_of. destruct (cid_eqb_spec c c') as [<-|Hne].
  - now rewrite DictFacts.get_set_eq, G.
  - now rewrite (DictFacts.get_set_ne (H := cid_key)) by auto.
Qed.

Create HintDb frames.
#[export] Hint Resolve word_counts_getitem_counts : frames.

#[export] Instance keeps_table_wf_refl : Reflexive keeps_table_wf.
Proof. intros s H. exact H. Qed.

#[export] Instance keeps_table_wf_trans : Transitive keeps_table_wf.
Proof. intros s1 s2 s3 H1 H2 H. exact (H2 (H1 H)). Qed.

Lemma in_dict_set {K V} {H : PyKey K} {HL : PyKeyLaws K}
    (d : Dict.t K V) k v k' v' :
  In (k', v') (Dict.set d k v) -> (k' = k /\ v' = v) \/ In (k', v') d.
Proof.
  induction d as [|[k0 v0] d IH]; simpl.
  - intros [[= <- <-]|[]]. now left.
  - destruct (key_eqb_spec k0 k) as [->|Hne]; simpl.
    + intros [[= <- <-]|Hin]; auto.
    + intros [E|Hin]; auto. destruct (IH Hin); auto.
Qed.

Lemma scores_setitem_table_wf c1 c2 v :
  preserves keeps_table_wf (scores_setitem c1 c2 v).
Proof.
  intros s [] s' E [Hk Hrows]. injection E as <-. proj.
  assert (Hrow : NoDup (Dict.keys match Dict.get (current_batch_scores s) c1 with
                                  | Some d => d
                                  | None => []
                                  end)).
  { destruct (Dict.get (current_batch_scores s) c1) as [d|] eqn:G.
    - apply (Hrows c1 d). now apply (DictFacts.get_some_in (H := cid_key)).
    - constructor. }
  split.
  - now apply (DictFacts.nodup_keys_set (H := cid_key)).
  - intros k row Hin. apply in_dict_set in Hin as [[-> ->]|Hin].
    + now apply (DictFacts.nodup_keys_set (H := cid_key)).
    + eapply Hrows; eauto.
Qed.

Lemma purge_scores_table_wf c : preserves keeps_table_wf (purge_scores c).
Proof.
  intros s [] s' E [Hk Hrows]. injection E as <-. proj.
  set (t1 := if Dict.mem _ c then _ else _).
  assert (H1 : NoDup (Dict.keys t1)
               /\ forall k d, In (k, d) t1 -> In (k, d) (current_batch_scores s)).
  { subst t1. destruct (Dict.mem _ c); [|auto]. split.
    - now apply (DictFacts.nodup_keys_del (H := cid_key)).
    - intros k d Hin. unfold Dict.del in Hin. now apply filter_In in Hin. }
  destruct H1 as [Hk1 Hin1]. split.
  - unfold Dict.keys in *. rewrite map_map.
    erewrite map_ext; [exact Hk1|]. now intros [k d].
  - intros k row Hin. apply in_map_iff in Hin as ([k' d] & [= <- <-] & Hin).
    apply (DictFacts.nodup_keys_del (H := cid_key)). eapply Hrows; eauto.
Qed.

#[export] Hint Resolve scores_setitem_table_wf purge_scores_table_wf : frames.

Lemma make_pair_scores_table_wf pairs :
  preserves keeps_table_wf (make_pair_scores pairs).
Proof. frame. Qed.

Lemma find_best_table_wf {ML : MathLog} : preserves keeps_table_wf find_best.
Proof. frame. Qed.

Lemma merge_table_wf c1 c2 : preserves keeps_table_wf (merge c1 c2).
Proof. frame. Qed.

Lemma update_batch_table_wf c1 c2 :
  preserves keeps_table_wf (update_batch c1 c2).
Proof. frame. Qed.

Lemma make_pair_scores_frame pairs :
  preserves (same_on outside_scoring) (make_pair_scores pairs).
Proof. frame. Qed.

Lemma make_pair_scores_counts pairs :
  preserves same_counts (make_pair_scores pairs).
Proof. frame. Qed.

Lemma pair_value_scores c1 c2 :
  preserves (same_on current_batch_scores) (pair_value c1 c2).
Proof. frame. Qed.

Lemma find_best_frame {ML : MathLog} : preserves (same_on outside_rng_pos) find_best.
Proof. frame. Qed.

Lemma merge_frame c1 c2 : preserves (same_on outside_merge) (merge c1 c2).
Proof. frame. Qed.

Lemma update_batch_frame c1 c2 :
  preserves (same_on outside_batch) (update_batch c1 c2).
Proof. frame. Qed.

Lemma update_batch_counts c1 c2 : preserves same_counts (update_batch c1 c2).
Proof. frame. Qed.

(** ** [merge] *)

Lemma merge_hierarchy_eq c1 c2 c_new s :
  merge_hierarchy c1 c2 c_new s = Ok (tt, after_hierarchy c1 c2 c_new s).
Proof. reflexivity. Qed.

Lemma index_count_present c doc_id s l n :
  Dict.get (index s) c = Some l ->
  Dict.get (nth l (heap s) []) doc_id = Some n ->
  index_count c doc_id s = Ok (n, s).
Proof.
  intros E En. unfold index_count.
  rewrite (bind_ok _ _ _ _ _ (index_getitem_present _ _ _ E)).
  unfold heap_load, gets, bind, getitem. now rewrite En.
Qed.

Lemma merge_doc_present c_new c2 doc_id s l1 l2 n2 :
  Dict.get (index s) c_new = Some l1 ->
  Dict.get (index s) c2 = Some l2 ->
  l1 <> l2 -> (l1 < List.length (heap s))%nat ->
  Dict.get (nth l2 (heap s) []) doc_id = Some n2 ->
  merge_doc c_new c2 doc_id s =
  Ok (tt, set_heap (list_update (heap s) l1
                      (add_doc (nth l2 (heap s) []) (nth l1 (heap s) []) doc_id)) s).
Proof.
  intros E1 E2 Hne Hl En2. unfold merge_doc.
  rewrite (bind_ok _ _ _ _ _ (ensure_doc_present _ doc_id _ _ E1)).
  set (s1 := set_heap _ s).
  assert (H1 : nth l1 (heap s1) [] = ensure (nth l1 (heap s) []) doc_id).
  { subst s1; proj. now apply nth_list_update_eq. }
  assert (H2 : nth l2 (heap s1) [] = nth l2 (heap s) []).
  { subst s1; proj. now apply nth_list_update_ne. }
  destruct (mem_get_some (nth l1 (heap s1) []) doc_id) as [n Hn].
  { rewrite H1. apply ensure_has. }
  rewrite (index_iadd_present c_new doc_id _ s1 l1 n n2 E1 Hn).
  2:{ apply index_count_present with (l := l2); [exact E2|]. now rewrite H2. }
  f_equal. f_equal. subst s1. proj. rewrite nth_list_update_eq by auto.
  unfold add_doc, doc_count. rewrite En2.
  rewrite H1 in Hn. rewrite Hn.
  rewrite list_update_update. reflexivity.
Qed.

Lemma merge_docs_present c_new c2 ds s l1 l2 :
  Dict.get (index s) c_new = Some l1 ->
  Dict.get (index s) c2 = Some l2 ->
  l1 <> l2 -> (l1 < List.length (heap s))%nat ->
  (forall d, In d ds -> In d (Dict.keys (nth l2 (heap s) []))) ->
  for_each ds (merge_doc c_new c2) s =
  Ok (tt, set_heap (list_update (heap s) l1
                      (fold_left (add_doc (nth l2 (heap s) [])) ds
                         (nth l1 (heap s) []))) s).
Proof.
  intros E1 E2 Hne. revert s E1 E2.
  induction ds as [|d ds IH]; intros s E1 E2 Hl Hin; simpl.
  - unfold ret. now rewrite list_update_same, set_heap_same.
  - destruct (mem_get_some (nth l2 (heap s) []) d) as [n2 Hn2].
    { apply DictFacts.mem_in_keys, Hin. now left. }
    rewrite (bind_ok _ _ _ _ _
               (merge_doc_present _ _ d _ _ _ _ E1 E2 Hne Hl Hn2)).
    set (s1 := set_heap _ s).
    assert (H2 : nth l2 (heap s1) [] = nth l2 (heap s) []).
    { subst s1; proj. now apply nth_list_update_ne. }
    rewrite IH; auto.
    + rewrite H2. subst s1. proj. rewrite nth_list_update_eq by auto.
      rewrite list_update_update. reflexivity.
    + subst s1. proj. now rewrite length_list_update.
    + rewrite H2. intros d' Hd'. apply Hin. now right.
Qed.

Lemma doc_count_add_doc m2 acc d d' :
  Dict.get (add_doc m2 acc d) d' =
  if Nat.eqb d d' then Some (doc_count acc d + doc_count m2 d)
  else Dict.get acc d'.
Proof.
  unfold add_doc. destruct (Nat.eqb_spec d d') as [<-|Hne].
  - rewrite DictFacts.get_set_eq. f_equal. f_equal.
    unfold ensure, doc_count, Dict.mem.
    destruct (Dict.get acc d) eqn:G; [now rewrite G|].
    now rewrite DictFacts.get_set_eq.
  - rewrite (DictFacts.get_set_ne (H := nat_key)) by auto.
    unfold ensure. destruct (Dict.mem acc d); auto.
    now rewrite (DictFacts.get_set_ne (H := nat_key)) by auto.
Qed.

Lemma get_fold_add_doc m2 ds acc d :
  NoDup ds -> (forall x, In x ds -> In x (Dict.keys m2)) ->
  Dict.get (fold_left (add_doc m2) ds acc) d =
  if in_dec Nat.eq_dec d ds then sum_counts (Dict.get acc d) (Dict.get m2 d)
  else Dict.get acc d.
Proof.
  intros Hnd. revert acc. induction Hnd as [|x ds Hx Hnd IH]; intros acc Hin.
  - reflexivity.
  - cbn [fold_left]. rewrite IH by (intros; apply Hin; now right).
    rewrite doc_count_add_doc.
    destruct (Nat.eqb_spec x d) as [->|Hne].
    + destruct (in_dec Nat.eq_dec d ds) as [Hd|Hd]; [contradiction|].
      destruct (in_dec Nat.eq_dec d (d :: ds)) as [Hd'|Hd'];
        [|exfalso; apply Hd'; now left].
      destruct (mem_get_some m2 d) as [n2 Hn2].
      { apply DictFacts.mem_in_keys, Hin. now left. }
      unfold doc_count. rewrite Hn2. destruct (Dict.get acc d); reflexivity.
    + destruct (in_dec Nat.eq_dec d ds) as [Hd|Hd];
        destruct (in_dec Nat.eq_dec d (x :: ds)) as [Hd'|Hd']; auto.
      * exfalso. apply Hd'. now right.
      * exfalso. destruct Hd' as [?|?]; auto.
Qed.

Lemma merge_index_present c1 c2 c_new s l1 l2 :
  Dict.get (index s) c1 = Some l1 ->
  Dict.get (index s) c2 = Some l2 ->
  c2 <> c_new -> l1 <> l2 -> (l1 < List.length (heap s))%nat ->
  merge_index c1 c2 c_new s =
  Ok (tt, set_heap (list_update (heap s) l1
                      (fold_left (add_doc (nth l2 (heap s) []))
                         (Dict.keys (nth l2 (heap s) [])) (nth l1 (heap s) [])))
            (set_index (Dict.set (index s) c_new l1) s)).
Proof.
  intros E1 E2 Hc Hl Hlen. unfold merge_index.
  rewrite (bind_ok _ _ _ _ _ (index_getitem_present _ _ _ E1)).
  unfold bind at 1, modify at 1.
  set (s1 := set_index _ s).
  assert (E1' : Dict.get (index s1) c_new = Some l1)
    by (subst s1; proj; apply DictFacts.get_set_eq).
  assert (E2' : Dict.get (index s1) c2 = Some l2).
  { subst s1; proj. rewrite (DictFacts.get_set_ne (H := cid_key)) by auto. exact E2. }
  rewrite (bind_ok _ _ _ _ _ (index_getitem_present _ _ _ E2')).
  unfold bind at 1, heap_load, gets.
  rewrite (merge_docs_present c_new c2 _ s1 l1 l2 E1' E2' Hl Hlen); auto.
Qed.

Lemma merge_counts_eq c1 c2 c_new s :
  merge_counts c1 c2 c_new s =
  Ok (tt, set_word_counts
            (Dict.set (wc_touch (wc_touch (word_counts s) c1) c2) c_new
               (count_of (word_counts s) c1 + count_of (word_counts s) c2)) s).
Proof.
  unfold merge_counts, bind, word_counts_getitem, word_counts_setitem, modify,
    wc_touch, count_of.
  destruct (Dict.get (word_counts s) c1) as [f1|] eqn:G1; proj.
  - destruct (Dict.get (word_counts s) c2) as [f2|] eqn:G2; proj; reflexivity.
  - destruct (cid_eqb_spec c1 c2) as [<-|Hne].
    + rewrite DictFacts.get_set_eq, G1. reflexivity.
    + rewrite (DictFacts.get_set_ne (H := cid_key)) by auto.
      destruct (Dict.get (word_counts s) c2) as [f2|] eqn:G2; proj; reflexivity.
Qed.

Lemma count_of_wc_touch wc c c' : count_of (wc_touch wc c) c' = count_of wc c'.
Proof.
  unfold wc_touch, count_of. destruct (Dict.get wc c) eqn:G; auto.
  destruct (cid_eqb_spec c c') as [<-|Hne].
  - now rewrite DictFacts.get_set_eq, G.
  - now rewrite (DictFacts.get_set_ne (H := cid_key)) by auto.
Qed.

Lemma in_keys_wc_touch wc c c' :
  In c' (Dict.keys (wc_touch wc c)) <-> c' = c \/ In c' (Dict.keys wc).
Proof.
  unfold wc_touch. destruct (Dict.get wc c) eqn:G.
  - split; auto. intros [->|?]; auto. apply DictFacts.in_keys_get. congruence.
  - apply DictFacts.in_keys_set.
Qed.

Lemma merge_release_inv c1 c2 s s' :
  merge_release c1 c2 s = Ok (tt, s') ->
  s' = set_word_counts (release (words s) (release (words s) (word_counts s) c1) c2)
         (set_index (Dict.del (Dict.del (index s) c1) c2) s).
Proof.
  unfold merge_release, bind, index_delitem, gets, word_counts_delitem, release.
  destruct (Dict.mem (index s) c1); [|discriminate]. proj.
  destruct (Dict.mem (Dict.del (index s) c1) c2); [|discriminate]. proj.
  destruct (cid_in c1 (words s)); unfold ret; proj.
  - destruct (cid_in c2 (words s)); proj.
    + intros [= <-]. now destruct s.
    + destruct (Dict.mem (word_counts s) c2); [|discriminate].
      intros [= <-]. reflexivity.
  - destruct (Dict.mem (word_counts s) c1); [|discriminate]. proj.
    destruct (cid_in c2 (words s)); proj.
    + intros [= <-]. reflexivity.
    + destruct (Dict.mem (Dict.del (word_counts s) c1) c2); [|discriminate].
      intros [= <-]. reflexivity.
Qed.

Lemma merge_release_present c1 c2 s :
  Dict.mem (index s) c1 = true -> Dict.mem (index s) c2 = true -> c1 <> c2 ->
  Dict.mem (word_counts s) c1 = true -> Dict.mem (word_counts s) c2 = true ->
  exists s', merge_release c1 c2 s = Ok (tt, s').
Proof.
  intros M1 M2 Hne W1 W2.
  assert (M2' : Dict.mem (Dict.del (index s) c1) c2 = true).
  { apply DictFacts.mem_in_keys, DictFacts.in_keys_del. split; [congruence|].
    now apply DictFacts.mem_in_keys. }
  assert (W2' : Dict.mem (Dict.del (word_counts s) c1) c2 = true).
  { apply DictFacts.mem_in_keys, DictFacts.in_keys_del. split; [congruence|].
    now apply DictFacts.mem_in_keys. }
  unfold merge_release, bind, index_delitem, gets, word_counts_delitem.
  rewrite M1. proj. rewrite M2'. proj.
  destruct (cid_in c1 (words s)); unfold ret; proj.
  - destruct (cid_in c2 (words s)); proj; [eauto|]. rewrite W2. eauto.
  - rewrite W1. proj. destruct (cid_in c2 (words s)); proj; [eauto|].
    rewrite W2'. eauto.
Qed.

Lemma count_of_release ws wc c c' :
  c' <> c \/ In c' ws -> count_of (release ws wc c) c' = count_of wc c'.
Proof.
  intros H. unfold release. destruct (cid_in c ws) eqn:E; auto.
  apply cid_in_false in E. unfold count_of.
  rewrite (DictFacts.get_del_ne (H := cid_key)); auto.
  intros ->. destruct H; auto.
Qed.

Lemma in_keys_release ws wc c c' :
  In c' (Dict.keys wc) -> ~ In c' (Dict.keys (release ws wc c)) -> ~ In c' ws.
Proof.
  unfold release. destruct (cid_in c ws) eqn:E; [tauto|].
  apply cid_in_false in E. intros Hin Hout Hw.
  apply Hout, DictFacts.in_keys_del. split; auto. intros ->. contradiction.
Qed.

Lemma nth_error_nth_default {A} (l : list A) i x d :
  nth_error l i = Some x -> nth i l d = x /\ (i < List.length l)%nat.
Proof.
  intros E. split; [now apply nth_error_nth | apply nth_error_Some; congruence].
Qed.

Lemma nth_error_list_update_eq {A} (l : list A) i x :
  (i < List.length l)%nat -> nth_error (list_update l i x) i = Some x.
Proof.
  revert i; induction l; intros [|i]; simpl; intros; auto; try lia.
  apply IHl; lia.
Qed.

(** C2.  A merge of two distinct live cluster ids [c1] and [c2], held in
    distinct dict objects, neither being the id about to be created:
    [merge] succeeds; afterwards both children have the new id as parent,
    their bits are complementary (one is "0", the other "1"), the map of
    the new id gives every document the sum of the counts of the two
    children (the entries present in either), and the frequency of the
    new id is the sum of the frequencies of the children. *)
Theorem merge_effects s c1 c2 l1 l2 m1 m2 :
  live s c1 l1 m1 -> live s c2 l2 m2 ->
  c1 <> c2 -> l1 <> l2 ->
  c1 <> Merged (cluster_counter s) -> c2 <> Merged (cluster_counter s) ->
  exists s',
    merge c1 c2 s = Ok (tt, s')
    /\ Dict.get (cluster_parents s') c1 = Some (Merged (cluster_counter s))
    /\ Dict.get (cluster_parents s') c2 = Some (Merged (cluster_counter s))
    /\ (exists b1 b2,
          Dict.get (cluster_bits s') c1 = Some b1
          /\ Dict.get (cluster_bits s') c2 = Some b2
          /\ complementary b1 b2)
    /\ (exists l m,
          Dict.get (index s') (Merged (cluster_counter s)) = Some l
          /\ nth_error (heap s') l = Some m
          /\ forall doc_id,
               Dict.get m doc_id
               = sum_counts (Dict.get m1 doc_id) (Dict.get m2 doc_id))
    /\ count_of (word_counts s') (Merged (cluster_counter s))
       = count_of (word_counts s) c1 + count_of (word_counts s) c2.
Proof.
  intros (E1 & N1 & _) (E2 & N2 & Hnd) Hc Hl Hn1 Hn2.
  set (cn := Merged (cluster_counter s)) in *.
  assert (H1 : nth l1 (heap s) [] = m1 /\ (l1 < List.length (heap s))%nat)
    by (now apply nth_error_nth_default).
  assert (H2 : nth l2 (heap s) [] = m2 /\ (l2 < List.length (heap s))%nat)
    by (now apply nth_error_nth_default).
  destruct H1 as [Hm1 Hlen1], H2 as [Hm2 Hlen2].
  unfold merge. unfold bind at 1, gets at 1. fold cn.
  rewrite (bind_ok _ _ _ _ _ (merge_hierarchy_eq c1 c2 cn s)).
  set (s1 := after_hierarchy c1 c2 cn s).
  rewrite (bind_ok _ _ _ _ _
             (merge_index_present c1 c2 cn s1 l1 l2 E1 E2 Hn2 Hl Hlen1)).
  set (s2 := set_heap _ _).
  rewrite (bind_ok _ _ _ _ _ (merge_counts_eq c1 c2 cn s2)).
  set (s3 := set_word_counts _ s2).
  destruct (merge_release_present c1 c2 s3) as [s' E]; auto.
  { subst s3 s2; proj. apply DictFacts.mem_in_keys, DictFacts.in_keys_set. right.
    apply DictFacts.in_keys_get. subst s1; unfold after_hierarchy; proj. congruence. }
  { subst s3 s2; proj. apply DictFacts.mem_in_keys, DictFacts.in_keys_set. right.
    apply DictFacts.in_keys_get. subst s1; unfold after_hierarchy; proj. congruence. }
  { subst s3; proj. apply DictFacts.mem_in_keys, DictFacts.in_keys_set. right.
    apply in_keys_wc_touch. right. apply in_keys_wc_touch. now left. }
  { subst s3; proj. apply DictFacts.mem_in_keys, DictFacts.in_keys_set. right.
    apply in_keys_wc_touch. now left. }
  exists s'. split; [exact E|].
  apply merge_release_inv in E. subst s'. subst s3 s2 s1. proj.
  unfold after_hierarchy; proj.
  split; [|split; [|split; [|split]]].
  - rewrite (DictFacts.get_set_ne (H := cid_key)) by congruence.
    apply DictFacts.get_set_eq.
  - apply DictFacts.get_set_eq.
  - eexists _, _. split; [|split].
    + rewrite (DictFacts.get_set_ne (H := cid_key)) by congruence.
      apply DictFacts.get_set_eq.
    + apply DictFacts.get_set_eq.
    + unfold complementary, child_bit.
      destruct (rng s (rng_pos s)); [right | left]; split; reflexivity.
  - exists l1, (fold_left (add_doc m2) (Dict.keys m2) m1). split; [|split].
    + rewrite !(DictFacts.get_del_ne (H := cid_key)) by congruence.
      apply DictFacts.get_set_eq.
    + rewrite Hm1, Hm2. now apply nth_error_list_update_eq.
    + intros d. rewrite get_fold_add_doc by auto.
      destruct (in_dec Nat.eq_dec d (Dict.keys m2)) as [Hd|Hd]; auto.
      apply DictFacts.mem_false_not_in in Hd. unfold Dict.mem in Hd.
      destruct (Dict.get m2 d); [discriminate|].
      destruct (Dict.get m1 d); reflexivity.
  - rewrite !count_of_release by (left; congruence).
    unfold count_of at 1. now rewrite DictFacts.get_set_eq.
Qed.

Lemma merge_effects_witness :
  exists s',
    merge (Word "dog") (Word "cat") scenario_start = Ok (tt, s')
    /\ Dict.get (cluster_parents s') (Word "dog") = Some (Merged 0)
    /\ Dict.get (cluster_parents s') (Word "cat") = Some (Merged 0)
    /\ (exists b1 b2,
          Dict.get (cluster_bits s') (Word "dog") = Some b1
          /\ Dict.get (cluster_bits s') (Word "cat") = Some b2
          /\ complementary b1 b2)
    /\ (exists l m,
          Dict.get (index s') (Merged 0) = Some l
          /\ nth_error (heap s') l = Some m
          /\ forall doc_id,
               Dict.get m doc_id
               = sum_counts (Dict.get [(0%nat, 1); (2%nat, 1)] doc_id)
                   (Dict.get [(0%nat, 1); (1%nat, 1)] doc_id))
    /\ count_of (word_counts s') (Merged 0)
       = count_of (word_counts scenario_start) (Word "dog")
         + count_of (word_counts scenario_start) (Word "cat").
Proof.
  apply (merge_effects scenario_start (Word "dog") (Word "cat") 0 1
           [(0%nat, 1); (2%nat, 1)] [(0%nat, 1); (1%nat, 1)]).
  - repeat split; repeat constructor; simpl; intuition lia.
  - repeat split; repeat constructor; simpl; intuition lia.
  - discriminate.
  - discriminate.
  - discriminate.
  - discriminate.
Defined.

(** The frequency table and the word list through the first blocks. *)
Lemma merge_index_counts c1 c2 c_new :
  preserves (same_on (fun s => (word_counts s, words s)))
    (merge_index c1 c2 c_new).
Proof. frame. Qed.

(** What [merge] does to the frequency table, whatever it is called on:
    the table after it is the table before it with the new id bound to the
    sum and the children released. *)
Lemma merge_word_counts c1 c2 s s' :
  merge c1 c2 s = Ok (tt, s') ->
  words s' = words s
  /\ word_counts s' =
     release (words s)
       (release (words s)
          (Dict.set (wc_touch (wc_touch (word_counts s) c1) c2)
             (Merged (cluster_counter s))
             (count_of (word_counts s) c1 + count_of (word_counts s) c2)) c1) c2.
Proof.
  unfold merge. unfold bind at 1, gets at 1.
  rewrite (bind_ok _ _ _ _ _ (merge_hierarchy_eq c1 c2 _ s)).
  intros E. apply bind_inv in E as ([] & s2 & E2 & E).
  apply merge_index_counts in E2. unfold same_on in E2.
  unfold after_hierarchy in E2; proj. injection E2 as Hwc Hws.
  rewrite (bind_ok _ _ _ _ _ (merge_counts_eq c1 c2 _ s2)) in E.
  apply merge_release_inv in E. subst s'. proj.
  rewrite Hwc, Hws. auto.
Qed.

Lemma merge_keeps_word_counts c1 c2 s s' w :
  merge c1 c2 s = Ok (tt, s') ->
  In w (words s) -> w <> Merged (cluster_counter s) ->
  count_of (word_counts s') w = count_of (word_counts s) w.
Proof.
  intros E Hw Hn. apply merge_word_counts in E as [_ ->].
  rewrite !count_of_release by (now right).
  unfold count_of at 1.
  rewrite (DictFacts.get_set_ne (H := cid_key)) by congruence.
  fold (count_of (wc_touch (wc_touch (word_counts s) c1) c2) w).
  now rewrite !count_of_wc_touch.
Qed.

Lemma merge_deletes_non_words c1 c2 s s' c :
  merge c1 c2 s = Ok (tt, s') ->
  In c (Dict.keys (word_counts s)) -> ~ In c (Dict.keys (word_counts s')) ->
  ~ In c (words s).
Proof.
  intros E Hin Hout. apply merge_word_counts in E as [_ E]. rewrite E in Hout.
  set (wc1 := Dict.set _ _ _) in *.
  assert (H1 : In c (Dict.keys wc1)).
  { apply DictFacts.in_keys_set. right. apply in_keys_wc_touch. right.
    apply in_keys_wc_touch. now right. }
  destruct (in_dec (fun a b => reflect_dec _ _ (cid_eqb_spec a b)) c
              (Dict.keys (release (words s) wc1 c1))) as [H2|H2].
  - eapply in_keys_release; eauto.
  - eapply in_keys_release; eauto.
Qed.

(** ** [make_pair_scores] *)

Lemma scores_setitem_eq c1 c2 v s :
  scores_setitem c1 c2 v s =
  Ok (tt, set_current_batch_scores (store (current_batch_scores s) c1 c2 v) s).
Proof. reflexivity. Qed.

Lemma stored_store t c1 c2 v a b :
  stored (store t c1 c2 v) a b =
  if cid_eqb c1 a && cid_eqb c2 b then Some v else stored t a b.
Proof.
  unfold stored, store.
  destruct (cid_eqb_spec c1 a) as [<-|Ha]; simpl.
  - rewrite DictFacts.get_set_eq.
    destruct (cid_eqb_spec c2 b) as [<-|Hb].
    + apply DictFacts.get_set_eq.
    + rewrite (DictFacts.get_set_ne (H := cid_key)) by auto.
      destruct (Dict.get t c1); reflexivity.
  - now rewrite (DictFacts.get_set_ne (H := cid_key)) by auto.
Qed.

(** The loop that sums the products. *)
Lemma pair_count_loop c1 c2 s l1 l2 ds acc :
  Dict.get (index s) c1 = Some l1 ->
  Dict.get (index s) c2 = Some l2 ->
  (forall d, In d ds -> Dict.mem (nth l1 (heap s) []) d = true
                        /\ Dict.mem (nth l2 (heap s) []) d = true) ->
  fold_m (fun paircount doc_id =>
            n1 <- index_count c1 doc_id ;;
            n2 <- index_count c2 doc_id ;;
            ret (paircount + n1 * n2)) ds acc s
  = Ok (acc + fold_right Z.add 0
                (map (fun d => doc_count (nth l1 (heap s) []) d
                               * doc_count (nth l2 (heap s) []) d) ds), s).
Proof.
  intros E1 E2. revert acc.
  induction ds as [|d ds IH]; intros acc Hin; cbn [fold_m map fold_right].
  - unfold ret. now rewrite Z.add_0_r.
  - destruct (Hin d (or_introl eq_refl)) as [M1 M2].
    destruct (mem_get_some _ _ M1) as [n1 G1].
    destruct (mem_get_some _ _ M2) as [n2 G2].
    unfold bind at 1. unfold bind at 1.
    rewrite (index_count_present c1 d s l1 n1 E1 G1).
    unfold bind at 1. rewrite (index_count_present c2 d s l2 n2 E2 G2).
    unfold ret at 1. rewrite IH by (intros; apply Hin; now right).
    unfold doc_count at 3 4. rewrite G1, G2. f_equal. f_equal. lia.
Qed.

Lemma pair_count_present c1 c2 s l1 l2 :
  Dict.get (index s) c1 = Some l1 ->
  Dict.get (index s) c2 = Some l2 ->
  pair_count c1 c2 s = Ok (cooccurrence (docs_of s c1) (docs_of s c2), s).
Proof.
  intros E1 E2. unfold pair_count.
  rewrite (bind_ok _ _ _ _ _ (index_getitem_present _ _ _ E1)).
  unfold bind at 1, heap_load at 1, gets at 1.
  rewrite (bind_ok _ _ _ _ _ (index_getitem_present _ _ _ E2)).
  unfold bind at 1, heap_load at 1, gets at 1.
  rewrite (pair_count_loop c1 c2 s l1 l2); auto.
  - unfold cooccurrence, shared_docs, docs_of. now rewrite E1, E2.
  - intros d Hd. apply filter_In in Hd as [Hk Hm]. split; auto.
    now apply DictFacts.mem_in_keys.
Qed.

Lemma nth_length_app_nil (h : list docmap) : nth (List.length h) (h ++ [[]]) [] = [].
Proof. rewrite app_nth2 by lia. now rewrite Nat.sub_diag. Qed.

Lemma filter_mem_nil (ks : list nat) : filter (Dict.mem (@nil (nat * Z))) ks = [].
Proof. induction ks; auto. Qed.

(** A pair with an id that the index does not have: the default of
    [index] binds the id to a new empty dict, the count is 0. *)
Lemma touch_missing c s :
  Dict.get (index s) c = None ->
  loc_of c s = List.length (heap s) /\ heap (touch c s) = heap s ++ [[]].
Proof. intros G. unfold loc_of, touch. rewrite G. auto. Qed.

Lemma pair_count_missing c1 c2 s :
  Dict.mem (index s) c1 = false \/ Dict.mem (index s) c2 = false ->
  pair_count c1 c2 s = Ok (0, touch c2 (touch c1 s)).
Proof.
  intros H. unfold pair_count, bind.
  rewrite !index_getitem_eq. unfold heap_load, gets.
  rewrite index_getitem_eq.
  destruct (Dict.get (index s) c1) as [l1|] eqn:G1.
  - destruct H as [H|H]; [unfold Dict.mem in H; rewrite G1 in H; discriminate|].
    assert (T1 : touch c1 s = s) by (unfold touch; now rewrite G1).
    rewrite T1. unfold Dict.mem in H.
    destruct (Dict.get (index s) c2) eqn:G2; [discriminate|].
    destruct (touch_missing _ _ G2) as [-> ->].
    now rewrite nth_length_app_nil, filter_mem_nil.
  - destruct (touch_missing _ _ G1) as [-> ->].
    now rewrite nth_length_app_nil.
Qed.

Lemma touch_binds c s c' :
  Dict.mem (index s) c' = true \/ c' = c ->
  Dict.mem (index (touch c s)) c' = true.
Proof.
  intros H. unfold touch. destruct (Dict.get (index s) c) eqn:G.
  - destruct H as [H| ->]; auto. unfold Dict.mem. now rewrite G.
  - proj. apply DictFacts.mem_in_keys, DictFacts.in_keys_set.
    destruct H as [H| ->]; auto. right. now apply DictFacts.mem_in_keys.
Qed.

(** C8, amended.  A pair with an id that has no document map in the index
    is not refused: [make_pair_scores] raises nothing, the default of the
    index binds the missing id to a new empty map, the co-occurrence count
    is 0 and negative infinity is stored as the score of the pair. *)
Theorem missing_cluster_scored_silently s c1 c2 :
  Dict.mem (index s) c1 = false \/ Dict.mem (index s) c2 = false ->
  exists s',
    make_pair_scores [(c1, c2)] s = Ok (tt, s')
    /\ stored (current_batch_scores s') c1 c2 = Some NegInf
    /\ Dict.mem (index s') c1 = true
    /\ Dict.mem (index s') c2 = true.
Proof.
  intros H. unfold make_pair_scores, for_each, score_pair, pair_value.
  unfold bind. rewrite (pair_count_missing c1 c2 s H).
  cbn [Z.eqb]. unfold ret at 1. rewrite scores_setitem_eq. unfold ret.
  eexists. split; [reflexivity|]. proj. split; [|split].
  - rewrite stored_store.
    change (cid_eqb c1 c1) with (key_eqb c1 c1).
    change (cid_eqb c2 c2) with (key_eqb c2 c2).
    now rewrite !key_eqb_refl.
  - apply touch_binds. left. apply touch_binds. now right.
  - apply touch_binds. now right.
Qed.

Lemma missing_cluster_scored_silently_witness :
  exists s',
    make_pair_scores [(Word "ghost", Word "cat")] ghost_state = Ok (tt, s')
    /\ stored (current_batch_scores s') (Word "ghost") (Word "cat") = Some NegInf
    /\ Dict.mem (index s') (Word "ghost") = true
    /\ Dict.mem (index s') (Word "cat") = true.
Proof.
  apply missing_cluster_scored_silently. left. reflexivity.
Defined.

(** C8, as stated: refuted by a pair whose first id is not in the index. *)
Lemma missing_cluster_not_detected : ~ missing_cluster_detected.
Proof.
  intros H.
  destruct (H ghost_state (Word "ghost") (Word "cat") (or_introl eq_refl))
    as [e E].
  vm_compute in E. discriminate.
Qed.

Lemma cooccurrence_nonneg m1 m2 :
  (forall d n, Dict.get m1 d = Some n -> 0 < n) ->
  (forall d n, Dict.get m2 d = Some n -> 0 < n) ->
  (shared_docs m1 m2 = [] -> cooccurrence m1 m2 = 0)
  /\ (shared_docs m1 m2 <> [] -> 0 < cooccurrence m1 m2).
Proof.
  intros P1 P2. unfold cooccurrence.
  assert (Hin : forall d, In d (shared_docs m1 m2) ->
                          0 < doc_count m1 d * doc_count m2 d).
  { intros d Hd. apply filter_In in Hd as [Hk Hm].
    apply DictFacts.mem_in_keys in Hk.
    destruct (mem_get_some _ _ Hk) as [n1 G1].
    destruct (mem_get_some _ _ Hm) as [n2 G2].
    unfold doc_count. rewrite G1, G2.
    apply Z.mul_pos_pos; eauto. }
  induction (shared_docs m1 m2) as [|d ds IH]; simpl.
  - split; [reflexivity | congruence].
  - split; [discriminate|]. intros _.
    assert (0 < doc_count m1 d * doc_count m2 d) by (apply Hin; now left).
    destruct ds as [|d' ds'].
    + simpl. lia.
    + assert (0 < fold_right Z.add 0
                    (map (fun d => doc_count m1 d * doc_count m2 d) (d' :: ds'))).
      { apply IH; [|discriminate]. intros x Hx. apply Hin. now right. }
      lia.
Qed.

Lemma score_value_score_of p f1 f2 :
  0 <= p -> 0 < f1 -> 0 < f2 ->
  score_value (score_of p f1 f2) = pmi p f1 f2.
Proof.
  intros Hp H1 H2. unfold score_of, pmi.
  destruct p as [|a|a]; [reflexivity| |lia].
  destruct f1 as [|b|b]; try lia. destruct f2 as [|c|c]; try lia.
  reflexivity.
Qed.

Lemma pair_value_scorable c1 c2 s :
  scorable s c1 -> scorable s c2 ->
  pair_value c1 c2 s =
  Ok (score_of (cooccurrence (docs_of s c1) (docs_of s c2))
        (count_of (word_counts s) c1) (count_of (word_counts s) c2), s).
Proof.
  intros (M1 & P1 & F1) (M2 & P2 & F2). unfold pair_value.
  destruct (mem_get_some _ _ M1) as [l1 E1].
  destruct (mem_get_some _ _ M2) as [l2 E2].
  rewrite (bind_ok _ _ _ _ _ (pair_count_present c1 c2 s l1 l2 E1 E2)).
  destruct (cooccurrence_nonneg _ _ P1 P2) as [Hz Hp].
  set (p := cooccurrence _ _) in *.
  destruct (shared_docs (docs_of s c1) (docs_of s c2)) as [|d ds].
  - rewrite Hz by reflexivity. reflexivity.
  - specialize (Hp ltac:(discriminate)).
    destruct p as [|a|a]; try lia. cbn [Z.eqb].
    unfold bind at 1, py_log at 1, ret at 1.
    assert (K1 : In c1 (Dict.keys (word_counts s))).
    { apply DictFacts.in_keys_get. unfold count_of in F1.
      destruct (Dict.get (word_counts s) c1); [discriminate | lia]. }
    assert (K2 : In c2 (Dict.keys (word_counts s))).
    { apply DictFacts.in_keys_get. unfold count_of in F2.
      destruct (Dict.get (word_counts s) c2); [discriminate | lia]. }
    rewrite (bind_ok _ _ _ _ _ (word_counts_getitem_present c1 s K1)).
    destruct (count_of (word_counts s) c1) as [|b|b]; try lia.
    unfold bind at 1, py_log at 1, ret at 1.
    rewrite (bind_ok _ _ _ _ _ (word_counts_getitem_present c2 s K2)).
    destruct (count_of (word_counts s) c2) as [|c|c]; try lia.
    reflexivity.
Qed.

Lemma scorable_set_scores s t c :
  scorable (set_current_batch_scores t s) c <-> scorable s c.
Proof. reflexivity. Qed.

Lemma make_pair_scores_scorable pairs s :
  (forall c1 c2, In (c1, c2) pairs -> scorable s c1 /\ scorable s c2) ->
  make_pair_scores pairs s =
  Ok (tt, set_current_batch_scores (scored s (current_batch_scores s) pairs) s).
Proof.
  unfold make_pair_scores.
  assert (G : forall t,
    (forall c1 c2, In (c1, c2) pairs -> scorable s c1 /\ scorable s c2) ->
    for_each pairs (fun '(c1, c2) => score_pair c1 c2)
      (set_current_batch_scores t s)
    = Ok (tt, set_current_batch_scores (scored s t pairs) s)).
  { induction pairs as [|[c1 c2] pairs IH]; intros t Hs.
    - reflexivity.
    - cbn [for_each scored fold_left].
      destruct (Hs c1 c2 (or_introl eq_refl)) as [S1 S2].
      unfold score_pair at 1. unfold bind at 1. unfold bind at 1.
      rewrite (pair_value_scorable c1 c2 (set_current_batch_scores t s)) by auto.
      rewrite scores_setitem_eq. proj.
      apply IH. intros a b Hab. apply Hs. now right. }
  intros Hs. rewrite <- (G (current_batch_scores s) Hs). f_equal.
  now destruct s.
Qed.

Lemma stored_scored s pairs t c1 c2 :
  In (c1, c2) pairs ->
  stored (scored s t pairs) c1 c2 =
  Some (score_of (cooccurrence (docs_of s c1) (docs_of s c2))
          (count_of (word_counts s) c1) (count_of (word_counts s) c2)).
Proof.
  unfold scored. revert t.
  induction pairs as [|[a b] pairs IH] using rev_ind; intros t Hin.
  - destruct Hin.
  - rewrite fold_left_app. cbn [fold_left]. rewrite stored_store.
    destruct (cid_eqb_spec a c1) as [->|Ha]; simpl.
    + destruct (cid_eqb_spec b c2) as [->|Hb]; auto.
      apply IH. apply in_app_iff in Hin as [H|[H|[]]]; [exact H | congruence].
    + apply IH. apply in_app_iff in Hin as [H|[H|[]]]; [exact H | congruence].
Qed.

(** C1.  For pairs of cluster ids present in the index and in the
    frequency table (with the positive counts and frequencies of the data
    model), [make_pair_scores] raises nothing, changes only the score
    table, and the score stored for each pair [(c1, c2)] of the iterator is
    [ln (sum over the shared documents of count1 * count2)
     - ln (freq c1) - ln (freq c2)],
    which is negative infinity when the two maps share no document. *)
Theorem pair_scores_formula s pairs :
  (forall c1 c2, In (c1, c2) pairs -> scorable s c1 /\ scorable s c2) ->
  exists t,
    make_pair_scores pairs s = Ok (tt, set_current_batch_scores t s)
    /\ forall c1 c2, In (c1, c2) pairs ->
         exists v,
           stored t c1 c2 = Some v
           /\ score_value v =
              pmi (cooccurrence (docs_of s c1) (docs_of s c2))
                (count_of (word_counts s) c1) (count_of (word_counts s) c2)
           /\ (shared_docs (docs_of s c1) (docs_of s c2) = [] -> v = NegInf).
Proof.
  intros Hs. eexists. split; [now apply make_pair_scores_scorable|].
  intros c1 c2 Hin. eexists. split; [now apply stored_scored|].
  destruct (Hs c1 c2 Hin) as [(_ & P1 & F1) (_ & P2 & F2)].
  destruct (cooccurrence_nonneg _ _ P1 P2) as [Hz Hp].
  split.
  - apply score_value_score_of; auto.
    destruct (shared_docs (docs_of s c1) (docs_of s c2)).
    + rewrite Hz; [lia | reflexivity].
    + apply Z.lt_le_incl, Hp. discriminate.
  - intros E. now rewrite (Hz E).
Qed.

Lemma scorableb_sound s c : scorableb s c = true -> scorable s c.
Proof.
  unfold scorableb, scorable. rewrite !andb_true_iff, forallb_forall.
  intros [[Hm Hp] Hf]. split; [exact Hm|]. split; [|now apply Z.ltb_lt].
  intros d n G. apply DictFacts.get_some_in in G.
  apply Z.ltb_lt. apply (Hp (d, n) G).
Qed.

Lemma pair_scores_formula_witness :
  exists t,
    make_pair_scores [(Word "dog", Word "cat"); (Word "cat", Word "bird")]
      scenario_start
    = Ok (tt, set_current_batch_scores t scenario_start)
    /\ forall c1 c2,
         In (c1, c2) [(Word "dog", Word "cat"); (Word "cat", Word "bird")] ->
         exists v,
           stored t c1 c2 = Some v
           /\ score_value v =
              pmi (cooccurrence (docs_of scenario_start c1)
                     (docs_of scenario_start c2))
                (count_of (word_counts scenario_start) c1)
                (count_of (word_counts scenario_start) c2)
           /\ (shared_docs (docs_of scenario_start c1)
                 (docs_of scenario_start c2) = [] -> v = NegInf).
Proof.
  apply pair_scores_formula.
  intros c1 c2 [[= <- <-]|[[= <- <-]|[]]];
    split; apply scorableb_sound; reflexivity.
Defined.

(** ** The score table *)

Lemma in_score_entries t a b v :
  In (a, b, v) (score_entries t) <-> exists row, In (a, row) t /\ In (b, v) row.
Proof.
  unfold score_entries. rewrite in_flat_map. split.
  - intros ([k row] & Hk & Hin). apply in_map_iff in Hin as ([k' v'] & E & Hin).
    injection E as -> -> ->. eauto.
  - intros (row & Hk & Hin). exists (a, row). split; auto.
    apply in_map_iff. exists (b, v). auto.
Qed.

Lemma in_dict_del {K V} {H : PyKey K} {HL : PyKeyLaws K} (d : Dict.t K V) k0 k v :
  In (k, v) (Dict.del d k0) -> k <> k0 /\ In (k, v) d.
Proof.
  unfold Dict.del. rewrite filter_In. simpl. intros [Hin Hk]. split; auto.
  intros ->. now rewrite key_eqb_refl in Hk.
Qed.

Lemma in_dict_get_row {V} (t : Dict.t cid V) k (dflt : V) :
  forall x, In x (match Dict.get t k with Some d => [d] | None => [] end) ->
            In (k, x) t.
Proof.
  intros x. destruct (Dict.get t k) eqn:G; [|intros []].
  intros [<-|[]]. now apply DictFacts.get_some_in.
Qed.

Lemma entries_store t c1 c2 v0 a b v :
  In (a, b, v) (score_entries (store t c1 c2 v0)) ->
  (a = c1 /\ b = c2) \/ In (a, b, v) (score_entries t).
Proof.
  rewrite !in_score_entries. intros (row & Hrow & Hin).
  unfold store in Hrow. apply in_dict_set in Hrow as [[-> ->]|Hrow].
  - apply in_dict_set in Hin as [[-> ->]|Hin]; auto.
    right. destruct (Dict.get t c1) eqn:G; [|destruct Hin].
    exists t0. split; auto. now apply DictFacts.get_some_in.
  - right. eauto.
Qed.

Lemma entries_purged t c a b v :
  In (a, b, v) (score_entries (purged t c)) ->
  In (a, b, v) (score_entries t) /\ a <> c /\ b <> c.
Proof.
  rewrite !in_score_entries. intros (row & Hrow & Hin).
  unfold purged in Hrow. apply in_map_iff in Hrow as ([k d] & E & Hk).
  injection E as -> <-. apply in_dict_del in Hin as [Hb Hin].
  destruct (Dict.mem t c) eqn:M.
  - apply in_dict_del in Hk as [Ha Hk]. eauto.
  - split; [eauto|]. split; auto. intros ->.
    apply DictFacts.mem_false_not_in in M. apply M.
    apply in_map_iff. exists (c, d). auto.
Qed.

Lemma score_pair_entries c1 c2 s s' a b v :
  score_pair c1 c2 s = Ok (tt, s') ->
  In (a, b, v) (score_entries (current_batch_scores s')) ->
  (a = c1 /\ b = c2) \/ In (a, b, v) (score_entries (current_batch_scores s)).
Proof.
  unfold score_pair. intros E. apply bind_inv in E as (v0 & s1 & E1 & E).
  apply pair_value_scores in E1. unfold same_on in E1.
  rewrite scores_setitem_eq in E. injection E as <-. proj.
  rewrite E1. apply entries_store.
Qed.

Lemma make_pair_scores_entries pairs s s' a b v :
  make_pair_scores pairs s = Ok (tt, s') ->
  In (a, b, v) (score_entries (current_batch_scores s')) ->
  In (a, b) pairs \/ In (a, b, v) (score_entries (current_batch_scores s)).
Proof.
  unfold make_pair_scores. intros E.
  revert a b v.
  eapply (for_each_preserves
           (fun s' => forall a b v,
              In (a, b, v) (score_entries (current_batch_scores s')) ->
              In (a, b) pairs
              \/ In (a, b, v) (score_entries (current_batch_scores s))));
    [| |exact E]; auto.
  intros [c1 c2] t t' Hin IH Et a b v Hab.
  destruct (score_pair_entries _ _ _ _ _ _ _ Et Hab) as [[-> ->]|H]; auto.
Qed.

(** ** [find_best] *)

Lemma find_best_loop_in {ML : MathLog} es best s r s' :
  fold_m find_best_step es best s = Ok (r, s') ->
  r = best \/ exists e, r = Some e /\ In e es.
Proof.
  revert best s. induction es as [|e es IH]; intros best s; simpl.
  - unfold ret. intros [= <- _]. now left.
  - intros E. apply bind_inv in E as (b1 & s1 & E1 & E2).
    assert (Hb : b1 = best \/ b1 = Some e).
    { unfold find_best_step in E1. destruct best as [[[x y] bs]|].
      - destruct (score_gtb _ _); [injection E1 as <- _; auto|].
        destruct (score_eqb _ _); [|injection E1 as <- _; auto].
        unfold bind, randint01 in E1.
        destruct (_ =? 1); injection E1 as <- _; auto.
      - injection E1 as <- _. auto. }
    destruct (IH _ _ E2) as [->|(e' & -> & He')].
    + destruct Hb as [->| ->]; [now left | right; eexists; split; eauto; now left].
    + right. eexists; split; [reflexivity | now right].
Qed.

(** The pair that [find_best] returns is an entry of the score table. *)
Lemma find_best_entry {ML : MathLog} s c1 c2 s' :
  find_best s = Ok (Some (c1, c2), s') ->
  exists v, In (c1, c2, v) (score_entries (current_batch_scores s)).
Proof.
  unfold find_best. unfold bind at 1, gets at 1. intros E.
  apply bind_inv in E as (best & s1 & E1 & E2).
  apply find_best_loop_in in E1 as [->|(e & -> & He)]; [discriminate|].
  destruct e as [[x y] v]. injection E2 as -> -> _. eauto.
Qed.

(** ** [update_batch] *)

Lemma update_batch_unfold c1 c2 s :
  update_batch c1 c2 s =
  (make_pair_scores (product (new_items s) (kept_batch c1 c2 s)) ;;
   make_pair_scores (combinations2 (new_items s)) ;;
   modify (fun s' => set_current_batch (current_batch s' ++ new_items s) s'))
    (set_word_queue (skipn 1 (word_queue s))
       (set_current_batch_scores
          (purged (purged (current_batch_scores s) c1) c2)
          (set_current_batch (kept_batch c1 c2 s) s))).
Proof.
  unfold update_batch, new_items, kept_batch, bind, modify, gets, ret,
    for_each, purge_scores, purged.
  destruct s as [bs nd cap ps cc h i ws wc bits batch t q r rp].
  proj. destruct q; reflexivity.
Qed.

(** ** The effects of one round *)

Lemma update_batch_inv c1 c2 s s' :
  update_batch c1 c2 s = Ok (tt, s') ->
  current_batch s' = kept_batch c1 c2 s ++ new_items s
  /\ word_queue s' = skipn 1 (word_queue s)
  /\ forall a b v,
       In (a, b, v) (score_entries (current_batch_scores s')) ->
       In (a, b) (product (new_items s) (kept_batch c1 c2 s))
       \/ In (a, b) (combinations2 (new_items s))
       \/ (In (a, b, v) (score_entries (current_batch_scores s))
           /\ a <> c1 /\ a <> c2 /\ b <> c1 /\ b <> c2).
Proof.
  rewrite update_batch_unfold. set (s0 := set_word_queue _ _).
  intros E. apply bind_inv in E as ([] & s1 & E1 & E).
  apply bind_inv in E as ([] & s2 & E2 & E).
  injection E as <-. proj.
  pose proof (make_pair_scores_frame _ _ _ _ E1) as F1.
  pose proof (make_pair_scores_frame _ _ _ _ E2) as F2.
  unfold same_on, outside_scoring in F1, F2.
  injection F1 as _ _ _ _ _ _ _ B1 Q1 _ _.
  injection F2 as _ _ _ _ _ _ _ B2 Q2 _ _.
  split; [|split].
  - rewrite B2, B1. reflexivity.
  - rewrite Q2, Q1. reflexivity.
  - intros a b v Hin.
    destruct (make_pair_scores_entries _ _ _ _ _ _ E2 Hin) as [H|H]; auto.
    destruct (make_pair_scores_entries _ _ _ _ _ _ E1 H) as [H'|H']; auto.
    right; right. subst s0; proj.
    apply entries_purged in H' as (H' & A2 & B2').
    apply entries_purged in H' as (H' & A1 & B1'). auto.
Qed.

Lemma merge_tail_hierarchy c1 c2 c_new :
  preserves (same_on (fun s => (cluster_parents s, cluster_bits s)))
    (merge_index c1 c2 c_new ;; merge_counts c1 c2 c_new ;; merge_release c1 c2).
Proof. frame. Qed.

Lemma merge_hierarchy_inv c1 c2 s s' :
  merge c1 c2 s = Ok (tt, s') ->
  cluster_parents s' =
    Dict.set (Dict.set (cluster_parents s) c1 (Merged (cluster_counter s)))
      c2 (Merged (cluster_counter s))
  /\ cluster_bits s' =
    Dict.set (Dict.set (cluster_bits s) c1 (py_str (child_bit s)))
      c2 (py_str (1 - child_bit s)).
Proof.
  unfold merge. unfold bind at 1, gets at 1.
  rewrite (bind_ok _ _ _ _ _ (merge_hierarchy_eq c1 c2 _ s)).
  intros E. apply merge_tail_hierarchy in E. unfold same_on in E.
  injection E as -> ->. auto.
Qed.

Lemma py_str_bit_length b : String.length (py_str (Z.b2z b)) = 1%nat
                            /\ String.length (py_str (1 - Z.b2z b)) = 1%nat.
Proof. destruct b; split; reflexivity. Qed.

(** ** The states of a run *)

Lemma in_product {A B} (a : list A) (b : list B) x y :
  In (x, y) (product a b) <-> In x a /\ In y b.
Proof.
  unfold product. rewrite in_flat_map. split.
  - intros (x' & Hx & Hin). apply in_map_iff in Hin as (y' & [= -> ->] & Hy). auto.
  - intros [Hx Hy]. exists x. split; auto. apply in_map_iff. eauto.
Qed.

Lemma in_combinations2 {A} (l : list A) x y :
  In (x, y) (combinations2 l) -> In x l /\ In y l /\ (NoDup l -> x <> y).
Proof.
  induction l as [|a l IH]; simpl; [tauto|].
  rewrite in_app_iff, in_map_iff. intros [(y' & [= -> ->] & Hy)|H].
  - split; [auto|split; [auto|]]. intros Hnd. inversion Hnd; subst.
    intros ->. contradiction.
  - destruct (IH H) as (Hx & Hy & Hne). split; [auto|split; [auto|]].
    intros Hnd. inversion Hnd; auto.
Qed.

Lemma in_kept_batch c1 c2 s x :
  In x (kept_batch c1 c2 s) <-> In x (current_batch s) /\ x <> c1 /\ x <> c2.
Proof.
  unfold kept_batch. rewrite filter_In.
  destruct (cid_eqb_spec x c1), (cid_eqb_spec x c2); simpl; intuition congruence.
Qed.

Lemma firstn_skipn_1 {A} (l : list A) : firstn 1 l ++ skipn 1 l = l.
Proof. apply firstn_skipn. Qed.

Lemma in_firstn_1 {A} (l : list A) x : In x (firstn 1 l) -> In x l.
Proof. destruct l; simpl; tauto. Qed.

(** What a successful round does, field by field. *)
Lemma round_facts {ML : MathLog} s s' :
  merge_round s = Ok (tt, s') ->
  exists c1 c2,
    (exists v, In (c1, c2, v) (score_entries (current_batch_scores s)))
    /\ cluster_counter s' = S (cluster_counter s)
    /\ words s' = words s
    /\ current_batch s' = kept_batch c1 c2 s ++ new_items s
    /\ word_queue s' = skipn 1 (word_queue s)
    /\ (forall a b v,
          In (a, b, v) (score_entries (current_batch_scores s')) ->
          In (a, b) (product (new_items s) (kept_batch c1 c2 s))
          \/ In (a, b) (combinations2 (new_items s))
          \/ (In (a, b, v) (score_entries (current_batch_scores s))
              /\ a <> c1 /\ a <> c2 /\ b <> c1 /\ b <> c2))
    /\ cluster_parents s' =
       Dict.set (Dict.set (cluster_parents s) c1 (Merged (cluster_counter s)))
         c2 (Merged (cluster_counter s))
    /\ (exists r, cluster_bits s' =
                  Dict.set (Dict.set (cluster_bits s) c1 (py_str (Z.b2z r)))
                    c2 (py_str (1 - Z.b2z r)))
    /\ (forall w, In w (words s) -> w <> Merged (cluster_counter s) ->
                  count_of (word_counts s') w = count_of (word_counts s) w).
Proof.
  unfold merge_round. intros E.
  apply bind_inv in E as (best & s1 & E1 & E).
  destruct best as [[c1 c2]|]; [|discriminate].
  apply bind_inv in E as ([] & s2 & E2 & E).
  apply bind_inv in E as ([] & s3 & E3 & E).
  injection E as <-. proj.
  exists c1, c2.
  pose proof (find_best_entry _ _ _ _ E1) as Hentry.
  apply find_best_frame in E1. unfold same_on, outside_rng_pos in E1.
  injection E1 as _ _ _ P1 C1 _ _ W1 WC1 B1 CB1 T1 Q1 _.
  pose proof (merge_hierarchy_inv _ _ _ _ E2) as [HP HB].
  pose proof (fun w => merge_keeps_word_counts _ _ _ _ w E2) as HW.
  apply merge_frame in E2. unfold same_on, outside_merge in E2.
  injection E2 as _ _ _ C2 W2 CB2 T2 Q2 _.
  pose proof (update_batch_inv _ _ _ _ E3) as (HB3 & HQ3 & HT3).
  pose proof (update_batch_counts _ _ _ _ _ E3) as HC3.
  apply update_batch_frame in E3. unfold same_on, outside_batch in E3.
  injection E3 as _ _ _ P3 C3 W3 B3 _ _.
  assert (K : kept_batch c1 c2 s2 = kept_batch c1 c2 s)
    by (unfold kept_batch; now rewrite CB2, CB1).
  assert (N : new_items s2 = new_items s)
    by (unfold new_items; now rewrite C2, C1, Q2, Q1).
  rewrite K, N in *.
  repeat split.
  - exact Hentry.
  - now rewrite C3, C2, C1.
  - now rewrite W3, W2, W1.
  - exact HB3.
  - now rewrite HQ3, Q2, Q1.
  - intros a b v Hin. destruct (HT3 a b v Hin) as [H|[H|(H & Hn)]]; auto.
    right; right. split; auto. now rewrite <- T1, <- T2.
  - now rewrite P3, HP, P1, C1.
  - exists (rng s1 (rng_pos s1)). now rewrite B3, HB, B1.
  - intros w Hw Hn. rewrite HC3. rewrite HW.
    + now rewrite WC1.
    + now rewrite W1.
    + now rewrite C1.
Qed.

Lemma round_batch_wf {ML : MathLog} s s' :
  batch_wf s -> merge_round s = Ok (tt, s') -> batch_wf s'.
Proof.
  intros [Hnd Hfresh Hsc] E.
  destruct (round_facts _ _ E)
    as (c1 & c2 & [v0 He] & HC & _ & HB & HQ & HT & _).
  destruct (Hsc _ _ _ He) as (I1 & I2 & Hne).
  assert (Hnew : ~ In (Merged (cluster_counter s)) (current_batch s ++ word_queue s)).
  { intros H. apply Hfresh in H. lia. }
  assert (Hkept : forall x, In x (kept_batch c1 c2 s) -> In x (current_batch s)).
  { intros x Hx. now apply in_kept_batch in Hx. }
  assert (Hall : Permutation (current_batch s' ++ word_queue s')
                   (Merged (cluster_counter s)
                    :: kept_batch c1 c2 s ++ word_queue s)).
  { rewrite HB, HQ. unfold new_items. rewrite <- app_assoc. cbn [app].
    rewrite firstn_skipn_1. symmetry. apply Permutation_middle. }
  assert (Hnd' : NoDup (kept_batch c1 c2 s ++ word_queue s)).
  { apply NoDup_app_remove_l in Hnd as Hq.
    apply NoDup_app_remove_r in Hnd as Hb.
    apply NoDup_app; auto.
    - unfold kept_batch. now apply NoDup_filter.
    - intros x Hx Hx'. apply Hkept in Hx.
      revert Hx Hx'. clear - Hnd.
      induction (current_batch s) as [|y l IH]; simpl in *; [tauto|].
      inversion Hnd; subst. intros [->|Hx] Hq.
      + apply H1. apply in_app_iff. now right.
      + now apply IH. }
  constructor.
  - eapply Permutation_NoDup; [symmetry; exact Hall|].
    constructor; auto. intros H. apply Hnew.
    apply in_app_iff in H as [H|H]; apply in_app_iff; auto.
  - intros k Hk. rewrite HC.
    eapply Permutation_in in Hk; [|exact Hall].
    destruct Hk as [[= <-]|Hk]; [lia|].
    assert (In (Merged k) (current_batch s ++ word_queue s)).
    { apply in_app_iff in Hk as [H|H]; apply in_app_iff; auto. }
    apply Hfresh in H. lia.
  - intros a b v Hin. rewrite HB.
    assert (Hq : forall x, In x (firstn 1 (word_queue s)) ->
                           ~ In x (current_batch s)
                           /\ x <> Merged (cluster_counter s)).
    { intros x Hx. apply in_firstn_1 in Hx. split.
      - intros Hb. clear - Hnd Hx Hb.
        induction (current_batch s) as [|y l IH]; simpl in *; [tauto|].
        inversion Hnd; subst. destruct Hb as [->|Hb].
        + apply H1. apply in_app_iff. now right.
        + now apply IH.
      - intros ->. apply Hnew. apply in_app_iff. now right. }
    destruct (HT a b v Hin) as [H|[H|(H & A1 & A2 & B1 & B2)]].
    + apply in_product in H as [Ha Hb].
      split; [apply in_app_iff; now right|].
      split; [apply in_app_iff; now left|].
      intros ->. apply Hkept in Hb.
      destruct Ha as [<-|Ha].
      * apply Hnew. apply in_app_iff. now left.
      * now apply Hq in Ha.
    + unfold new_items in *.
      destruct (word_queue s) as [|w q]; simpl in H; [destruct H|].
      destruct H as [[= <- <-]|[]].
      split; [apply in_app_iff; right; now left|].
      split; [apply in_app_iff; right; right; now left|].
      intros <-. destruct (Hq (Merged (cluster_counter s))) as [_ Hc].
      { now left. }
      now apply Hc.
    + destruct (Hsc _ _ _ H) as (Ia & Ib & Hab).
      split; [apply in_app_iff; left; now apply in_kept_batch|].
      split; [apply in_app_iff; left; now apply in_kept_batch|]. exact Hab.
Qed.

Lemma round_hier_wf {ML : MathLog} s s' :
  batch_wf s -> hier_wf s -> merge_round s = Ok (tt, s') -> hier_wf s'.
Proof.
  intros [Hnd Hfresh Hsc] Hh E.
  destruct (round_facts _ _ E)
    as (c1 & c2 & [v0 He] & HC & _ & _ & _ & _ & HP & [r HB] & _).
  destruct (Hsc _ _ _ He) as (I1 & I2 & Hne).
  assert (Hold : forall c j, In c (current_batch s) -> c = Merged j ->
                             (j < cluster_counter s)%nat).
  { intros c j Hc ->. apply Hfresh. apply in_app_iff. now left. }
  destruct (py_str_bit_length r) as [L1 L2].
  intros c p. rewrite HP, HB, HC.
  destruct (cid_eqb_spec c2 c) as [<-|N2].
  - rewrite !DictFacts.get_set_eq. intros [= <-].
    exists (cluster_counter s). repeat split; eauto.
  - rewrite !(DictFacts.get_set_ne (H := cid_key) _ c2) by auto.
    destruct (cid_eqb_spec c1 c) as [<-|N1].
    + rewrite !DictFacts.get_set_eq. intros [= <-].
      exists (cluster_counter s). repeat split; eauto.
    + rewrite !(DictFacts.get_set_ne (H := cid_key) _ c1) by auto.
      intros G. destruct (Hh _ _ G) as (k & -> & Hk & Hj & Hb).
      exists k. repeat split; auto.
Qed.

Lemma round_counts_wf {ML : MathLog} docs s s' :
  counts_wf docs s -> merge_round s = Ok (tt, s') -> counts_wf docs s'.
Proof.
  intros Hc E.
  destruct (round_facts _ _ E)
    as (c1 & c2 & _ & _ & HW & _ & _ & _ & _ & _ & HK).
  intros c Hin. rewrite HW in Hin.
  destruct (Hc c Hin) as (w & -> & Hw).
  exists w. split; auto. rewrite HK; auto. discriminate.
Qed.

(** *** The state before the loop *)

Lemma slice_app {A} (l : list A) k : slice_to l k ++ slice_from l k = l.
Proof. apply firstn_skipn. Qed.

Lemma setup_inv docs bs cap r s :
  setup docs (new_state bs cap r) = Ok (tt, s) ->
  batch_wf s /\ hier_wf s /\ counts_wf docs s.
Proof.
  unfold setup. intros E.
  apply bind_inv in E as ([] & s1 & E1 & E).
  apply bind_inv in E as ([] & s2 & E2 & E).
  unfold bind at 1, modify at 1 in E. unfold bind at 1, modify at 1 in E.
  unfold bind at 1, gets at 1 in E. proj.
  apply bind_inv in E as ([] & s3 & E3 & E).
  injection E as <-. proj.
  (* the index *)
  assert (Hne : docs <> []) by (intros ->; discriminate).
  destruct (new_state_indexable bs cap r) as [Hv Hk].
  destruct (create_index_ok _ docs Hne Hv Hk) as (s1' & E1' & (h & i & -> & _ & Hki)).
  rewrite E1' in E1. injection E1 as <-.
  cbn [new_state word_counts] in *.
  set (wc0 := counted [] (List.concat docs)) in *.
  (* the vocabulary *)
  destruct (create_vocab_inv _ _ E2) as ((i2 & wc2 & Es2) & (rare & Hws) & Hget).
  proj.
  assert (Hwords : forall c, In c (words s2) -> In c (Dict.keys wc0)).
  { intros c Hc. rewrite Hws in Hc. apply filter_In in Hc as [Hc _].
    eapply Permutation_in; [apply sorted_desc_perm | exact Hc]. }
  assert (Hndw : NoDup (words s2)).
  { rewrite Hws. apply NoDup_filter.
    eapply Permutation_NoDup; [symmetry; apply sorted_desc_perm|].
    apply nodup_keys_counted. constructor. }
  assert (Hword : forall c, In c (words s2) -> exists w, c = Word w).
  { intros c Hc. apply Hwords, in_keys_counted in Hc as [[]|(w & -> & _)]. eauto. }
  (* the first scores *)
  pose proof (make_pair_scores_frame _ _ _ _ E3) as F3.
  pose proof (make_pair_scores_counts _ _ _ _ E3) as C3.
  unfold same_on, outside_scoring in F3. proj.
  injection F3 as BS3 _ _ P3 K3 W3 B3 CB3 Q3 _ _.
  assert (Hs2 : cluster_parents s2 = [] /\ cluster_counter s2 = 0%nat
                /\ current_batch_scores s2 = []).
  { rewrite Es2. proj. auto. }
  destruct Hs2 as (P2 & K2 & T2).
  split; [|split].
  - constructor; proj.
    + rewrite CB3, Q3, BS3. proj. rewrite slice_app. exact Hndw.
    + rewrite CB3, Q3, BS3. proj. rewrite slice_app. intros k Hmk.
      apply Hword in Hmk as [w Hmk]. discriminate.
    + intros a b v Hin.
      destruct (make_pair_scores_entries _ _ _ _ _ _ E3 Hin) as [H|H].
      * proj. rewrite CB3.
        apply in_combinations2 in H as (Ha & Hb & Hab).
        split; auto. split; auto. apply Hab.
        unfold slice_to. rewrite <- (firstn_skipn (slice_bound (words s2) (batch_size s2 + 1)) (words s2)) in Hndw.
        now apply NoDup_app_remove_r in Hndw.
      * proj. rewrite T2 in H. destruct H.
  - intros c p. proj. rewrite P3, P2. discriminate.
  - intros c Hc. proj. rewrite W3 in Hc.
    destruct (Hword c Hc) as [w ->]. exists w. split; auto.
    rewrite C3. proj. unfold count_of. rewrite (proj1 (Hget _ Hc)). proj.
    fold (count_of wc0 (Word w)). unfold wc0. now rewrite count_of_counted.
Qed.

Lemma reachable_inv {ML : MathLog} docs bs cap r s :
  reachable docs bs cap r s -> batch_wf s /\ hier_wf s /\ counts_wf docs s.
Proof.
  induction 1 as [s E|s s' Hr (Hb & Hh & Hc) Hlen E].
  - eapply setup_inv; eauto.
  - split; [|split].
    + eapply round_batch_wf; eauto.
    + eapply round_hier_wf; eauto.
    + eapply round_counts_wf; eauto.
Qed.

(** The final state of [__init__] is one of these states. *)
Lemma merge_loop_reachable {ML : MathLog} docs bs cap r fuel s s' :
  reachable docs bs cap r s -> merge_loop fuel s = Some (Ok s') ->
  reachable docs bs cap r s'.
Proof.
  revert s. induction fuel as [|fuel IH]; intros s Hr; simpl.
  - destruct (_ <? _)%nat; [discriminate|]. now intros [= <-].
  - destruct (1 <? _)%nat eqn:L; [|now intros [= <-]].
    destruct (merge_round s) as [[[] s1]|e] eqn:E; [|discriminate].
    apply IH. eapply reach_round; eauto. now apply Nat.ltb_lt.
Qed.

Lemma init_reachable {ML : MathLog} docs bs cap r fuel s :
  init fuel docs bs cap r = Some (Ok s) -> reachable docs bs cap r s.
Proof.
  unfold init. destruct (setup docs _) as [[[] s0]|e] eqn:E; [|discriminate].
  apply merge_loop_reachable. now constructor.
Qed.

(** *** The scenario, as a run *)

Lemma scenario_start_reachable :
  reachable (ML := scenario_log) scenario_docs 10 None (fun _ => false) scenario_start.
Proof. apply reach_setup. vm_compute. reflexivity. Qed.

Lemma scenario_round_ok : merge_round (ML := scenario_log) scenario_start = Ok (tt, scenario_round).
Proof. vm_compute. reflexivity. Qed.

Lemma scenario_final_reachable :
  reachable (ML := scenario_log) scenario_docs 10 None (fun _ => false) scenario_final.
Proof. apply (init_reachable _ _ _ _ 5%nat). vm_compute. reflexivity. Qed.

(** ** The population of the batch and the backlog *)

Lemma length_filter_two (l : list cid) c1 c2 :
  NoDup l -> In c1 l -> In c2 l -> c1 <> c2 ->
  (List.length (filter (fun x => negb (cid_eqb x c1 || cid_eqb x c2)) l) + 2
   = List.length l)%nat.
Proof.
  intros Hnd H1 H2 Hne.
  set (q := fun x => cid_eqb x c1 || cid_eqb x c2).
  assert (L : List.length (filter q l) = 2%nat).
  { apply (Permutation_length (l' := [c1; c2])), NoDup_Permutation.
    - now apply NoDup_filter.
    - repeat constructor; simpl; intuition congruence.
    - intros x. rewrite filter_In. unfold q. simpl.
      destruct (cid_eqb_spec x c1), (cid_eqb_spec x c2); simpl;
        intuition congruence. }
  pose proof (filter_length q l) as F. rewrite L in F.
  change (fun x => negb (cid_eqb x c1 || cid_eqb x c2))
    with (fun x => negb (q x)). lia.
Qed.

(** ** The index of a run *)

Lemma index_wf_same s s' :
  index s' = index s -> heap s' = heap s -> index_wf s -> index_wf s'.
Proof.
  intros Hi Hh [V I Mp]. constructor.
  - intros c l. rewrite Hi, Hh. apply V.
  - intros c c' l. rewrite Hi. apply I.
  - intros c l. rewrite Hi, Hh. apply Mp.
Qed.

Lemma nth_app_empty (h : list docmap) l : nth l (h ++ [[]]) [] = nth l h [].
Proof.
  destruct (Nat.lt_ge_cases l (List.length h)) as [L|L].
  - now apply app_nth1.
  - rewrite (nth_overflow h) by lia. rewrite app_nth2 by lia.
    destruct (l - List.length h)%nat as [|[|k]]; reflexivity.
Qed.

Lemma touch_wf c s : index_wf s -> index_wf (touch c s).
Proof.
  intros [V I Mp]. unfold touch.
  destruct (Dict.get (index s) c) eqn:G; [now constructor|].
  constructor; proj.
  - apply (touch_valid c s) in V. unfold touch in V. now rewrite G in V.
  - intros a b l.
    destruct (cid_eqb_spec c a) as [<-|Na], (cid_eqb_spec c b) as [<-|Nb];
      rewrite ?DictFacts.get_set_eq, ?(DictFacts.get_set_ne (H := cid_key)) by auto;
      auto.
    + intros [= <-] Hb. apply V in Hb. lia.
    + intros Ha [= <-]. apply V in Ha. lia.
    + apply I.
  - intros a l. rewrite nth_app_empty.
    destruct (cid_eqb_spec c a) as [<-|Na].
    + rewrite DictFacts.get_set_eq. intros [= <-].
      rewrite nth_overflow by lia. split; [constructor | intros d n; discriminate].
    + rewrite (DictFacts.get_set_ne (H := cid_key)) by auto. apply Mp.
Qed.

(** Replacing the content of one dict object by a well-formed map. *)
Lemma index_wf_update s l m :
  index_wf s -> NoDup (Dict.keys m) -> positive_counts m ->
  index_wf (set_heap (list_update (heap s) l m) s).
Proof.
  intros [V I Mp] Hnd Hp. constructor; proj.
  - intros c l' G. proj. rewrite length_list_update. now apply V in G.
  - exact I.
  - intros c l' G. proj. destruct (Nat.eq_dec l l') as [<-|Hne].
    + rewrite nth_list_update_eq by (now apply V in G). auto.
    + rewrite nth_list_update_ne by auto. eapply Mp; eauto.
Qed.

Lemma ensure_keys m d : NoDup (Dict.keys m) -> NoDup (Dict.keys (ensure m d)).
Proof.
  unfold ensure. destruct (Dict.mem m d); auto. apply DictFacts.nodup_keys_set.
Qed.

Lemma ensure_get_ne m d d' : d <> d' -> Dict.get (ensure m d) d' = Dict.get m d'.
Proof.
  intros Hne. unfold ensure. destruct (Dict.mem m d); auto.
  now rewrite (DictFacts.get_set_ne (H := nat_key)) by auto.
Qed.

Lemma ensure_count_nonneg m d :
  positive_counts m -> 0 <= doc_count (ensure m d) d.
Proof.
  intros Hp. unfold ensure, doc_count, Dict.mem.
  destruct (Dict.get m d) eqn:G.
  - rewrite G. apply Hp in G. lia.
  - rewrite DictFacts.get_set_eq. lia.
Qed.

(** Adding [v > 0] to the count of a document keeps a map well formed. *)
Lemma add_count_wf m d v :
  NoDup (Dict.keys m) -> positive_counts m -> 0 < v ->
  NoDup (Dict.keys (Dict.set (ensure m d) d (doc_count (ensure m d) d + v)))
  /\ positive_counts (Dict.set (ensure m d) d (doc_count (ensure m d) d + v)).
Proof.
  intros Hnd Hp Hv. split.
  - apply DictFacts.nodup_keys_set. now apply ensure_keys.
  - intros d' n. destruct (Nat.eq_dec d d') as [<-|Hne].
    + rewrite DictFacts.get_set_eq. intros [= <-].
      pose proof (ensure_count_nonneg m d Hp). lia.
    + rewrite (DictFacts.get_set_ne (H := nat_key)), ensure_get_ne by auto.
      apply Hp.
Qed.

Lemma index_token_present_eq doc_id w s l :
  Dict.get (index s) (Word w) = Some l ->
  (l < List.length (heap s))%nat ->
  index_token doc_id w s =
  Ok (tt, set_word_counts (bump (word_counts s) (Word w))
            (set_heap
               (list_update (heap s) l
                  (Dict.set (ensure (nth l (heap s) []) doc_id) doc_id
                     (doc_count (ensure (nth l (heap s) []) doc_id) doc_id + 1)))
               s)).
Proof.
  intros E Hl. unfold index_token.
  rewrite (bind_ok _ _ _ _ _ (ensure_doc_present _ doc_id _ _ E)).
  set (s1 := set_heap _ s).
  assert (E1 : Dict.get (index s1) (Word w) = Some l) by exact E.
  assert (H1 : nth l (heap s1) [] = ensure (nth l (heap s) []) doc_id).
  { subst s1. proj. now apply nth_list_update_eq. }
  destruct (mem_get_some (nth l (heap s1) []) doc_id) as [n Hn].
  { rewrite H1. apply ensure_has. }
  rewrite (bind_ok _ _ _ _ _
             (index_iadd_present _ doc_id (ret 1) _ _ n 1 E1 Hn eq_refl)).
  rewrite word_counts_incr_eq. rewrite H1 in *. subst s1. proj.
  rewrite list_update_update. unfold doc_count. rewrite Hn. reflexivity.
Qed.

Lemma index_token_wf doc_id w s s' :
  index_wf s -> index_token doc_id w s = Ok (tt, s') -> index_wf s'.
Proof.
  intros Hwf. rewrite index_token_touch.
  apply (touch_wf (Word w)) in Hwf.
  pose proof (touch_present (Word w) s) as E.
  rewrite (index_token_present_eq doc_id w _ _ E)
    by (eapply iw_valid; eauto).
  intros [= <-].
  destruct (iw_maps _ Hwf _ _ E) as [Hnd Hp].
  destruct (add_count_wf _ doc_id 1 Hnd Hp ltac:(lia)) as [Hnd' Hp'].
  eapply index_wf_same; [| |apply (index_wf_update _ (loc_of (Word w) s) _ Hwf Hnd' Hp')];
    reflexivity.
Qed.

Lemma create_index_wf docs s s' :
  index_wf s -> create_index docs s = Ok (tt, s') -> index_wf s'.
Proof.
  intros Hwf E. unfold create_index in E.
  apply bind_inv in E as ([] & s1 & E1 & E).
  assert (H1 : index_wf s1).
  { eapply (for_each_preserves index_wf); [|exact Hwf|exact E1].
    intros [d doc] t t' _ Ht Et.
    eapply (for_each_preserves index_wf); [|exact Ht|exact Et].
    intros w u u' _. apply index_token_wf. }
  destruct (last_doc_id docs); [|discriminate].
  injection E as <-. eapply index_wf_same; [| |exact H1]; reflexivity.
Qed.

#[export] Instance sub_index_refl : Reflexive sub_index.
Proof. intros s. split; auto. Qed.

#[export] Instance sub_index_trans : Transitive sub_index.
Proof.
  intros s1 s2 s3 [H1 B1] [H2 B2]. split; [congruence | auto].
Qed.

Lemma index_delitem_sub c : preserves sub_index (index_delitem c).
Proof.
  intros s [] s' E. unfold index_delitem in E.
  destruct (Dict.mem (index s) c); [|discriminate]. injection E as <-.
  split; [reflexivity|]. intros c' l. proj.
  destruct (cid_eqb_spec c c') as [<-|Hne].
  - now rewrite DictFacts.get_del_eq.
  - now rewrite (DictFacts.get_del_ne (H := cid_key)) by auto.
Qed.

Lemma word_counts_sub :
  (forall c, preserves sub_index (word_counts_getitem c))
  /\ (forall c, preserves sub_index (word_counts_delitem c)).
Proof.
  split.
  - intros c s a s' E. unfold word_counts_getitem in E.
    destruct (Dict.get (word_counts s) c); injection E as <- <-;
      (split; [reflexivity | intros c' l G; exact G]).
  - intros c s [] s' E. unfold word_counts_delitem in E.
    destruct (Dict.mem (word_counts s) c); [|discriminate].
    injection E as <-.
    split; [reflexivity | intros c' l G; exact G].
Qed.

Lemma create_vocab_sub : preserves sub_index create_vocab.
Proof.
  destruct word_counts_sub as [Hg Hd].
  unfold create_vocab.
  apply preserves_bind; [typeclasses eauto | apply preserves_gets; typeclasses eauto|].
  intros wc.
  apply preserves_bind; [typeclasses eauto | |].
  { apply preserves_modify. intros s.
    split; [reflexivity | intros c' l G; exact G]. }
  intros _. apply preserves_bind; [typeclasses eauto | apply preserves_gets; typeclasses eauto|].
  intros [n|]; [|apply preserves_ret; typeclasses eauto].
  destruct (n <? _); [|apply preserves_ret; typeclasses eauto].
  apply preserves_bind; [typeclasses eauto | apply preserves_list_getitem; typeclasses eauto|].
  intros w. apply preserves_bind; [typeclasses eauto | apply Hg|].
  intros f. apply preserves_bind; [typeclasses eauto | apply preserves_list_getitem; typeclasses eauto|].
  intros w0. apply preserves_bind; [typeclasses eauto | apply Hg|].
  intros f0. apply preserves_bind; [typeclasses eauto | apply preserves_gets; typeclasses eauto|].
  intros wc'. apply preserves_bind; [typeclasses eauto | |].
  { apply preserves_modify. intros s.
    split; [reflexivity | intros c' l G; exact G]. }
  intros _. apply preserves_bind; [typeclasses eauto | apply preserves_gets; typeclasses eauto|].
  intros ks. apply preserves_for_each; [typeclasses eauto | typeclasses eauto|].
  intros key. unfold prune_key. destruct (cid_in key _).
  - apply preserves_ret; typeclasses eauto.
  - apply preserves_bind; [typeclasses eauto | apply index_delitem_sub|].
    intros _. apply Hd.
Qed.

Lemma index_wf_sub s s' : sub_index s s' -> index_wf s -> index_wf s'.
Proof.
  intros [Hh Hb] [V I Mp]. constructor.
  - intros c l G. rewrite Hh. eapply V; eauto.
  - intros c c' l G G'. eapply I; eauto.
  - intros c l G. rewrite Hh. eapply Mp; eauto.
Qed.

(** ** [merge] on the index of a run *)

Lemma merge_explicit s c1 c2 l1 l2 :
  Dict.get (index s) c1 = Some l1 -> Dict.get (index s) c2 = Some l2 ->
  (l1 < List.length (heap s))%nat ->
  c1 <> c2 -> l1 <> l2 ->
  c1 <> Merged (cluster_counter s) -> c2 <> Merged (cluster_counter s) ->
  merge c1 c2 s = Ok (tt, merged c1 c2 l1 l2 s).
Proof.
  intros E1 E2 Hlen1 Hc Hl Hn1 Hn2.
  set (cn := Merged (cluster_counter s)) in *.
  unfold merge. unfold bind at 1, gets at 1. fold cn.
  rewrite (bind_ok _ _ _ _ _ (merge_hierarchy_eq c1 c2 cn s)).
  set (s1 := after_hierarchy c1 c2 cn s).
  rewrite (bind_ok _ _ _ _ _
             (merge_index_present c1 c2 cn s1 l1 l2 E1 E2 Hn2 Hl Hlen1)).
  set (s2 := set_heap _ _).
  rewrite (bind_ok _ _ _ _ _ (merge_counts_eq c1 c2 cn s2)).
  set (s3 := set_word_counts _ s2).
  destruct (merge_release_present c1 c2 s3) as [s' E]; auto.
  { subst s3 s2; proj. apply DictFacts.mem_in_keys, DictFacts.in_keys_set. right.
    apply DictFacts.in_keys_get. subst s1; unfold after_hierarchy; proj. congruence. }
  { subst s3 s2; proj. apply DictFacts.mem_in_keys, DictFacts.in_keys_set. right.
    apply DictFacts.in_keys_get. subst s1; unfold after_hierarchy; proj. congruence. }
  { subst s3; proj. apply DictFacts.mem_in_keys, DictFacts.in_keys_set. right.
    apply in_keys_wc_touch. right. apply in_keys_wc_touch. now left. }
  { subst s3; proj. apply DictFacts.mem_in_keys, DictFacts.in_keys_set. right.
    apply in_keys_wc_touch. now left. }
  rewrite E. apply merge_release_inv in E. subst s'. reflexivity.
Qed.

Lemma get_merged_index (idx : Dict.t cid nat) c_new l1 c1 c2 c :
  Dict.get (Dict.del (Dict.del (Dict.set idx c_new l1) c1) c2) c =
  if cid_eqb c2 c then None
  else if cid_eqb c1 c then None
  else if cid_eqb c_new c then Some l1
  else Dict.get idx c.
Proof.
  destruct (cid_eqb_spec c2 c) as [<-|N2]; [apply DictFacts.get_del_eq|].
  rewrite (DictFacts.get_del_ne (H := cid_key)) by auto.
  destruct (cid_eqb_spec c1 c) as [<-|N1]; [apply DictFacts.get_del_eq|].
  rewrite (DictFacts.get_del_ne (H := cid_key)) by auto.
  destruct (cid_eqb_spec c_new c) as [<-|Nn]; [apply DictFacts.get_set_eq|].
  now rewrite (DictFacts.get_set_ne (H := cid_key)) by auto.
Qed.

Lemma fold_add_doc_wf m2 ds acc :
  positive_counts m2 -> (forall d, In d ds -> In d (Dict.keys m2)) ->
  NoDup (Dict.keys acc) -> positive_counts acc ->
  NoDup (Dict.keys (fold_left (add_doc m2) ds acc))
  /\ positive_counts (fold_left (add_doc m2) ds acc).
Proof.
  intros Hp2. revert acc. induction ds as [|d ds IH]; intros acc Hin Hnd Hp.
  - auto.
  - cbn [fold_left].
    assert (Hv : 0 < doc_count m2 d).
    { destruct (mem_get_some m2 d) as [n G].
      - apply DictFacts.mem_in_keys, Hin. now left.
      - unfold doc_count. rewrite G. eapply Hp2; eauto. }
    destruct (add_count_wf acc d _ Hnd Hp Hv) as [Hnd' Hp'].
    apply IH; auto. intros d' Hd'. apply Hin. now right.
Qed.

Lemma merged_wf s c1 c2 l1 l2 :
  index_wf s ->
  Dict.get (index s) c1 = Some l1 -> Dict.get (index s) c2 = Some l2 ->
  c1 <> c2 ->
  index_wf (merged c1 c2 l1 l2 s).
Proof.
  intros Hwf E1 E2 Hc. pose proof Hwf as [V I Mp].
  destruct (Mp _ _ E1) as [Hnd1 Hp1]. destruct (Mp _ _ E2) as [Hnd2 Hp2].
  destruct (fold_add_doc_wf (nth l2 (heap s) []) (Dict.keys (nth l2 (heap s) []))
              (nth l1 (heap s) []) Hp2 (fun d H => H) Hnd1 Hp1) as [Hnd Hp].
  pose proof (V _ _ E1) as Hlen1.
  assert (Hold : forall c l,
            Dict.get (index (merged c1 c2 l1 l2 s)) c = Some l ->
            (c = Merged (cluster_counter s) /\ l = l1)
            \/ (c <> c1 /\ Dict.get (index s) c = Some l)).
  { intros c l. unfold merged, after_hierarchy. proj. rewrite get_merged_index.
    destruct (cid_eqb_spec c2 c); [discriminate|].
    destruct (cid_eqb_spec c1 c); [discriminate|].
    destruct (cid_eqb_spec (Merged (cluster_counter s)) c) as [<-|Nn].
    - intros [= <-]. now left.
    - intros G. right. split; auto. }
  constructor.
  - intros c l G. apply Hold in G. unfold merged, after_hierarchy. proj.
    rewrite length_list_update. destruct G as [[_ ->]|[_ G]]; eauto.
  - intros c c' l G G'. apply Hold in G. apply Hold in G'.
    destruct G as [[-> ->]|[N G]], G' as [[-> El]|[N' G']]; auto.
    + exfalso. apply N'. eapply I; eauto.
    + exfalso. subst l. apply N. eapply I; eauto.
    + eapply I; eauto.
  - intros c l G. apply Hold in G. unfold merged, after_hierarchy. proj.
    destruct G as [[_ ->]|[N G]].
    + now rewrite nth_list_update_eq by auto.
    + rewrite nth_list_update_ne; [eapply Mp; eauto|].
      intros <-. apply N. symmetry. eapply I; eauto.
Qed.

(** ** Progress of a round *)

Lemma live_scorable s c :
  index_wf s -> Dict.mem (index s) c = true ->
  0 < count_of (word_counts s) c -> scorable s c.
Proof.
  intros Hwf Hm Hf. split; [exact Hm|]. split; [|exact Hf].
  destruct (mem_get_some _ _ Hm) as [l G]. unfold docs_of. rewrite G.
  eapply iw_maps; eauto.
Qed.

Lemma stored_in_entries t a b v :
  stored t a b = Some v -> In (a, b, v) (score_entries t).
Proof.
  unfold stored. destruct (Dict.get t a) as [row|] eqn:G; [|discriminate].
  intros Gv. apply in_score_entries. exists row. split.
  - now apply DictFacts.get_some_in.
  - now apply DictFacts.get_some_in.
Qed.

Lemma get_map_rows (f : Dict.t cid score -> Dict.t cid score)
    (t : Dict.t cid (Dict.t cid score)) a :
  Dict.get (map (fun '(k, d) => (k, f d)) t) a = option_map f (Dict.get t a).
Proof.
  induction t as [|[k d] t IH]; simpl; auto.
  destruct (cid_eqb k a); auto.
Qed.

Lemma stored_purged t c a b :
  a <> c -> b <> c -> stored (purged t c) a b = stored t a b.
Proof.
  intros Ha Hb. unfold stored, purged. rewrite get_map_rows.
  destruct (Dict.mem t c);
    rewrite ?(DictFacts.get_del_ne (H := cid_key) t) by auto;
    destruct (Dict.get t a); simpl; auto;
    now rewrite (DictFacts.get_del_ne (H := cid_key)) by auto.
Qed.

Lemma stored_scored_persists s pairs t a b :
  stored t a b <> None -> stored (scored s t pairs) a b <> None.
Proof.
  unfold scored. revert t. induction pairs as [|[c1 c2] pairs IH]; intros t H.
  - exact H.
  - cbn [fold_left]. apply IH. rewrite stored_store.
    destruct (cid_eqb c1 a && cid_eqb c2 b); [discriminate | exact H].
Qed.

Lemma find_best_loop_total {ML : MathLog} es :
  forall best s,
    exists r s',
      fold_m find_best_step es best s = Ok (r, s')
      /\ (best <> None \/ es <> [] -> r <> None).
Proof.
  induction es as [|e es IH]; intros best s; cbn [fold_m].
  - exists best, s. split; [reflexivity|]. intros [H|H]; congruence.
  - assert (Hstep : exists b1 s1, find_best_step best e s = Ok (Some b1, s1)).
    { unfold find_best_step. destruct best as [[[x y] bs]|]; [|unfold ret; eauto].
      destruct (score_gtb _ _); [unfold ret; eauto|].
      destruct (score_eqb _ _); [|unfold ret; eauto].
      unfold bind, randint01. destruct (_ =? 1); unfold ret; eauto. }
    destruct Hstep as (b1 & s1 & E1).
    rewrite (bind_ok _ _ _ _ _ E1).
    destruct (IH (Some b1) s1) as (r & s' & E & Hr).
    exists r, s'. split; [exact E|]. intros _. apply Hr. left. discriminate.
Qed.

Lemma outside_rng_pos_eq s s' :
  outside_rng_pos s' = outside_rng_pos s -> s' = set_rng_pos (rng_pos s') s.
Proof.
  destruct s, s'. unfold outside_rng_pos. simpl. intros [= -> -> -> -> -> -> -> -> -> -> -> -> -> ->].
  reflexivity.
Qed.

(** With a score in the table, [find_best] returns a pair and only moves
    the cursor of the random source. *)
Lemma find_best_some {ML : MathLog} s :
  score_entries (current_batch_scores s) <> [] ->
  exists c1 c2 p, find_best s = Ok (Some (c1, c2), set_rng_pos p s).
Proof.
  intros Hne.
  destruct (find_best_loop_total (score_entries (current_batch_scores s)) None s)
    as (r & s' & E & Hr).
  assert (F : exists res, find_best s = Ok (res, s')
                          /\ (res = None -> r = None)).
  { unfold find_best, bind, gets. rewrite E. unfold ret.
    eexists. split; [reflexivity|]. destruct r as [[[x y] v]|]; [discriminate | auto]. }
  destruct F as (res & F & Hres).
  destruct res as [[c1 c2]|]; [|exfalso; apply Hr; auto].
  exists c1, c2, (rng_pos s'). rewrite F. do 2 f_equal.
  apply outside_rng_pos_eq. exact (find_best_frame _ _ _ F).
Qed.

Lemma merged_fields c1 c2 l1 l2 s :
  current_batch (merged c1 c2 l1 l2 s) = current_batch s
  /\ word_queue (merged c1 c2 l1 l2 s) = word_queue s
  /\ cluster_counter (merged c1 c2 l1 l2 s) = cluster_counter s
  /\ current_batch_scores (merged c1 c2 l1 l2 s) = current_batch_scores s.
Proof. repeat split. Qed.

Lemma merged_member s c1 c2 l1 l2 c :
  c1 <> Merged (cluster_counter s) -> c2 <> Merged (cluster_counter s) ->
  0 < count_of (word_counts s) c1 -> 0 < count_of (word_counts s) c2 ->
  c = Merged (cluster_counter s)
  \/ (c <> c1 /\ c <> c2 /\ c <> Merged (cluster_counter s)
      /\ Dict.mem (index s) c = true /\ 0 < count_of (word_counts s) c) ->
  Dict.mem (index (merged c1 c2 l1 l2 s)) c = true
  /\ 0 < count_of (word_counts (merged c1 c2 l1 l2 s)) c.
Proof.
  intros N1 N2 F1 F2 H. unfold merged, after_hierarchy. proj.
  unfold Dict.mem. rewrite get_merged_index.
  destruct H as [->|(Hc1 & Hc2 & Hn & Hm & Hf)].
  - destruct (cid_eqb_spec c2 (Merged (cluster_counter s))); [contradiction|].
    destruct (cid_eqb_spec c1 (Merged (cluster_counter s))); [contradiction|].
    destruct (cid_eqb_spec (Merged (cluster_counter s)) (Merged (cluster_counter s)));
      [|congruence].
    split; [reflexivity|].
    rewrite !count_of_release by (left; congruence).
    unfold count_of at 1. rewrite DictFacts.get_set_eq. lia.
  - destruct (cid_eqb_spec c2 c); [congruence|].
    destruct (cid_eqb_spec c1 c); [congruence|].
    destruct (cid_eqb_spec (Merged (cluster_counter s)) c); [congruence|].
    split; [exact Hm|].
    rewrite !count_of_release by (left; congruence).
    unfold count_of at 1.
    rewrite (DictFacts.get_set_ne (H := cid_key)) by auto.
    fold (count_of (wc_touch (wc_touch (word_counts s) c1) c2) c).
    now rewrite !count_of_wc_touch.
Qed.

Lemma in_batch_not_queue (b q : list cid) x :
  NoDup (b ++ q) -> In x b -> In x q -> False.
Proof.
  induction b as [|y b IH]; simpl; [tauto|]. intros Hnd [->|Hx] Hq.
  - inversion Hnd as [|? ? N _]; subst. apply N. apply in_app_iff. now right.
  - inversion Hnd; subst. eauto.
Qed.

Lemma two_members (l : list cid) :
  (1 < List.length l)%nat -> NoDup l ->
  exists x y, In x l /\ In y l /\ x <> y.
Proof.
  destruct l as [|x [|y rest]]; simpl; try lia. intros _ Hnd.
  exists x, y. repeat split; auto.
  inversion Hnd as [|? ? N _]; subst. intros ->. apply N. now left.
Qed.

(** In a well-formed state with more than one cluster in the batch the
    round completes, and the state it leaves is well formed. *)
Lemma round_progress {ML : MathLog} s :
  batch_wf s -> index_wf s -> members_live s -> scores_complete s ->
  (1 < List.length (current_batch s))%nat ->
  exists s',
    merge_round s = Ok (tt, s')
    /\ index_wf s' /\ members_live s' /\ scores_complete s'.
Proof.
  intros [Hnd Hfresh Hsc] Hwf Hlive Hcomp Hlen.
  (* the table is not empty *)
  assert (Hne : score_entries (current_batch_scores s) <> []).
  { destruct (two_members _ Hlen (NoDup_app_remove_r _ _ Hnd))
      as (x & y & Hx & Hy & Hxy).
    destruct (Hcomp x y Hx Hy Hxy) as [H|H].
    - destruct (stored _ x y) eqn:G; [|congruence].
      apply stored_in_entries in G. intros E. rewrite E in G. destruct G.
    - destruct (stored _ y x) eqn:G; [|congruence].
      apply stored_in_entries in G. intros E. rewrite E in G. destruct G. }
  destruct (find_best_some s Hne) as (c1 & c2 & p & EF).
  destruct (find_best_entry _ _ _ _ EF) as [v0 He].
  destruct (Hsc _ _ _ He) as (I1 & I2 & Hc).
  set (s1 := set_rng_pos p s) in *.
  assert (Hwf1 : index_wf s1) by (eapply index_wf_same; [| |exact Hwf]; reflexivity).
  destruct (Hlive c1) as [M1 F1]; [apply in_app_iff; now left|].
  destruct (Hlive c2) as [M2 F2]; [apply in_app_iff; now left|].
  destruct (mem_get_some _ _ M1) as [l1 G1].
  destruct (mem_get_some _ _ M2) as [l2 G2].
  assert (Hl : l1 <> l2).
  { intros <-. apply Hc. eapply (iw_inj _ Hwf); eauto. }
  assert (Hold : forall c, In c (current_batch s ++ word_queue s) ->
                           c <> Merged (cluster_counter s)).
  { intros c Hin ->. apply Hfresh in Hin. lia. }
  assert (N1 : c1 <> Merged (cluster_counter s)) by (apply Hold, in_app_iff; now left).
  assert (N2 : c2 <> Merged (cluster_counter s)) by (apply Hold, in_app_iff; now left).
  pose proof (merge_explicit s1 c1 c2 l1 l2 G1 G2
                (iw_valid _ Hwf _ _ G1) Hc Hl N1 N2) as EM.
  set (s2 := merged c1 c2 l1 l2 s1) in *.
  assert (Hwf2 : index_wf s2) by (apply merged_wf; auto).
  (* the members of the new batch *)
  assert (Hmem : forall c,
            In c (kept_batch c1 c2 s ++ new_items s ++ skipn 1 (word_queue s)) ->
            Dict.mem (index s2) c = true /\ 0 < count_of (word_counts s2) c).
  { intros c Hin. apply (merged_member s1 c1 c2 l1 l2 c N1 N2 F1 F2).
    rewrite !in_app_iff in Hin. unfold new_items in Hin.
    destruct Hin as [Hk|[[<-|Hq]|Hq]].
    - apply in_kept_batch in Hk as (Hb & K1 & K2). right.
      assert (In c (current_batch s ++ word_queue s)) by (apply in_app_iff; now left).
      destruct (Hlive c H). repeat split; auto; now apply Hold.
    - now left.
    - apply in_firstn_1 in Hq. right.
      assert (In c (current_batch s ++ word_queue s)) by (apply in_app_iff; now right).
      destruct (Hlive c H).
      repeat split; auto; try (now apply Hold); intros ->;
        first [ exact (in_batch_not_queue _ _ _ Hnd I1 Hq)
              | exact (in_batch_not_queue _ _ _ Hnd I2 Hq) ].
    - assert (Hq' : In c (word_queue s)).
      { rewrite <- (firstn_skipn 1 (word_queue s)). apply in_app_iff. now right. }
      right.
      assert (In c (current_batch s ++ word_queue s)) by (apply in_app_iff; now right).
      destruct (Hlive c H).
      repeat split; auto; try (now apply Hold); intros ->;
        first [ exact (in_batch_not_queue _ _ _ Hnd I1 Hq')
              | exact (in_batch_not_queue _ _ _ Hnd I2 Hq') ]. }
  (* the update of the batch *)
  pose proof (update_batch_unfold c1 c2 s2) as EU.
  assert (K : kept_batch c1 c2 s2 = kept_batch c1 c2 s) by reflexivity.
  assert (N : new_items s2 = new_items s) by reflexivity.
  rewrite K, N in EU.
  set (s3 := set_word_queue _ _) in EU.
  assert (Hsc3 : forall c, In c (kept_batch c1 c2 s ++ new_items s) -> scorable s3 c).
  { intros c Hin. destruct (Hmem c) as [Hm Hf].
    { rewrite app_assoc. apply in_app_iff. now left. }
    exact (live_scorable s2 c Hwf2 Hm Hf). }
  set (P1 := product (new_items s) (kept_batch c1 c2 s)) in *.
  set (P2 := combinations2 (new_items s)) in *.
  assert (HP1 : forall a b, In (a, b) P1 -> scorable s3 a /\ scorable s3 b).
  { intros a b Hab. apply in_product in Hab as [Ha Hb].
    split; apply Hsc3, in_app_iff; auto. }
  assert (HP2 : forall a b, In (a, b) P2 -> scorable s3 a /\ scorable s3 b).
  { intros a b Hab. apply in_combinations2 in Hab as (Ha & Hb & _).
    split; apply Hsc3, in_app_iff; auto. }
  rewrite (bind_ok _ _ _ _ _ (make_pair_scores_scorable P1 s3 HP1)) in EU.
  set (s4 := set_current_batch_scores _ s3) in EU.
  rewrite (bind_ok _ _ _ _ _ (make_pair_scores_scorable P2 s4 HP2)) in EU.
  set (s5 := set_current_batch_scores _ s4) in EU.
  unfold modify in EU.
  eexists. split.
  { unfold merge_round. rewrite (bind_ok _ _ _ _ _ EF).
    rewrite (bind_ok _ _ _ _ _ EM). rewrite (bind_ok _ _ _ _ _ EU).
    reflexivity. }
  proj. split; [|split].
  - eapply index_wf_same; [| |exact Hwf2]; reflexivity.
  - intros c Hin. proj. rewrite <- app_assoc in Hin.
    destruct (Hmem c Hin) as [Hm Hf]. split; [exact Hm | exact Hf].
  - intros a b Ha Hb Hab. proj.
    assert (Hstored : forall x y,
              (stored (purged (purged (current_batch_scores s) c1) c2) x y <> None
               \/ In (x, y) P1 \/ In (x, y) P2) ->
              stored (current_batch_scores s5) x y <> None).
    { intros x y [H|[H|H]]; subst s5 s4; proj.
      - now do 2 apply stored_scored_persists.
      - apply stored_scored_persists.
        rewrite (stored_scored s3 P1 _ x y H). discriminate.
      - rewrite (stored_scored _ P2 _ x y H). discriminate. }
    apply in_app_iff in Ha, Hb.
    destruct Ha as [Ha|Ha], Hb as [Hb|Hb].
    + apply in_kept_batch in Ha as (Ia & A1 & A2).
      apply in_kept_batch in Hb as (Ib & B1 & B2).
      destruct (Hcomp a b Ia Ib Hab) as [H|H]; [left | right];
        apply Hstored; left; now rewrite !stored_purged by auto.
    + right. apply Hstored. right; left. now apply in_product.
    + left. apply Hstored. right; left. now apply in_product.
    + assert (HP : forall x y, In (x, y) P2 ->
                 stored (current_batch_scores s5) x y <> None)
        by (intros x y H; apply Hstored; auto).
      clearbody s5. subst P2. clear - Ha Hb Hab HP. unfold new_items in *.
      destruct (word_queue s) as [|w q]; simpl in Ha, Hb, HP.
      * destruct Ha as [<-|[]], Hb as [<-|[]]. congruence.
      * destruct Ha as [<-|[<-|[]]], Hb as [<-|[<-|[]]]; try congruence.
        -- left. apply HP. now left.
        -- right. apply HP. now left.
Qed.

Lemma combinations2_complete {A} (l : list A) a b :
  In a l -> In b l -> a <> b ->
  In (a, b) (combinations2 l) \/ In (b, a) (combinations2 l).
Proof.
  induction l as [|x l IH]; simpl; [tauto|].
  intros [->|Ha] [->|Hb] Hab; try congruence.
  - left. apply in_app_iff. left. now apply in_map.
  - right. apply in_app_iff. left. now apply in_map.
  - destruct (IH Ha Hb Hab); [left | right]; apply in_app_iff; now right.
Qed.

Lemma new_state_wf bs cap r : index_wf (new_state bs cap r).
Proof. constructor; intros; discriminate. Qed.

(** The state before the loop is well formed. *)
Lemma setup_wf docs bs cap r s :
  setup docs (new_state bs cap r) = Ok (tt, s) ->
  index_wf s /\ members_live s /\ scores_complete s.
Proof.
  unfold setup. intros E.
  apply bind_inv in E as ([] & s1 & E1 & E).
  apply bind_inv in E as ([] & s2 & E2 & E).
  unfold bind at 1, modify at 1 in E. unfold bind at 1, modify at 1 in E.
  unfold bind at 1, gets at 1 in E. proj.
  (* the index *)
  pose proof (create_index_wf _ _ _ (new_state_wf bs cap r) E1) as Hwf1.
  assert (Hne : docs <> []) by (intros ->; discriminate).
  destruct (new_state_indexable bs cap r) as [Hv Hk].
  destruct (create_index_ok _ docs Hne Hv Hk) as (s1' & E1' & (h & i & Es1 & _ & Hki)).
  rewrite E1' in E1. injection E1 as <-. subst s1'.
  cbn [new_state word_counts] in *.
  set (wc0 := counted [] (List.concat docs)) in *.
  (* the vocabulary *)
  pose proof (index_wf_sub _ _ (create_vocab_sub _ _ _ E2) Hwf1) as Hwf2.
  destruct (create_vocab_inv _ _ E2) as (_ & (rare & Hws) & Hget).
  proj.
  assert (Hlive2 : forall c, In c (words s2) ->
                             Dict.mem (index s2) c = true
                             /\ 0 < count_of (word_counts s2) c).
  { intros c Hc. destruct (Hget c Hc) as [Gw Gi].
    assert (Hkey : In c (Dict.keys wc0)).
    { rewrite Hws in Hc. apply filter_In in Hc as [Hc _].
      eapply Permutation_in; [apply sorted_desc_perm | exact Hc]. }
    split.
    - unfold Dict.mem. rewrite Gi.
      rewrite <- Hki in Hkey. apply DictFacts.mem_in_keys in Hkey. exact Hkey.
    - unfold count_of. rewrite Gw. fold (count_of wc0 c).
      apply in_keys_counted in Hkey as [[]|(w & -> & Hw)].
      unfold wc0. rewrite count_of_counted. cbn [count_of Dict.get].
      apply occurrences_pos_in in Hw. lia. }
  set (s3 := set_current_batch _ _) in E.
  assert (Hsc3 : forall c, In c (current_batch s3) -> scorable s3 c).
  { intros c Hc. destruct (Hlive2 c) as [Hm Hf].
    { subst s3. proj. rewrite <- (slice_app (words s2) (batch_size s2 + 1)).
      apply in_app_iff. now left. }
    exact (live_scorable s2 c Hwf2 Hm Hf). }
  assert (Hp : forall c1 c2, In (c1, c2) (combinations2 (current_batch s3)) ->
                             scorable s3 c1 /\ scorable s3 c2).
  { intros a b Hab. apply in_combinations2 in Hab as (Ha & Hb & _). auto. }
  pose proof (make_pair_scores_scorable _ s3 Hp) as Hmp.
  change (current_batch s3) with (slice_to (words s2) (batch_size s2 + 1)) in Hmp.
  rewrite (bind_ok _ _ _ _ _ Hmp) in E. unfold modify in E.
  injection E as <-. proj.
  split; [|split].
  - eapply index_wf_same; [| |exact Hwf2]; reflexivity.
  - intros c Hc. proj. apply Hlive2.
    subst s3. proj. rewrite slice_app in Hc. exact Hc.
  - intros a b Ha Hb Hab. proj.
    destruct (combinations2_complete _ a b Ha Hb Hab) as [H|H]; [left | right];
      rewrite (stored_scored _ _ _ _ _ H); discriminate.
Qed.

Lemma reachable_wf {ML : MathLog} docs bs cap r s :
  reachable docs bs cap r s ->
  index_wf s /\ members_live s /\ scores_complete s.
Proof.
  induction 1 as [s E|s s' Hr (Hw & Hl & Hc) Hlen E].
  - eapply setup_wf; eauto.
  - destruct (reachable_inv _ _ _ _ _ Hr) as (Hb & _ & _).
    destruct (round_progress s Hb Hw Hl Hc Hlen) as (s'' & E' & H').
    rewrite E' in E. injection E as <-. exact H'.
Qed.

(** In a run, a round that the loop starts completes. *)
Lemma reachable_round_ok {ML : MathLog} docs bs cap r s :
  reachable docs bs cap r s ->
  (1 < List.length (current_batch s))%nat ->
  exists s', merge_round s = Ok (tt, s').
Proof.
  intros Hr Hlen. destruct (reachable_inv _ _ _ _ _ Hr) as (Hb & _ & _).
  destruct (reachable_wf _ _ _ _ _ Hr) as (Hw & Hl & Hc).
  destruct (round_progress s Hb Hw Hl Hc Hlen) as (s' & E & _). eauto.
Qed.

(** In a run, the ids that [make_pair_scores] is given are scorable ... *)
Lemma reachable_scorable {ML : MathLog} docs bs cap r s c :
  reachable docs bs cap r s ->
  In c (current_batch s ++ word_queue s) -> scorable s c.
Proof.
  intros Hr Hin. destruct (reachable_wf _ _ _ _ _ Hr) as (Hw & Hl & _).
  destruct (Hl c Hin). now apply live_scorable.
Qed.

(** ... and two members of the batch are live in distinct objects and
    older than the id that a merge creates. *)
Lemma reachable_live {ML : MathLog} docs bs cap r s c1 c2 :
  reachable docs bs cap r s ->
  In c1 (current_batch s) -> In c2 (current_batch s) -> c1 <> c2 ->
  exists l1 l2 m1 m2,
    live s c1 l1 m1 /\ live s c2 l2 m2 /\ l1 <> l2
    /\ c1 <> Merged (cluster_counter s) /\ c2 <> Merged (cluster_counter s).
Proof.
  intros Hr I1 I2 Hc.
  destruct (reachable_inv _ _ _ _ _ Hr) as ([Hnd Hfresh _] & _ & _).
  destruct (reachable_wf _ _ _ _ _ Hr) as (Hw & Hl & _).
  assert (Hlive : forall c, In c (current_batch s) ->
            c <> Merged (cluster_counter s)
            /\ exists l, Dict.get (index s) c = Some l
                         /\ live s c l (nth l (heap s) [])).
  { intros c Hin.
    assert (Hin' : In c (current_batch s ++ word_queue s))
      by (apply in_app_iff; now left).
    split.
    - intros ->. apply Hfresh in Hin'. lia.
    - destruct (Hl c Hin') as [Hm _]. destruct (mem_get_some _ _ Hm) as [l G].
      exists l. split; auto. split; [exact G|]. split.
      + apply nth_error_nth'. eapply iw_valid; eauto.
      + eapply iw_maps; eauto. }
  destruct (Hlive c1 I1) as (N1 & l1 & G1 & L1).
  destruct (Hlive c2 I2) as (N2 & l2 & G2 & L2).
  exists l1, l2, (nth l1 (heap s) []), (nth l2 (heap s) []).
  repeat split; auto; try apply L1; try apply L2.
  intros <-. apply Hc. eapply (iw_inj _ Hw); eauto.
Qed.

(** [__init__] terminates: the loop ends within as many rounds as there
    are clusters in the batch and the backlog. *)
Lemma merge_loop_terminates {ML : MathLog} docs bs cap r fuel :
  forall s, reachable docs bs cap r s ->
    (List.length (current_batch s) + List.length (word_queue s) <= fuel)%nat ->
    exists s', merge_loop fuel s = Some (Ok s').
Proof.
  induction fuel as [|fuel IH]; intros s Hr Hf.
  - simpl. destruct (Nat.ltb_spec 1 (List.length (current_batch s))); [lia|]. eauto.
  - simpl. destruct (Nat.ltb_spec 1 (List.length (current_batch s))) as [L|L]; [|eauto].
    destruct (reachable_round_ok _ _ _ _ _ Hr L) as [s1 E]. rewrite E.
    apply IH.
    + eapply reach_round; eauto.
    + destruct (reachable_inv _ _ _ _ _ Hr) as ([Hnd Hfresh Hsc] & _ & _).
      destruct (round_facts _ _ E)
        as (c1 & c2 & [v0 He] & _ & _ & HB & HQ & _).
      destruct (Hsc _ _ _ He) as (I1 & I2 & Hne).
      rewrite HB, HQ. unfold kept_batch, new_items.
      rewrite length_app. cbn [List.length].
      pose proof (length_filter_two (current_batch s) c1 c2
                    (NoDup_app_remove_r _ _ Hnd) I1 I2 Hne) as L2.
      pose proof (f_equal (@List.length cid) (firstn_skipn 1 (word_queue s))) as L'.
      rewrite length_app in L'. lia.
Qed.

(** C5.  In every state of a run where the loop starts a round (the batch
    holds more than one cluster), the round completes and lowers the
    population (size of the batch plus size of the backlog) by exactly 1:
    two distinct members of the batch are removed, the new cluster id is
    appended, and the first word of the backlog, if there is one, moves
    from the backlog to the batch. *)
Theorem merge_round_population {ML : MathLog} docs bs cap r s :
  reachable docs bs cap r s ->
  (1 < List.length (current_batch s))%nat ->
  exists s' c1 c2,
    merge_round s = Ok (tt, s')
    /\ In c1 (current_batch s) /\ In c2 (current_batch s) /\ c1 <> c2
    /\ current_batch s' =
       filter (fun x => negb (cid_eqb x c1 || cid_eqb x c2)) (current_batch s)
       ++ Merged (cluster_counter s) :: firstn 1 (word_queue s)
    /\ word_queue s' = skipn 1 (word_queue s)
    /\ (List.length (current_batch s') + List.length (word_queue s') + 1
        = List.length (current_batch s) + List.length (word_queue s))%nat.
Proof.
  intros Hr Hlen.
  destruct (reachable_round_ok _ _ _ _ _ Hr Hlen) as [s' E].
  destruct (reachable_inv _ _ _ _ _ Hr) as ([Hnd Hfresh Hsc] & _ & _).
  destruct (round_facts _ _ E)
    as (c1 & c2 & [v0 He] & _ & _ & HB & HQ & _).
  destruct (Hsc _ _ _ He) as (I1 & I2 & Hne).
  exists s', c1, c2. repeat split; auto.
  rewrite HB, HQ. unfold kept_batch, new_items.
  rewrite length_app. cbn [List.length].
  pose proof (length_filter_two (current_batch s) c1 c2
                (NoDup_app_remove_r _ _ Hnd) I1 I2 Hne) as L.
  pose proof (f_equal (@List.length cid) (firstn_skipn 1 (word_queue s))) as L'.
  rewrite length_app in L'. lia.
Qed.

Lemma merge_round_population_witness :
  exists s' c1 c2,
    merge_round (ML := scenario_log) scenario_start = Ok (tt, s')
    /\ In c1 (current_batch scenario_start)
    /\ In c2 (current_batch scenario_start) /\ c1 <> c2
    /\ current_batch s' =
       filter (fun x => negb (cid_eqb x c1 || cid_eqb x c2))
         (current_batch scenario_start)
       ++ Merged (cluster_counter scenario_start)
          :: firstn 1 (word_queue scenario_start)
    /\ word_queue s' = skipn 1 (word_queue scenario_start)
    /\ (List.length (current_batch s') + List.length (word_queue s') + 1
        = List.length (current_batch scenario_start)
          + List.length (word_queue scenario_start))%nat.
Proof.
  apply (merge_round_population scenario_docs 10 None (fun _ => false)
           scenario_start scenario_start_reachable).
  vm_compute. lia.
Defined.

Lemma merge_loop_exit {ML : MathLog} fuel s s' :
  merge_loop fuel s = Some (Ok s') ->
  (List.length (current_batch s') <= 1)%nat.
Proof.
  revert s. induction fuel as [|fuel IH]; intros s; simpl.
  - destruct (Nat.ltb_spec 1 (List.length (current_batch s))); [discriminate|].
    intros [= <-]. lia.
  - destruct (Nat.ltb_spec 1 (List.length (current_batch s))).
    + destruct (merge_round s) as [[[] s1]|e]; [apply IH | discriminate].
    + intros [= <-]. lia.
Qed.

(** [__init__] returns or raises: the loop needs no more rounds than
    there are clusters in the batch and the backlog, and once the state
    before the loop is built no round raises. *)
Lemma init_total {ML : MathLog} docs bs cap r :
  exists fuel res,
    init fuel docs bs cap r = Some res
    /\ forall s, setup docs (new_state bs cap r) = Ok (tt, s) ->
                 exists s', res = Ok s' /\ reachable docs bs cap r s'
                            /\ (List.length (current_batch s') <= 1)%nat.
Proof.
  unfold init.
  destruct (setup docs (new_state bs cap r)) as [[[] s]|e] eqn:E.
  - assert (Hr : reachable docs bs cap r s) by (now apply reach_setup).
    destruct (merge_loop_terminates _ _ _ _ _ s Hr (Nat.le_refl _)) as [s' E'].
    eexists _, _. split; [exact E'|].
    intros s0 [= <-]. exists s'. split; [reflexivity|].
    split; [eapply merge_loop_reachable; eauto | eapply merge_loop_exit; eauto].
  - exists 0%nat, (Err e). split; [reflexivity | discriminate].
Qed.

(** ** The bitstring of a cluster id *)

Lemma string_length_app a b :
  String.length (a ++ b) = (String.length a + String.length b)%nat.
Proof. induction a; simpl; auto. Qed.

Lemma string_app_assoc (a b c : string) : ((a ++ b) ++ c = a ++ (b ++ c))%string.
Proof. induction a; simpl; congruence. Qed.

(** The walk up the hierarchy ends within [counter + 1 - rank c] steps and
    leaves the state as it is. *)
Lemma get_bitstring_walk s :
  hier_wf s ->
  forall m c, (cluster_counter s + 1 - rank c <= m)%nat ->
    exists n bits,
      hops s c n /\ (n <= m)%nat /\ String.length bits = n
      /\ (Dict.mem (cluster_parents s) c = false -> bits = EmptyString)
      /\ forall fuel acc, (n < fuel)%nat ->
           get_bitstring_loop fuel c acc s = Some (Ok ((bits ++ acc)%string, s)).
Proof.
  intros Hh. induction m as [|m IH]; intros c Hm.
  - exists 0%nat, EmptyString.
    destruct (Dict.get (cluster_parents s) c) as [p|] eqn:G.
    + exfalso. destruct (Hh _ _ G) as (k & -> & Hk & Hj & _).
      destruct c as [w|j]; simpl in Hm; [lia|].
      specialize (Hj j eq_refl). lia.
    + repeat split; auto; [now constructor|].
      intros [|fuel] acc Hf; [lia|]. simpl.
      unfold Dict.mem. now rewrite G.
  - destruct (Dict.get (cluster_parents s) c) as [p|] eqn:G.
    + destruct (Hh _ _ G) as (k & -> & Hk & Hj & b & Gb & Lb).
      destruct (IH (Merged k)) as (n & bits & Hn & Hle & Hlen & _ & Hrun).
      { simpl. destruct c as [w|j]; simpl in Hm; [lia|].
        specialize (Hj j eq_refl). lia. }
      exists (S n), (bits ++ b)%string. repeat split.
      * econstructor; eauto.
      * lia.
      * rewrite string_length_app. lia.
      * unfold Dict.mem. rewrite G. discriminate.
      * intros [|fuel] acc Hf; [lia|]. simpl.
        unfold Dict.mem. rewrite G, Gb.
        rewrite Hrun by lia. now rewrite string_app_assoc.
    + exists 0%nat, EmptyString. repeat split; auto; [now constructor | lia|].
      intros [|fuel] acc Hf; [lia|]. simpl.
      unfold Dict.mem. now rewrite G.
Qed.

Lemma string_app_empty_r (a : string) : (a ++ "")%string = a.
Proof. induction a; simpl; congruence. Qed.

(** C4.  In every state of a run, following the parent map strictly
    increases the rank of the cluster id, and for every cluster id (every
    word of the vocabulary among them) [get_bitstring] terminates: with [n]
    the number of merges on the path from the id to its root, any fuel
    above [n] gives the result, the state is returned unchanged, the
    bitstring has length [n], and an id without a parent gets the empty
    string. *)
Theorem get_bitstring_terminates {ML : MathLog} docs bs cap r s c :
  reachable docs bs cap r s ->
  (forall x p, Dict.get (cluster_parents s) x = Some p ->
               (rank x < rank p)%nat)
  /\ exists n bits,
       hops s c n
       /\ (forall fuel, (n < fuel)%nat ->
             get_bitstring fuel c s = Some (Ok (bits, s)))
       /\ String.length bits = n
       /\ (Dict.mem (cluster_parents s) c = false -> bits = EmptyString).
Proof.
  intros Hr. destruct (reachable_inv _ _ _ _ _ Hr) as (_ & Hh & _).
  split.
  - intros x p G. destruct (Hh _ _ G) as (k & -> & _ & Hj & _).
    destruct x as [w|j]; simpl; [lia|]. specialize (Hj j eq_refl). lia.
  - destruct (get_bitstring_walk s Hh _ c (Nat.le_refl _))
      as (n & bits & Hn & _ & Hlen & Hroot & Hrun).
    exists n, bits. repeat split; auto.
    intros fuel Hf. unfold get_bitstring. rewrite (Hrun fuel EmptyString Hf).
    now rewrite string_app_empty_r.
Qed.

Lemma get_bitstring_terminates_witness :
  (forall x p, Dict.get (cluster_parents scenario_final) x = Some p ->
               (rank x < rank p)%nat)
  /\ exists n bits,
       hops scenario_final (Word "dog") n
       /\ (forall fuel, (n < fuel)%nat ->
             get_bitstring fuel (Word "dog") scenario_final
             = Some (Ok (bits, scenario_final)))
       /\ String.length bits = n
       /\ (Dict.mem (cluster_parents scenario_final) (Word "dog") = false ->
           bits = EmptyString).
Proof.
  exact (get_bitstring_terminates scenario_docs 10 None (fun _ => false)
           scenario_final (Word "dog") scenario_final_reachable).
Defined.

(** ** The frequencies of the output *)

Lemma word_counts_getitem_eq c s :
  exists s', word_counts_getitem c s = Ok (count_of (word_counts s) c, s')
             /\ cluster_parents s' = cluster_parents s
             /\ cluster_bits s' = cluster_bits s
             /\ cluster_counter s' = cluster_counter s
             /\ same_counts s s'.
Proof.
  unfold word_counts_getitem, count_of.
  destruct (Dict.get (word_counts s) c) eqn:G.
  - exists s. repeat split; auto.
  - eexists. split; [reflexivity|]. repeat split; auto.
    intros c'. proj. unfold count_of.
    destruct (cid_eqb_spec c c') as [<-|Hne].
    + now rewrite DictFacts.get_set_eq, G.
    + now rewrite (DictFacts.get_set_ne (H := cid_key)) by auto.
Qed.

Lemma hier_wf_same s s' :
  cluster_parents s' = cluster_parents s -> cluster_bits s' = cluster_bits s ->
  cluster_counter s' = cluster_counter s -> hier_wf s -> hier_wf s'.
Proof. unfold hier_wf. intros -> -> ->. auto. Qed.

Lemma save_clusters_loop_ok docs s0 ws :
  forall s, hier_wf s ->
    cluster_counter s = cluster_counter s0 ->
    (forall c, In c ws -> count_of (word_counts s) c = frequency docs c) ->
    exists lines s',
      save_clusters_loop (cluster_counter s0 + 2) ws s = Some (Ok (lines, s'))
      /\ map (fun l : line => (fst (fst l), snd l)) lines
         = map (fun c => (c, frequency docs c)) ws.
Proof.
  induction ws as [|w ws IH]; intros s Hh Hc Hf.
  - simpl. eauto.
  - cbn [save_clusters_loop].
    destruct (get_bitstring_walk s Hh _ w (Nat.le_refl _))
      as (n & bits & _ & Hle & _ & _ & Hrun).
    unfold get_bitstring. rewrite Hrun by lia.
    destruct (word_counts_getitem_eq w s) as (s1 & -> & P1 & B1 & C1 & W1).
    destruct (IH s1) as (lines & s' & -> & Hlines).
    + eapply hier_wf_same; eauto.
    + congruence.
    + intros c Hin. rewrite W1. apply Hf. now right.
    + eexists _, _. split; [reflexivity|]. cbn [map fst snd].
      rewrite Hlines. f_equal. f_equal. apply Hf. now left.
Qed.

(** C3.  In every state of a run the frequency table gives every word of
    the retained vocabulary its number of occurrences in the corpus;
    [save_clusters] terminates and writes exactly these frequencies, word
    by word; and a further [merge], whatever its arguments, changes none of
    them: the only entries of the table it deletes belong to ids outside
    the word list. *)
Theorem word_frequencies_survive {ML : MathLog} docs bs cap r s :
  reachable docs bs cap r s ->
  (forall c, In c (words s) ->
     count_of (word_counts s) c = frequency docs c)
  /\ (exists fuel lines s',
        save_clusters fuel s = Some (Ok (lines, s'))
        /\ map (fun l : line => (fst (fst l), snd l)) lines
           = map (fun c => (c, frequency docs c)) (words s))
  /\ (forall c1 c2 s',
        merge c1 c2 s = Ok (tt, s') ->
        (forall c, In c (words s) ->
           count_of (word_counts s') c = count_of (word_counts s) c)
        /\ (forall c, In c (Dict.keys (word_counts s)) ->
              ~ In c (Dict.keys (word_counts s')) -> ~ In c (words s))).
Proof.
  intros Hr. destruct (reachable_inv _ _ _ _ _ Hr) as (_ & Hh & Hc).
  assert (Hf : forall c, In c (words s) ->
                         count_of (word_counts s) c = frequency docs c).
  { intros c Hin. destruct (Hc c Hin) as (w & -> & Hw). exact Hw. }
  split; [exact Hf|]. split.
  - destruct (save_clusters_loop_ok docs s (words s) s Hh eq_refl Hf)
      as (lines & s' & E & Hl).
    exists (cluster_counter s + 2)%nat, lines, s'. split; auto.
  - intros c1 c2 s' E. split.
    + intros c Hin. eapply merge_keeps_word_counts; eauto.
      destruct (Hc c Hin) as (w & -> & _). discriminate.
    + intros c. eapply merge_deletes_non_words; eauto.
Qed.

Lemma word_frequencies_survive_witness :
  (forall c, In c (words scenario_final) ->
     count_of (word_counts scenario_final) c = frequency scenario_docs c)
  /\ (exists fuel lines s',
        save_clusters fuel scenario_final = Some (Ok (lines, s'))
        /\ map (fun l : line => (fst (fst l), snd l)) lines
           = map (fun c => (c, frequency scenario_docs c))
               (words scenario_final))
  /\ (forall c1 c2 s',
        merge c1 c2 scenario_final = Ok (tt, s') ->
        (forall c, In c (words scenario_final) ->
           count_of (word_counts s') c
           = count_of (word_counts scenario_final) c)
        /\ (forall c, In c (Dict.keys (word_counts scenario_final)) ->
              ~ In c (Dict.keys (word_counts s')) ->
              ~ In c (words scenario_final))).
Proof.
  exact (word_frequencies_survive scenario_docs 10 None (fun _ => false)
           scenario_final scenario_final_reachable).
Defined.

(** ** The tie-break of [find_best] *)

(** *** The loop on a list of bits *)

Lemma hd_skipn (bits : list bool) k : hd false (skipn k bits) = nth k bits false.
Proof.
  revert bits. induction k; intros [|b bits]; simpl; auto.
Qed.

Lemma tl_skipn (bits : list bool) k : tl (skipn k bits) = skipn (S k) bits.
Proof.
  revert bits. induction k; intros [|b bits]; simpl; auto.
Qed.

Lemma find_best_loop_pick {ML : MathLog} bits es :
  forall best s,
    rng s = (fun i => nth i bits false) ->
    exists s',
      fold_m find_best_step es best s
      = Ok (pick best es (skipn (rng_pos s) bits), s').
Proof.
  induction es as [|e es IH]; intros best s Hr; cbn [fold_m pick].
  - eexists. reflexivity.
  - unfold bind at 1, find_best_step. destruct best as [[[x y] bs]|].
    + cbn [snd]. destruct (score_gtb (snd e) bs); [apply IH, Hr|].
      destruct (score_eqb (snd e) bs); [|apply IH, Hr].
      unfold bind, randint01. rewrite Hr, hd_skipn, tl_skipn.
      destruct (nth (rng_pos s) bits false); cbn [Z.b2z Z.eqb Pos.eqb ret].
      * destruct (IH (Some e) (set_rng_pos (S (rng_pos s)) s) Hr) as [s' E].
        exists s'. exact E.
      * destruct (IH (Some (x, y, bs)) (set_rng_pos (S (rng_pos s)) s) Hr)
          as [s' E].
        exists s'. exact E.
    + apply IH, Hr.
Qed.

Lemma finds_pick {ML : MathLog} p bits s :
  finds p (seeded bits s)
  = hit p (pick None (score_entries (current_batch_scores s)) bits).
Proof.
  unfold finds, find_best. unfold bind at 1, gets at 1.
  destruct (find_best_loop_pick bits
              (score_entries (current_batch_scores (seeded bits s)))
              None (seeded bits s) eq_refl) as [s' E].
  unfold bind. rewrite E. cbn [seeded rng_pos skipn current_batch_scores].
  unfold ret.
  destruct (pick None (score_entries (current_batch_scores s)) bits)
    as [[[x y] v]|]; reflexivity.
Qed.

(** *** Counting the sequences of bits *)

Lemma chosen_cnt {ML : MathLog} n s p :
  chosen n s p = cnt None (score_entries (current_batch_scores s)) n p.
Proof.
  unfold chosen, cnt. f_equal. apply filter_ext. intros bits. apply finds_pick.
Qed.

Lemma length_all_bits n : List.length (all_bits n) = (2 ^ n)%nat.
Proof.
  induction n as [|n IH]; [reflexivity|].
  cbn [all_bits]. rewrite length_app, !length_map, IH. simpl. lia.
Qed.

Lemma length_filter_map {A B} (f : B -> bool) (g : A -> B) (l : list A) :
  List.length (filter f (map g l)) = List.length (filter (fun x => f (g x)) l).
Proof.
  induction l as [|x l IH]; simpl; auto.
  destruct (f (g x)); simpl; now rewrite IH.
Qed.

Lemma length_filter_const {A} (b : bool) (l : list A) :
  List.length (filter (fun _ => b) l) = if b then List.length l else 0%nat.
Proof. destruct b; induction l; simpl; auto. Qed.

Lemma cnt_nil {ML : MathLog} best n p : cnt best [] n p = if hit p best then (2 ^ n)%nat else 0%nat.
Proof.
  unfold cnt. cbn [pick]. now rewrite length_filter_const, length_all_bits.
Qed.

Lemma cnt_gt {ML : MathLog} b e es n p :
  score_gtb (snd e) (snd b) = true ->
  cnt (Some b) (e :: es) n p = cnt (Some e) es n p.
Proof.
  intros H. unfold cnt. f_equal. apply filter_ext. intros bits.
  cbn [pick]. now rewrite H.
Qed.

Lemma cnt_lt {ML : MathLog} b e es n p :
  score_gtb (snd e) (snd b) = false -> score_eqb (snd e) (snd b) = false ->
  cnt (Some b) (e :: es) n p = cnt (Some b) es n p.
Proof.
  intros H H'. unfold cnt. f_equal. apply filter_ext. intros bits.
  cbn [pick]. now rewrite H, H'.
Qed.

Lemma cnt_tie {ML : MathLog} b e es n p :
  score_gtb (snd e) (snd b) = false -> score_eqb (snd e) (snd b) = true ->
  cnt (Some b) (e :: es) (S n) p
  = (cnt (Some e) es n p + cnt (Some b) es n p)%nat.
Proof.
  intros H H'. unfold cnt. cbn [all_bits].
  rewrite filter_app, length_app, !length_filter_map. f_equal.
  - f_equal. apply filter_ext. intros bits. cbn [pick hd tl]. now rewrite H, H'.
  - f_equal. apply filter_ext. intros bits. cbn [pick hd tl]. now rewrite H, H'.
Qed.

(** *** The order of the doubles *)

Lemma key_lt_irrefl a : ~ key_lt a a.
Proof. unfold key_lt. lia. Qed.

Lemma SFcompare_key x y :
  x <> S754_nan -> y <> S754_nan ->
  exists c, SFcompare x y = Some c
            /\ CompareSpec (float_key x = float_key y)
                 (key_lt (float_key x) (float_key y))
                 (key_lt (float_key y) (float_key x)) c.
Proof.
  intros Hx Hy.
  destruct x as [[|]|[|]| |[|] m1 e1], y as [[|]|[|]| |[|] m2 e2];
    try congruence; cbn [SFcompare float_key];
    try (eexists; split; [reflexivity|]; constructor;
         first [ reflexivity | unfold key_lt; cbn [fst snd]; lia ]).
  - change (Pos.compare_cont Eq m1 m2) with (Pos.compare m1 m2).
    eexists; split; [reflexivity|].
    destruct (Z.compare_spec e1 e2) as [->|He|He].
    + destruct (Pos.compare_spec m1 m2) as [->|Hm|Hm]; cbn [CompOpp];
        constructor; first [ reflexivity | unfold key_lt; cbn [fst snd]; lia ].
    + constructor. unfold key_lt; cbn [fst snd]; lia.
    + constructor. unfold key_lt; cbn [fst snd]; lia.
  - change (Pos.compare_cont Eq m1 m2) with (Pos.compare m1 m2).
    eexists; split; [reflexivity|].
    destruct (Z.compare_spec e1 e2) as [->|He|He].
    + destruct (Pos.compare_spec m1 m2) as [->|Hm|Hm];
        constructor; first [ reflexivity | unfold key_lt; cbn [fst snd]; lia ].
    + constructor. unfold key_lt; cbn [fst snd]; lia.
    + constructor. unfold key_lt; cbn [fst snd]; lia.
Qed.

Lemma SFltb_key x y :
  x <> S754_nan -> y <> S754_nan ->
  SFltb x y = true <-> key_lt (float_key x) (float_key y).
Proof.
  intros Hx Hy. unfold SFltb.
  destruct (SFcompare_key x y Hx Hy) as (c & -> & Hc).
  destruct Hc as [E|Hl|Hg]; split; try congruence; auto; intros H; exfalso.
  - rewrite E in H. exact (key_lt_irrefl _ H).
  - unfold key_lt in *. lia.
Qed.

Lemma SFeqb_key x y :
  x <> S754_nan -> y <> S754_nan ->
  SFeqb x y = true <-> float_key x = float_key y.
Proof.
  intros Hx Hy. unfold SFeqb.
  destruct (SFcompare_key x y Hx Hy) as (c & -> & Hc).
  destruct Hc as [E|Hl|Hg]; split; try congruence; auto; intros H; exfalso;
    rewrite H in *; eapply key_lt_irrefl; eauto.
Qed.

(** A double is not below itself, NaN included. *)
Lemma SFltb_irrefl x : SFltb x x = false.
Proof.
  unfold SFltb. destruct x as [[|]|[|]| |[|] m e]; cbn [SFcompare]; try reflexivity.
  - rewrite Z.compare_refl.
    change (Pos.compare_cont Eq m m) with (Pos.compare m m).
    now rewrite Pos.compare_refl.
  - rewrite Z.compare_refl.
    change (Pos.compare_cont Eq m m) with (Pos.compare m m).
    now rewrite Pos.compare_refl.
Qed.

(** *** Scores that are not NaN *)

Lemma shr_1_nonneg mrs : 0 <= shr_m mrs -> 0 <= shr_m (shr_1 mrs).
Proof.
  destruct mrs as [m r s]. cbn [shr_m shr_1].
  destruct m as [|[p|p|]|[p|p|]]; cbn [shr_m]; lia.
Qed.

Lemma iter_shr_1_nonneg p : forall mrs,
  0 <= shr_m mrs -> 0 <= shr_m (iter_pos shr_1 p mrs).
Proof.
  induction p as [p IH|p IH|]; intros mrs H; cbn [iter_pos].
  - apply IH, IH, shr_1_nonneg, H.
  - apply IH, IH, H.
  - apply shr_1_nonneg, H.
Qed.

Lemma shr_fexp_nonneg prec emax m e l :
  0 <= m -> 0 <= shr_m (fst (shr_fexp prec emax m e l)).
Proof.
  intros H. unfold shr_fexp, shr.
  assert (H0 : 0 <= shr_m (shr_record_of_loc m l))
    by (destruct l as [|[| |]]; exact H).
  destruct (fexp prec emax (Zdigits2 m + e) - e); cbn [fst]; auto.
  now apply iter_shr_1_nonneg.
Qed.

Lemma round_nearest_even_nonneg m l : 0 <= m -> 0 <= round_nearest_even m l.
Proof.
  intros H. unfold round_nearest_even.
  destruct l as [|[| |]]; try lia. destruct (Z.even m); lia.
Qed.

Lemma binary_round_aux_not_nan prec emax sx mx ex lx :
  0 <= mx -> binary_round_aux prec emax sx mx ex lx <> S754_nan.
Proof.
  intros H. unfold binary_round_aux.
  pose proof (shr_fexp_nonneg prec emax mx ex lx H) as H1.
  destruct (shr_fexp prec emax mx ex lx) as [mrs' e']. cbn [fst] in H1.
  pose proof (shr_fexp_nonneg prec emax
                (round_nearest_even (shr_m mrs') (loc_of_shr_record mrs'))
                e' loc_Exact (round_nearest_even_nonneg _ _ H1)) as H2.
  destruct (shr_fexp prec emax _ e' loc_Exact) as [mrs'' e'']. cbn [fst] in H2.
  destruct (shr_m mrs'') as [|m|m]; try discriminate; [|lia].
  destruct (e'' <=? emax - prec); discriminate.
Qed.

Lemma binary_normalize_not_nan prec emax m e szero :
  binary_normalize prec emax m e szero <> S754_nan.
Proof.
  unfold binary_normalize, binary_round.
  destruct m as [|m|m]; [discriminate| |];
    destruct (shl_align _ _ _) as [mz ez];
    apply binary_round_aux_not_nan; lia.
Qed.

(** A double minus a finite double is a NaN only if the double is. *)
Lemma float_sub_not_nan x y :
  x <> S754_nan -> finite_float y -> float_sub x y <> S754_nan.
Proof.
  intros Hx Hy. unfold float_sub.
  destruct x as [sx|sx| |sx mx ex]; [| |congruence|];
    destruct y as [sy|sy| |sy my ey]; try contradiction; cbn [SFsub];
    try discriminate; try assumption.
  - destruct sx, sy; discriminate.
  - apply binary_normalize_not_nan.
Qed.

(** With a [math.log] that returns finite doubles, no score is a NaN. *)
Lemma score_float_not_nan {ML : MathLog} v :
  (forall p, finite_float (math_log p)) -> score_float v <> S754_nan.
Proof.
  intros Hf. destruct v as [|p f1 f2]; cbn [score_float]; [discriminate|].
  apply float_sub_not_nan; [|apply Hf].
  apply float_sub_not_nan; [|apply Hf].
  specialize (Hf p). destruct (math_log p); try contradiction; discriminate.
Qed.

Lemma finite_log_no_nan {ML : MathLog} t :
  (forall p, finite_float (math_log p)) -> no_nan t.
Proof. intros Hf e _. now apply score_float_not_nan. Qed.

(** *** The order of the scores *)

Lemma score_gtb_key {ML : MathLog} a b :
  sound_entry a -> sound_entry b ->
  score_gtb (snd a) (snd b) = true <-> key_lt (entry_key b) (entry_key a).
Proof. intros Ha Hb. unfold score_gtb. now apply SFltb_key. Qed.

Lemma score_eqb_key {ML : MathLog} a b :
  sound_entry a -> sound_entry b ->
  score_eqb (snd a) (snd b) = true <-> entry_key a = entry_key b.
Proof. intros Ha Hb. unfold score_eqb. now apply SFeqb_key. Qed.

Lemma score_gtb_false {ML : MathLog} a b :
  sound_entry a -> sound_entry b ->
  score_gtb (snd a) (snd b) = false <-> ~ key_lt (entry_key b) (entry_key a).
Proof.
  intros Ha Hb. rewrite <- not_true_iff_false, score_gtb_key by auto. tauto.
Qed.

Lemma score_gtb_refl {ML : MathLog} v : score_gtb v v = false.
Proof. apply SFltb_irrefl. Qed.

Lemma is_max_spec {ML : MathLog} es x :
  (forall y, In y es -> sound_entry y) -> sound_entry x ->
  is_max es x = true <->
  forall y, In y es -> ~ key_lt (entry_key x) (entry_key y).
Proof.
  intros Hes Hx. unfold is_max. rewrite forallb_forall. split; intros H y Hy.
  - apply score_gtb_false; auto. apply negb_true_iff. auto.
  - apply negb_true_iff, score_gtb_false; auto.
Qed.

Lemma bool_ext (a b : bool) : (a = true <-> b = true) -> a = b.
Proof.
  destruct a, b; intros [H1 H2]; auto; symmetry; auto.
Qed.

Ltac key_order := unfold key_lt in *; lia.

Lemma maxima_gt {ML : MathLog} b e es :
  (forall y, In y (b :: e :: es) -> sound_entry y) ->
  score_gtb (snd e) (snd b) = true ->
  maxima (b :: e :: es) = maxima (e :: es).
Proof.
  intros Hs H.
  assert (Hs' : forall y, In y (e :: es) -> sound_entry y)
    by (intros y Hy; apply Hs; now right).
  assert (Sb : sound_entry b) by (apply Hs; now left).
  assert (Se : sound_entry e) by (apply Hs; right; now left).
  apply score_gtb_key in H; auto. unfold maxima.
  change (filter (is_max (b :: e :: es)) (b :: e :: es))
    with (if is_max (b :: e :: es) b then b :: filter (is_max (b :: e :: es)) (e :: es)
          else filter (is_max (b :: e :: es)) (e :: es)).
  assert (Hb : is_max (b :: e :: es) b = false).
  { apply not_true_iff_false. rewrite is_max_spec by auto. intros Hm.
    specialize (Hm e (or_intror (or_introl eq_refl))). contradiction. }
  rewrite Hb. apply filter_ext_in. intros x Hx. apply bool_ext.
  rewrite !is_max_spec by auto. split; intros Hm y Hy.
  - apply Hm. now right.
  - destruct Hy as [<-|Hy]; [|now apply Hm].
    specialize (Hm e (or_introl eq_refl)). key_order.
Qed.

Lemma maxima_lt {ML : MathLog} b e es :
  (forall y, In y (b :: e :: es) -> sound_entry y) ->
  score_gtb (snd e) (snd b) = false -> score_eqb (snd e) (snd b) = false ->
  maxima (b :: e :: es) = maxima (b :: es).
Proof.
  intros Hs H H'.
  assert (Sb : sound_entry b) by (apply Hs; now left).
  assert (Se : sound_entry e) by (apply Hs; right; now left).
  assert (Hs' : forall y, In y (b :: es) -> sound_entry y).
  { intros y [<-|Hy]; auto. apply Hs. right; now right. }
  assert (Hlt : key_lt (entry_key e) (entry_key b)).
  { unfold score_gtb, score_eqb, SFltb, SFeqb in H, H'.
    destruct (SFcompare_key (score_float (snd e)) (score_float (snd b)) Se Sb)
      as (c & Ec & Hc).
    destruct (SFcompare_key (score_float (snd b)) (score_float (snd e)) Sb Se)
      as (c' & Ec' & Hc').
    rewrite Ec in H'. rewrite Ec' in H.
    destruct Hc as [E|Hl|Hg]; try discriminate; auto.
    destruct Hc' as [E'|Hl'|Hg']; try discriminate; auto.
    exfalso. unfold entry_key in *. rewrite E' in Hg.
    exact (key_lt_irrefl _ Hg). }
  assert (Hext : forall x, In x (b :: es) ->
                           is_max (b :: e :: es) x = is_max (b :: es) x).
  { intros x Hx. apply bool_ext. rewrite !is_max_spec by auto.
    split; intros Hm y Hy.
    - apply Hm. destruct Hy as [<-|Hy]; [now left | right; now right].
    - destruct Hy as [<-|[<-|Hy]].
      + apply Hm. now left.
      + specialize (Hm b (or_introl eq_refl)). key_order.
      + apply Hm. now right. }
  assert (He : is_max (b :: e :: es) e = false).
  { apply not_true_iff_false. rewrite is_max_spec by auto. intros Hm.
    specialize (Hm b (or_introl eq_refl)). contradiction. }
  unfold maxima. cbn [filter]. rewrite He, (Hext b (or_introl eq_refl)).
  assert (E : filter (is_max (b :: e :: es)) es = filter (is_max (b :: es)) es).
  { apply filter_ext_in. intros x Hx. apply Hext. now right. }
  now rewrite E.
Qed.

Lemma maxima_tie {ML : MathLog} b e es :
  (forall y, In y (b :: e :: es) -> sound_entry y) ->
  score_eqb (snd e) (snd b) = true ->
  exists R,
    (forall x, In x R -> In x es)
    /\ ((maxima (b :: e :: es) = b :: e :: R
         /\ maxima (b :: es) = b :: R /\ maxima (e :: es) = e :: R)
        \/ (maxima (b :: e :: es) = R
            /\ maxima (b :: es) = R /\ maxima (e :: es) = R)).
Proof.
  intros Hs H.
  assert (Sb : sound_entry b) by (apply Hs; now left).
  assert (Se : sound_entry e) by (apply Hs; right; now left).
  apply score_eqb_key in H; auto.
  assert (Hmax : forall l x,
            is_max l x = forallb (fun y => negb (score_gtb (snd y) (snd x))) l)
    by reflexivity.
  (* being above [e] is being above [b] *)
  assert (Hyb : forall y, sound_entry y ->
            score_gtb (snd e) (snd y) = score_gtb (snd b) (snd y)).
  { intros y Sy. apply bool_ext.
    rewrite !score_gtb_key by auto. now rewrite H. }
  assert (Hby : forall y, sound_entry y ->
            score_gtb (snd y) (snd e) = score_gtb (snd y) (snd b)).
  { intros y Sy. apply bool_ext.
    rewrite !score_gtb_key by auto. now rewrite H. }
  assert (Heb : score_gtb (snd e) (snd b) = false).
  { apply score_gtb_false; auto. rewrite H. apply key_lt_irrefl. }
  assert (Hbe' : score_gtb (snd b) (snd e) = false).
  { apply score_gtb_false; auto. rewrite H. apply key_lt_irrefl. }
  assert (Hsx : forall x, In x es -> sound_entry x)
    by (intros x Hx; apply Hs; right; now right).
  assert (Hb : forall x, sound_entry x ->
                         is_max (b :: es) x = is_max (b :: e :: es) x).
  { intros x Sx. rewrite !Hmax. cbn [forallb]. rewrite (Hyb x Sx).
    destruct (score_gtb (snd b) (snd x)); reflexivity. }
  assert (He : forall x, sound_entry x ->
                         is_max (e :: es) x = is_max (b :: e :: es) x).
  { intros x Sx. rewrite !Hmax. cbn [forallb]. rewrite (Hyb x Sx).
    destruct (score_gtb (snd b) (snd x)); reflexivity. }
  assert (Hbe : is_max (b :: e :: es) e = is_max (b :: e :: es) b).
  { rewrite !Hmax. apply bool_ext. rewrite !forallb_forall.
    split; intros Hm y Hy; specialize (Hm y Hy).
    - now rewrite <- Hby by auto.
    - now rewrite Hby by auto. }
  exists (filter (is_max (b :: e :: es)) es). split.
  { intros x Hx. now apply filter_In in Hx. }
  unfold maxima. cbn [filter]. rewrite (Hb b Sb), (He e Se), Hbe.
  assert (E1 : filter (is_max (b :: es)) es = filter (is_max (b :: e :: es)) es)
    by (apply filter_ext_in; intros x Hx; apply Hb; auto).
  assert (E2 : filter (is_max (e :: es)) es = filter (is_max (b :: e :: es)) es)
    by (apply filter_ext_in; intros x Hx; apply He; auto).
  rewrite E1, E2.
  destruct (is_max (b :: e :: es) b); auto.
Qed.

Lemma is_max_single {ML : MathLog} b : maxima [b] = [b].
Proof.
  unfold maxima, is_max. cbn [filter forallb]. now rewrite score_gtb_refl.
Qed.

(** *** The distribution of the choice *)

Lemma pair_eqb_spec p q : reflect (p = q) (pair_eqb p q).
Proof.
  destruct p as [a b], q as [c d]. unfold pair_eqb. simpl.
  destruct (cid_eqb_spec a c), (cid_eqb_spec b d); constructor; congruence.
Qed.

Lemma halvings_tail_absent ms p :
  ~ In p (map key_of ms) -> halvings_tail ms p = None.
Proof.
  induction ms as [|m ms IH]; simpl; auto. intros H.
  destruct (pair_eqb_spec (key_of m) p); [tauto|]. apply IH. tauto.
Qed.

Lemma cnt_closed_form {ML : MathLog} es :
  forall b n p,
    (forall y, In y (b :: es) -> sound_entry y) ->
    NoDup (map key_of (b :: es)) -> (List.length es <= n)%nat ->
    match halvings (maxima (b :: es)) p with
    | Some x => (cnt (Some b) es n p * 2 ^ x = 2 ^ n)%nat
    | None => cnt (Some b) es n p = 0%nat
    end.
Proof.
  induction es as [|e es IH]; intros b n p Hs Hnd Hn.
  - rewrite is_max_single, cnt_nil. cbn [halvings hit List.length].
    destruct (pair_eqb (key_of b) p); simpl; lia.
  - assert (Hnd_b : NoDup (map key_of (b :: es))).
    { cbn [map] in *. inversion Hnd as [|? ? N1 N2]; subst.
      inversion N2; subst. constructor; auto. intros H. apply N1. now right. }
    assert (Hnd_e : NoDup (map key_of (e :: es))).
    { cbn [map] in *. now inversion Hnd. }
    assert (Hs_b : forall y, In y (b :: es) -> sound_entry y).
    { intros y [<-|Hy]; apply Hs; [now left | right; now right]. }
    assert (Hs_e : forall y, In y (e :: es) -> sound_entry y).
    { intros y Hy. apply Hs. now right. }
    cbn [List.length] in Hn.
    destruct (score_gtb (snd e) (snd b)) eqn:G.
    { rewrite maxima_gt, cnt_gt by auto. apply IH; auto. lia. }
    destruct (score_eqb (snd e) (snd b)) eqn:Q.
    2:{ rewrite maxima_lt, cnt_lt by auto. apply IH; auto. lia. }
    destruct n as [|n]; [lia|]. rewrite cnt_tie by auto.
    assert (Hb_out : ~ In (key_of b) (map key_of es)).
    { cbn [map] in Hnd. inversion Hnd as [|? ? N1 _]; subst.
      intros H. apply N1. now right. }
    assert (He_out : ~ In (key_of e) (map key_of es)).
    { cbn [map] in Hnd_e. now inversion Hnd_e. }
    assert (Hbe : key_of b <> key_of e).
    { cbn [map] in Hnd. inversion Hnd as [|? ? N1 _]; subst.
      intros H. apply N1. now left. }
    specialize (IH b n p Hs_b Hnd_b ltac:(lia)) as IHb.
    specialize (IH e n p Hs_e Hnd_e ltac:(lia)) as IHe.
    destruct (maxima_tie b e es Hs Q) as (R & HR & [(-> & Mb & Me)|(-> & Mb & Me)]);
      rewrite Mb in IHb; rewrite Me in IHe.
    + assert (HRout : forall x, ~ In x (map key_of es) -> halvings_tail R x = None).
      { intros x Hx. apply halvings_tail_absent. intros H. apply Hx.
        apply in_map_iff in H as (y & <- & Hy). apply in_map, HR, Hy. }
      cbn [halvings halvings_tail List.length] in *.
      destruct (pair_eqb_spec (key_of b) p) as [<-|Nb].
      * destruct (pair_eqb_spec (key_of e) (key_of b)); [congruence|].
        rewrite (HRout _ Hb_out) in IHe. rewrite IHe.
        rewrite Nat.pow_succ_r', Nat.add_0_l. cbn [Nat.pow]. lia.
      * destruct (pair_eqb_spec (key_of e) p) as [<-|Ne].
        -- rewrite (HRout _ He_out) in IHb. rewrite IHb.
           rewrite Nat.add_0_r. cbn [Nat.pow]. lia.
        -- destruct (halvings_tail R p); cbn [Nat.pow]; lia.
    + destruct (halvings R p); cbn [Nat.pow]; lia.
Qed.

Lemma map_key_of_entries t :
  map key_of (score_entries t)
  = flat_map (fun kd => map (pair (fst kd)) (Dict.keys (snd kd))) t.
Proof.
  unfold score_entries. induction t as [|[k d] t IH]; [reflexivity|].
  cbn [flat_map fst snd]. rewrite map_app, IH. f_equal.
  unfold Dict.keys. rewrite !map_map. apply map_ext. now intros [k2 v].
Qed.

Lemma table_wf_entries t : table_wf t -> NoDup (map key_of (score_entries t)).
Proof.
  rewrite map_key_of_entries. intros [Hk Hrows].
  induction t as [|[k d] t IH]; [constructor|].
  cbn [flat_map fst snd]. cbn [Dict.keys map fst] in Hk.
  inversion Hk as [|? ? Hout Hk']; subst.
  apply NoDup_app.
  - apply Finite.Injective_map_NoDup; [intros x y; congruence|].
    apply (Hrows k d). now left.
  - apply IH; auto. intros k' row H. apply (Hrows k' row). now right.
  - intros [a b] Ha Hb. apply in_map_iff in Ha as (x & [= <- <-] & _).
    apply in_flat_map in Hb as ([k' d'] & Hin & Hb).
    apply in_map_iff in Hb as (y & [= <- _] & _).
    apply Hout. apply in_map_iff. exists (k', d'). auto.
Qed.

Lemma setup_table_wf docs : preserves keeps_table_wf (setup docs).
Proof. unfold setup, create_index, create_vocab, index_token. frame. Qed.

Lemma merge_round_table_wf {ML : MathLog} : preserves keeps_table_wf merge_round.
Proof. unfold merge_round. frame. Qed.

(** In a run the keys of the score table and of its rows are unique. *)
Lemma reachable_table_wf {ML : MathLog} docs bs cap r s :
  reachable docs bs cap r s -> table_wf (current_batch_scores s).
Proof.
  induction 1 as [s E|s s' Hr IH Hlen E].
  - apply (setup_table_wf _ _ _ _ E). split; [constructor | intros k row []].
  - exact (merge_round_table_wf _ _ _ E IH).
Qed.

(** C6, as stated: refuted for every [math.log].  The three pairs of the
    scenario have one and the same score, so all three are maximal; the
    last is returned on 4 of the 8 sequences of three bits and the first
    on 2.  (Were that score a NaN, which equals nothing, the first would be
    returned on all 8 sequences and the last on none.) *)
Lemma tie_break_not_uniform : ~ uniform_tie_break.
Proof.
  intros [ML H].
  set (e1 := (Word "dog", Word "cat", LogRatio 1 2 2)).
  set (e2 := (Word "dog", Word "bird", LogRatio 1 2 2)).
  set (e3 := (Word "cat", Word "bird", LogRatio 1 2 2)).
  assert (Es : score_entries (current_batch_scores scenario_start) = [e1; e2; e3])
    by reflexivity.
  assert (Em : maxima [e1; e2; e3] = [e1; e2; e3]).
  { unfold maxima, is_max. cbn [filter forallb snd e1 e2 e3].
    now rewrite score_gtb_refl. }
  specialize (H scenario_start 3%nat e1 e3).
  rewrite Es, Em, !chosen_cnt, Es in H.
  specialize (H (le_n 3) (or_introl eq_refl)
                (or_intror (or_intror (or_introl eq_refl)))).
  change (cnt None [e1; e2; e3] 3 (key_of e1))
    with (cnt (Some e1) [e2; e3] 3 (key_of e1)) in H.
  change (cnt None [e1; e2; e3] 3 (key_of e3))
    with (cnt (Some e1) [e2; e3] 3 (key_of e3)) in H.
  assert (G : forall a b : cid * cid * score,
            In a [e1; e2; e3] -> In b [e1; e2; e3] ->
            score_gtb (snd a) (snd b) = false).
  { intros a b [<-|[<-|[<-|[]]]] [<-|[<-|[<-|[]]]]; apply score_gtb_refl. }
  destruct (score_eqb (LogRatio 1 2 2) (LogRatio 1 2 2)) eqn:Q.
  - rewrite !(cnt_tie e1 e2 [e3] 2), !(cnt_tie e2 e3 [] 1),
      !(cnt_tie e1 e3 [] 1), !cnt_nil in H
      by (first [ apply G; simpl; tauto | exact Q ]).
    discriminate H.
  - rewrite !(cnt_lt e1 e2 [e3] 3), !(cnt_lt e1 e3 [] 3), !cnt_nil in H
      by (first [ apply G; simpl; tauto | exact Q ]).
    discriminate H.
Qed.

(** Rounding decides: the two highest scores of [rounding_docs] are equal
    as real numbers, [ln (6 / (3 * 2)) = ln (1 / (1 * 1))], but the double
    of the first is below the double of the second.  [find_best] sees no
    tie, draws no bit and returns the second pair. *)
Lemma rounding_start_reachable :
  reachable (ML := scenario_log) rounding_docs 10 None (fun _ => false)
    rounding_start.
Proof. apply reach_setup. vm_compute. reflexivity. Qed.

Lemma rounding_breaks_tie :
  stored (current_batch_scores rounding_start) (Word "d") (Word "c")
  = Some (LogRatio 6 3 2)
  /\ stored (current_batch_scores rounding_start) (Word "a") (Word "b")
     = Some (LogRatio 1 1 1)
  /\ score_value (LogRatio 6 3 2) = score_value (LogRatio 1 1 1)
  /\ score_gtb (ML := scenario_log) (LogRatio 1 1 1) (LogRatio 6 3 2) = true
  /\ find_best (ML := scenario_log) rounding_start
     = Ok (Some (Word "a", Word "b"), rounding_start).
Proof.
  split; [reflexivity|]. split; [reflexivity|]. split.
  - cbn [score_value]. f_equal.
    change (Z.pos 6) with (3 * 2)%Z. rewrite mult_IZR, ln_mult, ln_1.
    + ring.
    + apply IZR_lt. lia.
    + apply IZR_lt. lia.
  - split; vm_compute; reflexivity.
Qed.

(** C6, amended.  Among the entries of the score table, with [k] pairs
    whose double is maximal (in the order of [>] and [==] on floats, no
    score being a NaN), taken in the order of iteration of the table, and a
    fair random source: [find_best] returns the first of them with
    probability [2^-(k-1)], the [j]-th (from the second on) with
    probability [2^-(k-j+1)], and never a pair that is not maximal.  The
    choice is uniform for [k <= 2] only; for three or more ties the later
    pairs are favoured, the last one being returned half of the time.
    (Counted over all sequences of [n] bits, [n] at least the number of
    entries.) *)
Theorem tie_break_distribution {ML : MathLog} s n p :
  table_wf (current_batch_scores s) ->
  no_nan (current_batch_scores s) ->
  (List.length (score_entries (current_batch_scores s)) <= n)%nat ->
  match halvings (maxima (score_entries (current_batch_scores s))) p with
  | Some x => (chosen n s p * 2 ^ x = 2 ^ n)%nat
  | None => chosen n s p = 0%nat
  end.
Proof.
  intros Hwf Hs Hn. apply table_wf_entries in Hwf. rewrite chosen_cnt.
  unfold no_nan in Hs.
  destruct (score_entries (current_batch_scores s)) as [|b es].
  - now rewrite cnt_nil.
  - change (cnt None (b :: es) n p) with (cnt (Some b) es n p).
    apply cnt_closed_form; auto. cbn [List.length] in Hn. lia.
Qed.

Lemma tie_break_distribution_witness :
  (chosen (ML := scenario_log) 3 scenario_start (Word "cat", Word "bird") * 2 ^ 1
   = 2 ^ 3)%nat.
Proof.
  apply (tie_break_distribution (ML := scenario_log) scenario_start 3
           (Word "cat", Word "bird")).
  - split.
    + repeat constructor; simpl; intuition discriminate.
    + intros k row [[= <- <-]|[[= <- <-]|[]]];
        repeat constructor; simpl; intuition discriminate.
  - intros e [<-|[<-|[<-|[]]]]; discriminate.
  - simpl. lia.
Defined.
